(** * Rad-report-form: finding model, session and batch reconciliation

    A shallow embedding of the TypeScript sources
      - [src/unnamed/part_000]              (ResultsDisplay: single-mode result view),
      - [src/App.tsx]                       (single-mode session container),
      - [src/components/BatchProcessor.tsx] (batch registry),
      - [src/services/geminiService.ts]     (clients and the base64 codec),
      - [src/services/htmlGenerator.ts]     (the finding split of the report),
      - [src/components/AudioRecorder.tsx]  (what starts and ends a recording),
    together with the properties of the specification that concern them and
    with further properties of the code: the finding codec and the edit
    cycle, the base64 codec and the snapshots, the chat, the copy buttons,
    the per-finding dictation, and the invariants of the two components
    seen as transition systems.

    JavaScript strings are sequences of UTF-16 code units; they are modelled
    as [list N], one number per code unit.  Arrays are lists of slots, a slot
    being either a value or empty (an empty slot reads as [undefined]).
    Handlers are written in a small state-and-exception monad; the answers of
    the external collaborators (recorder, transcription, chat) are inputs of
    the handlers, so that every theorem quantifies over all of them. *)

From Stdlib Require Import String Ascii NArith List Bool Lia DecimalString.
From stdpp Require Import base option list gmap sorting.
Import ListNotations.

#[local] Open Scope N_scope.
#[local] Open Scope nat_scope.
#[local] Open Scope list_scope.

(* ===================================================================== *)
(** ** JavaScript strings *)
(* ===================================================================== *)

Module Js.

Abbreviation jsstring := (list N).

(** A literal of the source text, as code units. *)
Definition str (s : string) : jsstring :=
  List.map N_of_ascii (list_ascii_of_string s).

Definition HASH : N := 35%N.
Definition SPACE : N := 32%N.
Definition NEWLINE : N := 10%N.
Definition TAB : N := 9%N.

(** ECMAScript [WhiteSpace] and [LineTerminator]: what [trim] removes. *)
Definition isWhiteSpace (c : N) : bool :=
  existsb (N.eqb c)
    [9; 10; 11; 12; 13; 32; 160; 5760; 8232; 8233; 8239; 8287; 12288; 65279]%N
  || ((8192 <=? c)%N && (c <=? 8202)%N).

Fixpoint trimStart (s : jsstring) : jsstring :=
  match s with
  | [] => []
  | c :: s' => if isWhiteSpace c then trimStart s' else s
  end.

Definition trimEnd (s : jsstring) : jsstring := rev (trimStart (rev s)).

(** [s.trim()] *)
Definition trim (s : jsstring) : jsstring := trimEnd (trimStart s).

(** [s.trim() === ''] *)
Definition blank (s : jsstring) : bool :=
  match trim s with [] => true | _ :: _ => false end.

(** [s.startsWith(p)] *)
Fixpoint startsWith (p s : jsstring) : bool :=
  match p, s with
  | [], _ => true
  | _ :: _, [] => false
  | a :: p', b :: s' => N.eqb a b && startsWith p' s'
  end.

(** [s.endsWith(p)] *)
Definition endsWith (p s : jsstring) : bool := startsWith (rev p) (rev s).

(** [s.includes(p)] *)
Fixpoint includes (p s : jsstring) : bool :=
  startsWith p s
  || match s with [] => false | _ :: s' => includes p s' end.

Definition push_front (c : N) (parts : list jsstring) : list jsstring :=
  match parts with
  | [] => [[c]]
  | h :: t => (c :: h) :: t
  end.

(** [s.split(sep)] for a non-empty separator: the text is scanned from the
    left; at a position where [sep] matches, the current piece is closed and
    the scan resumes after the separator ([skip] counts the code units of a
    matched separator still to pass over). *)
Fixpoint split_go (sep : jsstring) (skip : nat) (s : jsstring) : list jsstring :=
  match s with
  | [] => [[]]
  | c :: s' =>
      match skip with
      | S k => split_go sep k s'
      | O =>
          if startsWith sep s
          then [] :: split_go sep (length sep - 1) s'
          else push_front c (split_go sep 0 s')
      end
  end.

Definition split (sep s : jsstring) : list jsstring := split_go sep 0 s.

(** [parts.join(sep)] on an array of strings. *)
Fixpoint join (sep : jsstring) (parts : list jsstring) : jsstring :=
  match parts with
  | [] => []
  | [x] => x
  | x :: rest => x ++ sep ++ join sep rest
  end.

(** The delimiter of structured findings, ['###']. *)
Definition SEP : jsstring := [HASH; HASH; HASH].
(** ['\n'] *)
Definition NL : jsstring := [NEWLINE].

End Js.
Import Js.

(* ===================================================================== *)
(** ** Finding model (parseStructuredFinding and the edit re-encoding) *)
(* ===================================================================== *)

Record ParsedFinding : Type := mkParsed {
  isStructured : bool;
  title : jsstring;
  points : list jsstring
}.

(** [parseStructuredFinding] of ResultsDisplay and of BatchProcessor (the two
    copies are identical). *)
Definition parseStructuredFinding (finding : jsstring) : ParsedFinding :=
  let parts := split SEP finding in
  if (1 <? length parts) && negb (blank (hd [] parts))
  then {| isStructured := true;
          title := hd [] parts;
          points := List.filter (fun p => negb (blank p)) (skipn 1 parts) |}
  else {| isStructured := false; title := finding; points := [] |}.

(** The re-encoding of [handleSaveEdit] for a structured finding:
    [lines.filter(line => line.trim() !== '').join('###')]. *)
Definition serialize (segments : list jsstring) : jsstring :=
  join SEP (List.filter (fun line => negb (blank line)) segments).

(** [handleSaveEdit]: the text handed to [onUpdateFinding]. *)
Definition savedText (originalFinding editingText : jsstring) : jsstring :=
  if isStructured (parseStructuredFinding originalFinding)
  then serialize (split NL editingText)
  else editingText.

(** What the copy operations render for one finding (plain text). *)
Definition renderPlain (finding : jsstring) : jsstring :=
  let p := parseStructuredFinding finding in
  if isStructured p then join NL (title p :: points p) else finding.

(* ===================================================================== *)
(** ** Arrays, blobs and the base64 codec *)
(* ===================================================================== *)

(** A [string[]] at run time: a list of slots; [None] is an empty slot. *)
Abbreviation jsarray := (list (option jsstring)).

(** [a[i]]: [None] stands for [undefined]. *)
Definition arr_get (a : jsarray) (i : nat) : option jsstring :=
  match a !! i with
  | Some (Some s) => Some s
  | _ => None
  end.

(** [a[i] = v]: in range the slot is replaced; past the end the array is
    extended, the slots in between staying empty. *)
Definition arr_set (a : jsarray) (i : nat) (v : jsstring) : jsarray :=
  if i <? length a
  then <[i := Some v]> a
  else a ++ replicate (i - length a) None ++ [Some v].

(** [a.join(sep)]: an empty slot is rendered as the empty string. *)
Definition arr_join (sep : jsstring) (a : jsarray) : jsstring :=
  join sep (List.map (default []) a).

Definition dense (l : list jsstring) : jsarray := List.map Some l.

(** A [Blob]: its bytes and its content type. *)
Record Blob : Type := mkBlob {
  blob_bytes : list N;
  blob_type : jsstring
}.

Definition blob_size (b : Blob) : nat := length (blob_bytes b).

(** [new Blob(parts, { type })] *)
Definition newBlob (parts : list Blob) (type : jsstring) : Blob :=
  {| blob_bytes := concat (List.map blob_bytes parts); blob_type := type |}.

(** [getCleanMimeType] (the three copies in the sources are identical). *)
Definition getCleanMimeType (b : Blob) : jsstring :=
  match blob_type b with
  | [] => str "audio/ogg"
  | mimeType =>
      if startsWith (str "audio/webm") mimeType || startsWith (str "video/webm") mimeType
      then str "audio/webm"
      else hd [] (split (str ";") mimeType)
  end.

(** The browser's [atob] (forgiving base64 decoding): ASCII white space is
    removed, up to two padding signs are dropped from a text whose length is
    a multiple of four, and the rest must consist of alphabet characters and
    must not have length 1 modulo 4.  [None] is the thrown
    [InvalidCharacterError]. *)
Definition b64_value (c : N) : option N :=
  if (65 <=? c)%N && (c <=? 90)%N then Some (c - 65)%N
  else if (97 <=? c)%N && (c <=? 122)%N then Some (c - 71)%N
  else if (48 <=? c)%N && (c <=? 57)%N then Some (c + 4)%N
  else if (c =? 43)%N then Some 62%N
  else if (c =? 47)%N then Some 63%N
  else None.

Fixpoint b64_values (s : jsstring) : option (list N) :=
  match s with
  | [] => Some []
  | c :: s' =>
      match b64_value c, b64_values s' with
      | Some v, Some vs => Some (v :: vs)
      | _, _ => None
      end
  end.

Fixpoint b64_bytes (v : list N) : list N :=
  match v with
  | a :: b :: c :: d :: rest =>
      (a * 4 + b / 16)%N :: ((b mod 16) * 16 + c / 4)%N
      :: ((c mod 4) * 64 + d)%N :: b64_bytes rest
  | [a; b; c] => [(a * 4 + b / 16)%N; ((b mod 16) * 16 + c / 4)%N]
  | [a; b] => [(a * 4 + b / 16)%N]
  | _ => []
  end.

Definition strip_padding (s : jsstring) : jsstring :=
  if (length s mod 4 =? 0)%nat
  then match rev s with
       | 61%N :: 61%N :: r => rev r
       | 61%N :: r => rev r
       | _ => s
       end
  else s.

Definition atob (data : jsstring) : option (list N) :=
  let s := List.filter (fun c => negb (existsb (N.eqb c) [9; 10; 12; 13; 32]%N)) data in
  let s := strip_padding s in
  if (length s mod 4 =? 1)%nat then None
  else option_map b64_bytes (b64_values s).

(** The base64 text of a blob, as [blobToBase64] extracts it from the data
    URL that [FileReader.readAsDataURL] produces. *)
Definition b64_char (v : N) : N :=
  if (v <? 26)%N then (v + 65)%N
  else if (v <? 52)%N then (v + 71)%N
  else if (v <? 62)%N then (v - 4)%N
  else if (v =? 62)%N then 43%N
  else 47%N.

Fixpoint b64_encode (bytes : list N) : jsstring :=
  match bytes with
  | a :: b :: c :: rest =>
      b64_char (a / 4) :: b64_char ((a mod 4) * 16 + b / 16)
      :: b64_char ((b mod 16) * 4 + c / 64) :: b64_char (c mod 64) :: b64_encode rest
  | [a; b] =>
      [b64_char (a / 4); b64_char ((a mod 4) * 16 + b / 16); b64_char ((b mod 16) * 4); 61%N]
  | [a] => [b64_char (a / 4); b64_char ((a mod 4) * 16); 61%N; 61%N]
  | [] => []
  end.

Definition blobToBase64 (b : Blob) : jsstring := b64_encode (blob_bytes b).

(** [base64ToBlob] of geminiService: a decoding failure is caught here and
    an empty blob of the requested type is returned. *)
Definition base64ToBlob (base64 mimeType : jsstring) : Blob :=
  match atob base64 with
  | Some byteNumbers => mkBlob byteNumbers mimeType
  | None => mkBlob [] mimeType
  end.

(* ===================================================================== *)
(** ** Effects: thrown values, external calls, the handler monad *)
(* ===================================================================== *)

(** A thrown value: an [Error] object with its message, or something that is
    not an [Error] (a rejected [FileReader] event, for instance). *)
Inductive exn : Type :=
| ErrorObj (message : jsstring)
| NonError.

(** [err instanceof Error ? err.message : fallback] *)
Definition messageOr (fallback : jsstring) (e : exn) : jsstring :=
  match e with
  | ErrorObj m => m
  | NonError => fallback
  end.

(** Reading a property of [undefined]. *)
Definition TypeError_undefined : exn :=
  ErrorObj (str "Cannot read properties of undefined").

Inductive result (A : Type) : Type :=
| Ok (a : A)
| Throw (e : exn).
Arguments Ok {A} a.
Arguments Throw {A} e.

(** The chat session handle returned by [createChat]. *)
Inductive Chat : Type := ChatSession (n : nat).

Inductive Author : Type := You | AI.

Record ChatMessage : Type := mkMessage {
  author : Author;
  text : jsstring
}.

(** The calls to the clients of geminiService, with their arguments. *)
Inductive Call : Type :=
| ProcessAudio (audio : Blob) (model : jsstring)
| CreateChat (audio : Blob) (initialFindings : jsarray) (model : jsstring)
| ContinueAudioDictation (existingText : option jsstring) (audio : Blob)
| ModifyFindingWithAudio (existingText : option jsstring) (audio : Blob).

(** A handler runs on a component state [S] and on the log of the calls made
    so far.  A thrown value leaves the state as it is at the throw: React
    state updates already issued are not undone. *)
Definition M (S A : Type) : Type := S -> list Call -> result A * S * list Call.

#[global] Instance M_ret {S} : MRet (M S) :=
  fun A (a : A) s log => (Ok a, s, log).

#[global] Instance M_bind {S} : MBind (M S) :=
  fun A B (k : A -> M S B) (m : M S A) s log =>
    match m s log with
    | (Ok a, s', log') => k a s' log'
    | (Throw e, s', log') => (Throw e, s', log')
    end.

Definition throw {S A} (e : exn) : M S A := fun s log => (Throw e, s, log).

Definition gets {S A} (f : S -> A) : M S A := fun s log => (Ok (f s), s, log).

Definition modify {S} (f : S -> S) : M S unit := fun s log => (Ok tt, f s, log).

(** [try { body } catch (e) { handler(e) }] *)
Definition try_catch {S A} (body : M S A) (handler : exn -> M S A) : M S A :=
  fun s log =>
    match body s log with
    | (Ok a, s', log') => (Ok a, s', log')
    | (Throw e, s', log') => handler e s' log'
    end.

(** [try { body } finally { final }] *)
Definition try_finally {S A} (body : M S A) (final : M S unit) : M S A :=
  fun s log =>
    match body s log with
    | (r, s', log') =>
        match final s' log' with
        | (Ok _, s'', log'') => (r, s'', log'')
        | (Throw e, s'', log'') => (Throw e, s'', log'')
        end
    end.

(** [await client(args)]: the call is logged, and its answer, an input of
    the handler, is returned or thrown. *)
Definition call {S A} (c : Call) (answer : result A) : M S A :=
  fun s log =>
    match answer with
    | Ok a => (Ok a, s, log ++ [c])
    | Throw e => (Throw e, s, log ++ [c])
    end.

(** The parts of a finished run. *)
Definition resultOf {S A} (r : result A * S * list Call) : result A := fst (fst r).
Definition stateOf {S A} (r : result A * S * list Call) : S := snd (fst r).
Definition callsOf {S A} (r : result A * S * list Call) : list Call := snd r.

(** An item of [localStorage]: its text parses to a snapshot, or reading it
    throws ([JSON.parse] fails, or the value is not an object). *)
Inductive Item (Snap : Type) : Type :=
| Malformed
| Parsed (snapshot : Snap).
Arguments Malformed {Snap}.
Arguments Parsed {Snap} snapshot.

Record SavedAudio : Type := mkSavedAudio {
  saved_data : jsstring;
  saved_type : jsstring
}.

(** [x || fallback] on a string that may be missing. *)
Definition orString (x : option jsstring) (fallback : jsstring) : jsstring :=
  match x with
  | Some (c :: s) => c :: s
  | _ => fallback
  end.

(** [Array.from(set).sort((a, b) => a - b)] *)
Definition sortNumeric (indices : list nat) : list nat := merge_sort le indices.

(** The rich-text rendering of one finding in the copy operations. *)
Definition renderHtml (finding : jsstring) : jsstring :=
  let p := parseStructuredFinding finding in
  let para s := str "<p><strong>" ++ s ++ str "</strong></p>" in
  if isStructured p
  then para (title p) ++ concat (List.map para (points p))
  else para finding.

(** One step of the [reduce] of [copySelection] / [copyBatchSelection]:
    a captured snippet (a non-empty string) wins over the finding; a finding
    that reads [undefined] makes [parseStructuredFinding] throw. *)
Definition copyEntry (finding : nat -> option jsstring)
    (snippets : gmap nat jsstring) (i : nat) : result (jsstring * jsstring) :=
  match snippets !! i with
  | Some (c :: s) => Ok (c :: s, str "<strong>" ++ (c :: s) ++ str "</strong>")
  | _ =>
      match finding i with
      | Some f => Ok (renderPlain f, renderHtml f)
      | None => Throw TypeError_undefined
      end
  end.

Fixpoint copyEntries (finding : nat -> option jsstring)
    (snippets : gmap nat jsstring) (sortedIndices : list nat)
  : result (list jsstring * list jsstring) :=
  match sortedIndices with
  | [] => Ok ([], [])
  | i :: rest =>
      match copyEntry finding snippets i with
      | Throw e => Throw e
      | Ok (p, h) =>
          match copyEntries finding snippets rest with
          | Throw e => Throw e
          | Ok (plain, html) => Ok (p :: plain, h :: html)
          end
      end
  end.

(** What a selection copy hands to [copyToClipboard]. *)
Inductive CopyOutcome : Type :=
| SelectionCleared
| ToClipboard (plainText htmlText : jsstring)
| CopyThrew (e : exn).

Definition copyIndices (finding : nat -> option jsstring)
    (snippets : gmap nat jsstring) (indices : list nat) : CopyOutcome :=
  match indices with
  | [] => SelectionCleared
  | _ :: _ =>
      match copyEntries finding snippets (sortNumeric indices) with
      | Ok (plain, html) => ToClipboard (join NL plain) (concat html)
      | Throw e => CopyThrew e
      end
  end.

(** What the specification expects of a selection copy for one index: the
    snippet verbatim when one was captured, the rendered finding otherwise. *)
Definition expectedPlain (finding : nat -> option jsstring)
    (snippets : gmap nat jsstring) (i : nat) : jsstring :=
  match snippets !! i with
  | Some snippet => snippet
  | None => renderPlain (default [] (finding i))
  end.

Definition expectedHtml (finding : nat -> option jsstring)
    (snippets : gmap nat jsstring) (i : nat) : jsstring :=
  match snippets !! i with
  | Some snippet => str "<strong>" ++ snippet ++ str "</strong>"
  | None => renderHtml (default [] (finding i))
  end.

(** The text of a per-finding append ([handleStopDictation], both modes). *)
Definition appendText (existingText newText : jsstring) : jsstring :=
  let separator :=
    if (0 <? length (trim existingText)) && negb (endsWith [SPACE] existingText)
    then [SPACE] else [] in
  existingText ++ separator ++ trim newText.

(** [audioBlob && audioBlob.size > 0] on what the recorder's [stopRecording]
    resolved to. *)
Definition usable (captured : option Blob) : option Blob :=
  match captured with
  | Some b => if (0 <? blob_size b)%nat then Some b else None
  | None => None
  end.

(* ===================================================================== *)
(** ** Single mode: App.tsx and ResultsDisplay *)
(* ===================================================================== *)

Module Single.

(** [AppStatus] (types.ts is not among the sources; the members are those
    used by App.tsx). *)
Inductive AppStatus : Type := Idle | Recording | Processing | Success | Error.

(** The state of the [App] component. *)
Record AppState : Type := mkApp {
  status : AppStatus;
  findings : list jsstring;
  error : option jsstring;
  audioBlob : option Blob;
  chat : option Chat;
  chatHistory : list ChatMessage;
  selectedModel : jsstring
}.

Inductive ContinuationStatus : Type := CIdle | CRecording | CProcessing.

(** The state of [ResultsDisplay] that the dictation handlers touch. *)
Record ViewState : Type := mkView {
  dictatingIndex : option nat;
  dictateEditingIndex : option nat;
  processingIndex : option nat;
  continuationError : option (nat * jsstring);
  continuationState : ContinuationStatus * option jsstring
}.

(** The persisted snapshot, as read back: every field may be missing. *)
Record SavedState : Type := mkSaved {
  saved_findings : option (list jsstring);
  saved_audio : option SavedAudio;
  saved_chatHistory : option (list ChatMessage);
  saved_selectedModel : option jsstring
}.

Record World : Type := mkWorld {
  app : AppState;
  view : ViewState;
  localStorage : gmap (list N) (Item SavedState)
}.

Definition SINGLE_MODE_STORAGE_KEY : jsstring := str "radiologyDictationSingleMode".

Definition on_app (f : AppState -> AppState) (w : World) : World :=
  mkWorld (f (app w)) (view w) (localStorage w).
Definition on_view (f : ViewState -> ViewState) (w : World) : World :=
  mkWorld (app w) (f (view w)) (localStorage w).

Definition setStatus (v : AppStatus) : M World unit :=
  modify (on_app (fun a => mkApp v (findings a) (error a) (audioBlob a) (chat a) (chatHistory a) (selectedModel a))).
Definition setFindings (v : list jsstring) : M World unit :=
  modify (on_app (fun a => mkApp (status a) v (error a) (audioBlob a) (chat a) (chatHistory a) (selectedModel a))).
Definition setError (v : option jsstring) : M World unit :=
  modify (on_app (fun a => mkApp (status a) (findings a) v (audioBlob a) (chat a) (chatHistory a) (selectedModel a))).
Definition setAudioBlob (v : option Blob) : M World unit :=
  modify (on_app (fun a => mkApp (status a) (findings a) (error a) v (chat a) (chatHistory a) (selectedModel a))).
Definition setChat (v : option Chat) : M World unit :=
  modify (on_app (fun a => mkApp (status a) (findings a) (error a) (audioBlob a) v (chatHistory a) (selectedModel a))).
Definition setChatHistory (v : list ChatMessage) : M World unit :=
  modify (on_app (fun a => mkApp (status a) (findings a) (error a) (audioBlob a) (chat a) v (selectedModel a))).
Definition setSelectedModel (v : jsstring) : M World unit :=
  modify (on_app (fun a => mkApp (status a) (findings a) (error a) (audioBlob a) (chat a) (chatHistory a) v)).

Definition setDictatingIndex (v : option nat) : M World unit :=
  modify (on_view (fun u => mkView v (dictateEditingIndex u) (processingIndex u) (continuationError u) (continuationState u))).
Definition setDictateEditingIndex (v : option nat) : M World unit :=
  modify (on_view (fun u => mkView (dictatingIndex u) v (processingIndex u) (continuationError u) (continuationState u))).
Definition setProcessingIndex (v : option nat) : M World unit :=
  modify (on_view (fun u => mkView (dictatingIndex u) (dictateEditingIndex u) v (continuationError u) (continuationState u))).
Definition setContinuationError (v : option (nat * jsstring)) : M World unit :=
  modify (on_view (fun u => mkView (dictatingIndex u) (dictateEditingIndex u) (processingIndex u) v (continuationState u))).
Definition setContinuationState (v : ContinuationStatus * option jsstring) : M World unit :=
  modify (on_view (fun u => mkView (dictatingIndex u) (dictateEditingIndex u) (processingIndex u) (continuationError u) v)).

Definition removeItem (key : jsstring) : M World unit :=
  modify (fun w => mkWorld (app w) (view w) (delete key (localStorage w))).

(** The first conversation entry: the findings joined by blank lines, then
    the greeting. *)
Definition greet (fs : list jsstring) (aiGreeting : jsstring) : list ChatMessage :=
  [mkMessage AI (join (str (String "010" (String "010" EmptyString))) fs
                 ++ str (String "010" (String "010" EmptyString)) ++ aiGreeting)].

(** [handleRecordingComplete] *)
Definition handleRecordingComplete (audio : Blob)
    (transcription : result (list jsstring)) (session : result Chat) : M World unit :=
  if (blob_size audio =? 0)%nat then
    setError (Some (str "Recording or upload failed. The audio file is empty."));;
    setStatus Error
  else
    model ← gets (fun w => selectedModel (app w));
    setStatus Processing;;
    setError None;;
    setFindings [];;
    try_catch
      (processedText ← call (ProcessAudio audio model) transcription;
       setFindings processedText;;
       setAudioBlob (Some audio);;
       chatSession ← call (CreateChat audio (dense processedText) model) session;
       setChat (Some chatSession);;
       setChatHistory (greet processedText
         (str "I have reviewed the audio and the transcript. How can I help you further?"));;
       setStatus Success)
      (fun err =>
         setError (Some (messageOr (str "An unknown error occurred during processing.") err));;
         setStatus Error).

(** [handleReprocess] *)
Definition handleReprocess
    (transcription : result (list jsstring)) (session : result Chat) : M World unit :=
  stored ← gets (fun w => audioBlob (app w));
  match stored with
  | None =>
      setError (Some (str "No audio available to reprocess."));;
      setStatus Error
  | Some audio => handleRecordingComplete audio transcription session
  end.

(** [handleUpdateFinding] *)
Definition handleUpdateFinding (index : nat) (newText : jsstring) : M World unit :=
  prevFindings ← gets (fun w => findings (app w));
  setFindings
    (match prevFindings !! index with
     | Some _ => <[index := newText]> prevFindings
     | None => prevFindings
     end).

(** [handleContinueDictation] *)
Definition handleContinueDictation (newAudioBlob : Blob)
    (transcription : result (list jsstring)) (session : result Chat) : M World unit :=
  stored ← gets (fun w => audioBlob (app w));
  current ← gets (fun w => findings (app w));
  model ← gets (fun w => selectedModel (app w));
  match stored with
  | None => throw (ErrorObj (str "Original audio not found. Cannot continue dictation."))
  | Some audio =>
      try_catch
        (newFindings ← call (ProcessAudio newAudioBlob model) transcription;
         let updatedFindings := current ++ newFindings in
         setFindings updatedFindings;;
         let mergedBlob := newBlob [audio; newAudioBlob] (getCleanMimeType audio) in
         setAudioBlob (Some mergedBlob);;
         chatSession ← call (CreateChat mergedBlob (dense updatedFindings) model) session;
         setChat (Some chatSession);;
         setChatHistory (greet updatedFindings
           (str "I have updated the transcript with your new dictation. How can I help you further?")))
        (fun err => throw err)
  end.

(** [handleStopDictation] of ResultsDisplay (per-finding append).
    [captured] is what the append recorder delivers, [continuation] the
    answer of [continueAudioDictation]. *)
Definition handleStopDictation (captured : option Blob)
    (continuation : result jsstring) : M World unit :=
  dictating ← gets (fun w => dictatingIndex (view w));
  match dictating with
  | None => mret tt
  | Some currentIndex =>
      setDictatingIndex None;;
      match usable captured with
      | Some audio =>
          setProcessingIndex (Some currentIndex);;
          try_finally
            (try_catch
               (current ← gets (fun w => findings (app w));
                let existing := current !! currentIndex in
                newText ← call (ContinueAudioDictation existing audio) continuation;
                match existing with
                | None => throw TypeError_undefined
                | Some existingText =>
                    handleUpdateFinding currentIndex (appendText existingText newText)
                end)
               (fun err =>
                  setContinuationError
                    (Some (currentIndex, messageOr (str "An unknown error occurred.") err))))
            (setProcessingIndex None)
      | None => mret tt
      end
  end.

(** [handleStopDictateEdit] of ResultsDisplay (per-finding modify). *)
Definition handleStopDictateEdit (captured : option Blob)
    (modification : result jsstring) : M World unit :=
  editing ← gets (fun w => dictateEditingIndex (view w));
  match editing with
  | None => mret tt
  | Some currentIndex =>
      setDictateEditingIndex None;;
      match usable captured with
      | Some audio =>
          setProcessingIndex (Some currentIndex);;
          try_finally
            (try_catch
               (current ← gets (fun w => findings (app w));
                modifiedText ← call (ModifyFindingWithAudio (current !! currentIndex) audio)
                                 modification;
                handleUpdateFinding currentIndex modifiedText)
               (fun err =>
                  setContinuationError
                    (Some (currentIndex, messageOr (str "An unknown error occurred.") err))))
            (setProcessingIndex None)
      | None => mret tt
      end
  end.

(** [handleStopContinue] of ResultsDisplay; [onContinueDictation] is
    [handleContinueDictation]. *)
Definition handleStopContinue (captured : option Blob)
    (transcription : result (list jsstring)) (session : result Chat) : M World unit :=
  match usable captured with
  | Some audio =>
      setContinuationState (CProcessing, None);;
      try_catch
        (handleContinueDictation audio transcription session;;
         setContinuationState (CIdle, None))
        (fun err =>
           setContinuationState
             (CIdle, Some (messageOr (str "An unknown error occurred.") err)))
  | None => setContinuationState (CIdle, None)
  end.

(** [copySelection]: [indices] lists the members of the [Set] in the order
    in which they were added. *)
Definition copySelection (fs : list jsstring) (selectionSnippets : gmap nat jsstring)
    (indices : list nat) : CopyOutcome :=
  copyIndices (fun i => fs !! i) selectionSnippets indices.

(** [handleSaveEdit] of ResultsDisplay, for an edit in progress at
    [editingIndex] with draft [editingText]. *)
Definition handleSaveEdit (editingIndex : nat) (editingText : jsstring) : M World unit :=
  current ← gets (fun w => findings (app w));
  match current !! editingIndex with
  | None => throw TypeError_undefined
  | Some originalFinding =>
      handleUpdateFinding editingIndex (savedText originalFinding editingText)
  end.

(** The load effect of [App]: restore the snapshot; [session] is the answer
    of the asynchronous [createChat], whose failure is only logged. *)
Definition loadState (session : result Chat) : M World unit :=
  try_catch
    (item ← gets (fun w => localStorage w !! SINGLE_MODE_STORAGE_KEY);
     match item with
     | None => mret tt
     | Some Malformed => throw (ErrorObj (str "Unexpected token"))
     | Some (Parsed savedState) =>
         match saved_findings savedState, saved_audio savedState with
         | Some (f :: fs), Some audio =>
             let blob := base64ToBlob (saved_data audio) (saved_type audio) in
             setFindings (f :: fs);;
             setAudioBlob (Some blob);;
             setChatHistory (default [] (saved_chatHistory savedState));;
             setStatus Success;;
             let modelToUse := orString (saved_selectedModel savedState) (str "gemini-2.5-pro") in
             setSelectedModel modelToUse;;
             try_catch
               (chatSession ← call (CreateChat blob (dense (f :: fs)) modelToUse) session;
                setChat (Some chatSession))
               (fun _ => mret tt)
         | _, _ => mret tt
         end
     end)
    (fun _ => removeItem SINGLE_MODE_STORAGE_KEY).

(** The state of a freshly mounted [App] over a given storage. *)
Definition initial (storage : gmap (list N) (Item SavedState)) : World :=
  mkWorld (mkApp Idle [] None None None [] (str "gemini-2.5-pro"))
          (mkView None None None None (CIdle, None))
          storage.

End Single.

(* ===================================================================== *)
(** ** Batch mode: BatchProcessor.tsx *)
(* ===================================================================== *)

Module Batch.

Inductive BatchStatus : Type :=
  idle | recording | paused | complete | processing | error.

Definition status_eqb (a b : BatchStatus) : bool :=
  match a, b with
  | idle, idle | recording, recording | paused, paused
  | complete, complete | processing, processing | error, error => true
  | _, _ => false
  end.

(** [interface Batch]; [findings] is [null] until a transcription succeeds. *)
Record Batch : Type := mkBatch {
  id : jsstring;
  name : jsstring;
  audioBlobs : list Blob;
  findings : option jsarray;
  status : BatchStatus;
  selectedModel : jsstring;
  error_ : option jsstring;
  chat : option Chat;
  chatHistory : option (list ChatMessage);
  isChatting : option bool
}.

(** [a === b] on identifiers. *)
Definition id_eqb (a b : jsstring) : bool := bool_decide (a = b).

Inductive ContinuationStatus : Type := CIdle | CRecording | CProcessing.

Record Continuation : Type := mkContinuation {
  cont_batchId : option jsstring;
  cont_status : ContinuationStatus;
  cont_error : option jsstring
}.

(** [SerializableBatch]: a batch as persisted ([chat] is not stored). *)
Record SavedBatch : Type := mkSavedBatch {
  saved_id : jsstring;
  saved_name : jsstring;
  saved_audioBlobs : list SavedAudio;
  saved_findings : option jsarray;
  saved_status : BatchStatus;
  saved_selectedModel : jsstring;
  saved_error : option jsstring;
  saved_chatHistory : option (list ChatMessage);
  saved_isChatting : option bool
}.

(** The state of the [BatchProcessor] component, with the state of the main
    recorder hook ([isMainRecording]) and the storage it persists to. *)
Record State : Type := mkState {
  batches : list Batch;
  activeBatchId : option jsstring;
  isBusy : bool;
  isMainRecording : bool;
  continuationState : Continuation;
  dictatingState : option (jsstring * nat);
  dictateEditingState : option (jsstring * nat);
  processingState : option (jsstring * nat);
  continuationError : option (jsstring * nat * jsstring);
  localStorage : gmap (list N) (Item (list SavedBatch))
}.

Definition BATCH_MODE_STORAGE_KEY : jsstring := str "radiologyDictationBatchMode".

Definition withBatches (f : list Batch -> list Batch) (s : State) : State :=
  mkState (f (batches s)) (activeBatchId s) (isBusy s) (isMainRecording s)
    (continuationState s) (dictatingState s) (dictateEditingState s) (processingState s)
    (continuationError s) (localStorage s).

(** [setBatches(prev => f(prev))] *)
Definition setBatches (f : list Batch -> list Batch) : M State unit :=
  modify (withBatches f).
Definition setActiveBatchId (v : option jsstring) : M State unit :=
  modify (fun s => mkState (batches s) v (isBusy s) (isMainRecording s)
    (continuationState s) (dictatingState s) (dictateEditingState s) (processingState s)
    (continuationError s) (localStorage s)).
Definition setIsBusy (v : bool) : M State unit :=
  modify (fun s => mkState (batches s) (activeBatchId s) v (isMainRecording s)
    (continuationState s) (dictatingState s) (dictateEditingState s) (processingState s)
    (continuationError s) (localStorage s)).
Definition setContinuationState (v : Continuation) : M State unit :=
  modify (fun s => mkState (batches s) (activeBatchId s) (isBusy s) (isMainRecording s)
    v (dictatingState s) (dictateEditingState s) (processingState s)
    (continuationError s) (localStorage s)).
Definition setDictatingState (v : option (jsstring * nat)) : M State unit :=
  modify (fun s => mkState (batches s) (activeBatchId s) (isBusy s) (isMainRecording s)
    (continuationState s) v (dictateEditingState s) (processingState s)
    (continuationError s) (localStorage s)).
Definition setDictateEditingState (v : option (jsstring * nat)) : M State unit :=
  modify (fun s => mkState (batches s) (activeBatchId s) (isBusy s) (isMainRecording s)
    (continuationState s) (dictatingState s) v (processingState s)
    (continuationError s) (localStorage s)).
Definition setProcessingState (v : option (jsstring * nat)) : M State unit :=
  modify (fun s => mkState (batches s) (activeBatchId s) (isBusy s) (isMainRecording s)
    (continuationState s) (dictatingState s) (dictateEditingState s) v
    (continuationError s) (localStorage s)).
Definition setContinuationError (v : option (jsstring * nat * jsstring)) : M State unit :=
  modify (fun s => mkState (batches s) (activeBatchId s) (isBusy s) (isMainRecording s)
    (continuationState s) (dictatingState s) (dictateEditingState s) (processingState s)
    v (localStorage s)).
Definition removeItem (key : jsstring) : M State unit :=
  modify (fun s => mkState (batches s) (activeBatchId s) (isBusy s) (isMainRecording s)
    (continuationState s) (dictatingState s) (dictateEditingState s) (processingState s)
    (continuationError s) (delete key (localStorage s))).

(** Modelled from the spec: the recorder hook (hooks/useAudioRecorder) is
    not among the sources.  Per the specification it offers the
    start/pause/resume/stop lifecycle and produces opaque audio artifacts:
    [stopRecording] leaves the recorder stopped and resolves to what was
    captured (an input of the handlers); [startRecording] leaves it
    recording when the device started ([started], an input as well). *)
Definition recorderStopped : M State unit :=
  modify (fun s => mkState (batches s) (activeBatchId s) (isBusy s) false
    (continuationState s) (dictatingState s) (dictateEditingState s) (processingState s)
    (continuationError s) (localStorage s)).
Definition recorderStarted (started : bool) : M State unit :=
  modify (fun s => mkState (batches s) (activeBatchId s) (isBusy s) started
    (continuationState s) (dictatingState s) (dictateEditingState s) (processingState s)
    (continuationError s) (localStorage s)).

(** [{ ...b, status }] *)
Definition withStatus (v : BatchStatus) (b : Batch) : Batch :=
  mkBatch (id b) (name b) (audioBlobs b) (findings b) v (selectedModel b)
          (error_ b) (chat b) (chatHistory b) (isChatting b).

(** [{ ...b, audioBlobs: [...b.audioBlobs, blob], status }] *)
Definition withCapture (blob : Blob) (v : BatchStatus) (b : Batch) : Batch :=
  mkBatch (id b) (name b) (audioBlobs b ++ [blob]) (findings b) v (selectedModel b)
          (error_ b) (chat b) (chatHistory b) (isChatting b).

(** [batches.find(b => b.id === batchId)] *)
Definition findBatch (batchId : jsstring) (bs : list Batch) : option Batch :=
  List.find (fun b => id_eqb (id b) batchId) bs.

(** Truthiness of an identifier that may be [null]. *)
Definition truthyId (x : option jsstring) : bool :=
  match x with
  | Some (_ :: _) => true
  | _ => false
  end.

(** [handleRecordOrResume]; [stopped] is what [stopMainRecording] resolves
    to when it is called. *)
Definition handleRecordOrResume (batch : Batch) (stopped : option Blob)
    (started : bool) : M State unit :=
  busy ← gets isBusy;
  if busy : bool then mret tt else
  setIsBusy true;;
  previouslyActiveBatchId ← gets activeBatchId;
  recordingNow ← gets isMainRecording;
  capturedBlob ←
    ((if recordingNow && truthyId previouslyActiveBatchId
        && negb (bool_decide (previouslyActiveBatchId = Some (id batch)))
     then recorderStopped;; mret stopped
     else mret None) : M State (option Blob));
  recorderStarted started;;
  setActiveBatchId (Some (id batch));;
  setBatches (fun prevBatches =>
    let newBatches :=
      match capturedBlob, previouslyActiveBatchId with
      | Some blob, Some (c :: p) =>
          List.map (fun b => if id_eqb (id b) (c :: p)
                             then withCapture blob paused b else b) prevBatches
      | _, _ => prevBatches
      end in
    List.map (fun b => if id_eqb (id b) (id batch) then withStatus recording b else b)
             newBatches);;
  setIsBusy false.

(** [handlePause] / [handleStop]: they differ in the status they set. *)
Definition stopInto (target : BatchStatus) (batch : Batch) (blob : Blob) : M State unit :=
  busy ← gets isBusy;
  recordingNow ← gets isMainRecording;
  active ← gets activeBatchId;
  if busy || negb recordingNow || negb (bool_decide (active = Some (id batch)))
  then mret tt
  else
    setIsBusy true;;
    recorderStopped;;
    setActiveBatchId None;;
    setBatches (List.map (fun b => if id_eqb (id b) (id batch)
                                   then withCapture blob target b else b));;
    setIsBusy false.

Definition handlePause := stopInto paused.
Definition handleStop := stopInto complete.

(** The first conversation entry of a batch. *)
Definition greet (fs : jsarray) (aiGreeting : jsstring) : list ChatMessage :=
  [mkMessage AI (arr_join (str (String "010" (String "010" EmptyString))) fs
                 ++ str (String "010" (String "010" EmptyString)) ++ aiGreeting)].

(** The filter of [handleProcessAll]:
    [(status === 'complete' || status === 'paused') && audioBlobs.length > 0 && !findings] *)
Definition processable (b : Batch) : bool :=
  (status_eqb (status b) complete || status_eqb (status b) paused)
  && (0 <? length (audioBlobs b))
  && match findings b with None => true | Some _ => false end.

Definition batchesToProcess (bs : list Batch) : list Batch := List.filter processable bs.

(** [prev.map(b => batchesToProcess.find(p => p.id === b.id) ? {...b, status: 'processing'} : b)] *)
Definition markProcessing (toProcess prev : list Batch) : list Batch :=
  List.map (fun b =>
    match List.find (fun p => id_eqb (id p) (id b)) toProcess with
    | Some _ => withStatus processing b
    | None => b
    end) prev.

(** [{ ...b, status: 'complete', findings, chat, chatHistory, isChatting: false }] *)
Definition withTranscript (fs : list jsstring) (chatSession : Chat)
    (history : list ChatMessage) (b : Batch) : Batch :=
  mkBatch (id b) (name b) (audioBlobs b) (Some (dense fs)) complete (selectedModel b)
          (error_ b) (Some chatSession) (Some history) (Some false).

(** [{ ...b, status: 'error', error: errorMessage }] *)
Definition withError (message : jsstring) (b : Batch) : Batch :=
  mkBatch (id b) (name b) (audioBlobs b) (findings b) error (selectedModel b)
          (Some message) (chat b) (chatHistory b) (isChatting b).

Definition reviewGreeting : jsstring :=
  str "I have reviewed the audio and transcript for this dictation. How can I help you further?".

(** One of the tasks fanned out by [handleProcessAll], for the batch [batch]
    captured when the handler started. *)
Definition processOne (model : jsstring) (batch : Batch)
    (transcription : result (list jsstring)) (session : result Chat) : M State unit :=
  match audioBlobs batch with
  | [] => mret tt
  | first :: _ =>
      try_catch
        (let mergedBlob := newBlob (audioBlobs batch) (blob_type first) in
         fs ← call (ProcessAudio mergedBlob model) transcription;
         chatSession ← call (CreateChat mergedBlob (dense fs) model) session;
         setBatches (List.map (fun b =>
           if id_eqb (id b) (id batch)
           then withTranscript fs chatSession (greet (dense fs) reviewGreeting) b
           else b)))
        (fun err =>
           let errorMessage := messageOr (str "An unknown error occurred.") err in
           setBatches (List.map (fun b =>
             if id_eqb (id b) (id batch) then withError errorMessage b else b)))
  end.

(** What a completed task of [handleProcessAll] makes of the batch it
    targets: the [then] or the [catch] update, by the answers of the clients. *)
Definition settle (transcription : result (list jsstring)) (session : result Chat)
    (b : Batch) : Batch :=
  match transcription, session with
  | Ok fs, Ok chatSession => withTranscript fs chatSession (greet (dense fs) reviewGreeting) b
  | Throw err, _ | Ok _, Throw err =>
      withError (messageOr (str "An unknown error occurred.") err) b
  end.

Fixpoint forEach {A} (f : A -> M State unit) (l : list A) : M State unit :=
  match l with
  | [] => mret tt
  | x :: rest => f x;; forEach f rest
  end.

(** [handleProcessAll].  [model] is the [selectedModel] prop, [answers]
    gives the answers of the two clients for each batch, and [schedule] is
    the order in which the concurrent tasks complete: each task updates the
    registry once, when it completes. *)
Definition handleProcessAll (model : jsstring)
    (answers : Batch -> result (list jsstring) * result Chat)
    (schedule : list Batch -> list Batch) : M State unit :=
  current ← gets batches;
  match batchesToProcess current with
  | [] => mret tt
  | toProcess =>
      setBatches (markProcessing toProcess);;
      forEach (fun batch => processOne model batch (fst (answers batch)) (snd (answers batch)))
              (schedule toProcess)
  end.

(** [handleReprocessBatch] *)
Definition handleReprocessBatch (batchId : jsstring)
    (transcription : result (list jsstring)) (session : result Chat) : M State unit :=
  current ← gets batches;
  match findBatch batchId current with
  | None => mret tt
  | Some batch =>
      match audioBlobs batch with
      | [] => mret tt
      | first :: _ =>
          setBatches (List.map (fun b =>
            if id_eqb (id b) batchId
            then mkBatch (id b) (name b) (audioBlobs b) (findings b) processing
                         (selectedModel b) None (chat b) (chatHistory b) (isChatting b)
            else b));;
          try_catch
            (let mergedBlob := newBlob (audioBlobs batch) (blob_type first) in
             fs ← call (ProcessAudio mergedBlob (selectedModel batch)) transcription;
             chatSession ← call (CreateChat mergedBlob (dense fs) (selectedModel batch)) session;
             setBatches (List.map (fun b =>
               if id_eqb (id b) batchId
               then withTranscript fs chatSession (greet (dense fs) reviewGreeting) b
               else b)))
            (fun err =>
               let errorMessage := messageOr (str "An unknown error occurred.") err in
               setBatches (List.map (fun b =>
                 if id_eqb (id b) batchId
                 then mkBatch (id b) (name b) (audioBlobs b) None error (selectedModel b)
                              (Some errorMessage) (chat b) (chatHistory b) (isChatting b)
                 else b)))
      end
  end.

(** [handleUpdateFindingForBatch] *)
Definition handleUpdateFindingForBatch (batchId : jsstring) (findingIndex : nat)
    (newText : jsstring) : M State unit :=
  setBatches (List.map (fun b =>
    match findings b with
    | Some fs =>
        if id_eqb (id b) batchId
        then mkBatch (id b) (name b) (audioBlobs b) (Some (arr_set fs findingIndex newText))
                     (status b) (selectedModel b) (error_ b) (chat b) (chatHistory b)
                     (isChatting b)
        else b
    | None => b
    end)).

(** [copyBatchSelection]: [None] when the handler returns before copying
    (no such batch, or no findings). *)
Definition copyBatchSelection (bs : list Batch)
    (selectionSnippets : gmap (list N) (gmap nat jsstring))
    (batchId : jsstring) (selection : list nat) : option CopyOutcome :=
  match findBatch batchId bs with
  | Some batch =>
      match findings batch with
      | Some fs =>
          Some (copyIndices (arr_get fs) (default ∅ (selectionSnippets !! batchId)) selection)
      | None => None
      end
  | None => None
  end.

(** [batch && batch.findings && audioBlob && audioBlob.size > 0] *)
Definition target (bs : list Batch) (batchId : jsstring) (captured : option Blob)
  : option (jsarray * Blob) :=
  match findBatch batchId bs, usable captured with
  | Some batch, Some audio =>
      match findings batch with
      | Some fs => Some (fs, audio)
      | None => None
      end
  | _, _ => None
  end.

(** [handleStopDictation] of BatchProcessor (per-finding append). *)
Definition handleStopDictation (captured : option Blob)
    (continuation : result jsstring) : M State unit :=
  dictating ← gets dictatingState;
  match dictating with
  | None => mret tt
  | Some (batchId, index) =>
      setDictatingState None;;
      current ← gets batches;
      match target current batchId captured with
      | Some (fs, audio) =>
          setProcessingState (Some (batchId, index));;
          try_finally
            (try_catch
               (let existing := arr_get fs index in
                newText ← call (ContinueAudioDictation existing audio) continuation;
                match existing with
                | None => throw TypeError_undefined
                | Some existingText =>
                    handleUpdateFindingForBatch batchId index (appendText existingText newText)
                end)
               (fun err =>
                  setContinuationError
                    (Some (batchId, index, messageOr (str "An unknown error occurred.") err))))
            (setProcessingState None)
      | None => mret tt
      end
  end.

(** [handleStopDictateEditForBatch] (per-finding modify). *)
Definition handleStopDictateEditForBatch (captured : option Blob)
    (modification : result jsstring) : M State unit :=
  editing ← gets dictateEditingState;
  match editing with
  | None => mret tt
  | Some (batchId, index) =>
      setDictateEditingState None;;
      current ← gets batches;
      match target current batchId captured with
      | Some (fs, audio) =>
          setProcessingState (Some (batchId, index));;
          try_finally
            (try_catch
               (newText ← call (ModifyFindingWithAudio (arr_get fs index) audio) modification;
                handleUpdateFindingForBatch batchId index newText)
               (fun err =>
                  setContinuationError
                    (Some (batchId, index, messageOr (str "An unknown error occurred.") err))))
            (setProcessingState None)
      | None => mret tt
      end
  end.

(** The [try] block of [handleStopContinue] and its [catch], for the batch
    [batch] found in the registry, with findings [fs]. *)
Definition continueWith (batchId : jsstring) (batch : Batch) (fs : jsarray)
    (newAudioBlob : Blob) (transcription : result (list jsstring))
    (session : result Chat) : M State unit :=
  try_catch
    (newFindings ← call (ProcessAudio newAudioBlob (selectedModel batch)) transcription;
     let updatedFindings := fs ++ dense newFindings in
     let updatedAudioBlobs := audioBlobs batch ++ [newAudioBlob] in
     let mimeType := blob_type (hd newAudioBlob updatedAudioBlobs) in
     let mergedBlob := newBlob updatedAudioBlobs mimeType in
     chatSession ← call (CreateChat mergedBlob updatedFindings (selectedModel batch)) session;
     let updatedChatHistory := greet updatedFindings
       (str "I have updated the transcript with your new dictation. How can I help you further?") in
     setBatches (List.map (fun b =>
       if id_eqb (id b) batchId
       then mkBatch (id b) (name b) updatedAudioBlobs (Some updatedFindings)
                    (status b) (selectedModel b) (error_ b) (Some chatSession)
                    (Some updatedChatHistory) (isChatting b)
       else b));;
     setContinuationState (mkContinuation None CIdle None))
    (fun err =>
       setContinuationState
         (mkContinuation (Some batchId) CIdle
            (Some (messageOr (str "An unknown error occurred.") err)))).

(** [handleStopContinue] of BatchProcessor (continue dictation). *)
Definition handleStopContinue (captured : option Blob)
    (transcription : result (list jsstring)) (session : result Chat) : M State unit :=
  continuing ← gets (fun s => cont_batchId (continuationState s));
  match continuing with
  | Some (c :: p) =>
      let batchId := c :: p in
      match usable captured with
      | Some newAudioBlob =>
          setContinuationState (mkContinuation (Some batchId) CProcessing None);;
          current ← gets batches;
          match findBatch batchId current with
          | Some batch =>
              match findings batch with
              | Some fs => continueWith batchId batch fs newAudioBlob transcription session
              | None =>
                  setContinuationState
                    (mkContinuation (Some batchId) CIdle (Some (str "Original batch not found.")))
              end
          | None =>
              setContinuationState
                (mkContinuation (Some batchId) CIdle (Some (str "Original batch not found.")))
          end
      | None => setContinuationState (mkContinuation None CIdle None)
      end
  | _ => mret tt
  end.

(** One batch of the load effect: the audio is decoded, and the chat session
    of a processed batch is recreated, a failure being only logged. *)
Definition restoreOne (session : SavedBatch -> result Chat) (savedBatch : SavedBatch)
  : M State Batch :=
  let blobs := List.map (fun sa => base64ToBlob (saved_data sa) (saved_type sa))
                        (saved_audioBlobs savedBatch) in
  restoredChat ←
    (match saved_status savedBatch, saved_findings savedBatch, blobs with
     | complete, Some fs, first :: _ =>
         try_catch
           (let mergedBlob := newBlob blobs (orString (Some (blob_type first)) (str "audio/webm")) in
            chatSession ← call (CreateChat mergedBlob fs (saved_selectedModel savedBatch))
                            (session savedBatch);
            mret (Some chatSession))
           (fun _ => mret None)
     | _, _, _ => mret None
     end : M State (option Chat));
  mret (mkBatch (saved_id savedBatch) (saved_name savedBatch) blobs
                (saved_findings savedBatch) (saved_status savedBatch)
                (saved_selectedModel savedBatch) (saved_error savedBatch) restoredChat
                (saved_chatHistory savedBatch) (saved_isChatting savedBatch)).

Fixpoint restoreAll (session : SavedBatch -> result Chat) (saved : list SavedBatch)
  : M State (list Batch) :=
  match saved with
  | [] => mret []
  | sb :: rest =>
      b ← restoreOne session sb;
      bs ← restoreAll session rest;
      mret (b :: bs)
  end.

(** The load effect of [BatchProcessor]. *)
Definition loadState (session : SavedBatch -> result Chat) : M State unit :=
  try_catch
    (item ← gets (fun s => localStorage s !! BATCH_MODE_STORAGE_KEY);
     match item with
     | None => mret tt
     | Some Malformed => throw (ErrorObj (str "Unexpected token"))
     | Some (Parsed savedBatches) =>
         restoredBatches ← restoreAll session savedBatches;
         match restoredBatches with
         | [] => mret tt
         | _ :: _ => setBatches (fun _ => restoredBatches)
         end
     end)
    (fun _ => removeItem BATCH_MODE_STORAGE_KEY).

(** The state of a freshly mounted [BatchProcessor] over a given storage:
    no batch, nothing active, the recorder idle. *)
Definition initial (storage : gmap (list N) (Item (list SavedBatch))) : State :=
  mkState [] None false false (mkContinuation None CIdle None) None None None None storage.

(** What the save effect writes for a batch. *)
Definition persisted (b : Batch) : SavedBatch :=
  mkSavedBatch (id b) (name b)
    (List.map (fun blob => mkSavedAudio (blobToBase64 blob) (getCleanMimeType blob))
              (audioBlobs b))
    (findings b) (status b) (selectedModel b) (error_ b) (chatHistory b) (isChatting b).

(** The save effect, run after every change of [batches]. *)
Definition saveState : M State unit :=
  modify (fun s => mkState (batches s) (activeBatchId s) (isBusy s) (isMainRecording s)
    (continuationState s) (dictatingState s) (dictateEditingState s) (processingState s)
    (continuationError s)
    (match batches s with
     | [] => delete BATCH_MODE_STORAGE_KEY (localStorage s)
     | bs => <[BATCH_MODE_STORAGE_KEY := Parsed (List.map persisted bs)]> (localStorage s)
     end)).

(** [addBatch]; [uuid] is the answer of [crypto.randomUUID()], [model] the
    [selectedModel] prop. *)
Definition addBatch (uuid model : jsstring) : M State unit :=
  current ← gets batches;
  let newBatch :=
    mkBatch uuid
      (str "Dictation #" ++ str (NilEmpty.string_of_uint (Nat.to_uint (length current + 1))))
      [] None idle model None None None (Some false) in
  setBatches (fun prev => prev ++ [newBatch]).

End Batch.


(* ===================================================================== *)
(** ** Further functions of the sources *)
(* ===================================================================== *)

(** The base64 text of a byte sequence without its padding signs: what
    [atob] decodes once it has dropped the padding. *)
Fixpoint b64_encode_unpadded (bytes : list N) : jsstring :=
  match bytes with
  | a :: b :: c :: rest =>
      b64_char (a / 4) :: b64_char ((a mod 4) * 16 + b / 16)
      :: b64_char ((b mod 16) * 4 + c / 64) :: b64_char (c mod 64)
      :: b64_encode_unpadded rest
  | [a; b] => [b64_char (a / 4); b64_char ((a mod 4) * 16 + b / 16); b64_char ((b mod 16) * 4)]
  | [a] => [b64_char (a / 4); b64_char ((a mod 4) * 16)]
  | [] => []
  end.

(** ResultsDisplay (src/unnamed/part_000): the editor and the copy buttons. *)
Module ResultsDisplay.

(** [handleStartEdit]: the text put in the editor,
    [isStructured ? [title, ...points].join('\n') : findings[index]]. *)
Definition textForEditing (finding : jsstring) : jsstring :=
  let p := parseStructuredFinding finding in
  if isStructured p then join NL (title p :: points p) else finding.

(** [handleCopyAll]: what is handed to [copyToClipboard]; [None] when the
    list is empty and the handler returns at once. *)
Definition handleCopyAll (fs : list jsstring) : option (jsstring * jsstring) :=
  match fs with
  | [] => None
  | _ :: _ =>
      Some (join NL (List.map renderPlain fs), concat (List.map renderHtml fs))
  end.

(** [handleFindingClick] outside multi-select mode: the single-copy texts;
    a finding that reads [undefined] makes [parseStructuredFinding] throw. *)
Definition handleFindingClick (fs : list jsstring) (index : nat)
  : result (jsstring * jsstring) :=
  match fs !! index with
  | Some findingToCopy => Ok (renderPlain findingToCopy, renderHtml findingToCopy)
  | None => Throw TypeError_undefined
  end.

(** [handleDownload]: the extension of the downloaded audio file,
    [type === 'audio/mpeg' ? 'mp3' : (type.split('/')[1] || 'webm').split(';')[0]]. *)
Definition downloadExtension (b : Blob) : jsstring :=
  if bool_decide (blob_type b = str "audio/mpeg") then str "mp3"
  else hd [] (split (str ";")
                (orString (split (str "/") (blob_type b) !! 1) (str "webm"))).

End ResultsDisplay.

(** The standalone report (src/services/htmlGenerator.ts). *)
Module HtmlGenerator.

(** [getFindingParts] of the embedded script and the same split in
    [renderFindingsList]: structured as soon as there is a delimiter. *)
Definition getFindingParts (rawFinding : jsstring) : list jsstring * bool :=
  let parts := split SEP rawFinding in
  (parts, 1 <? length parts).

(** The plain text the report copies for one finding ([copyBatchSelection]
    of the embedded script). *)
Definition plainText (rawFinding : jsstring) : jsstring :=
  let '(parts, isStructured) := getFindingParts rawFinding in
  if isStructured then join NL parts else hd [] parts.

End HtmlGenerator.

(** An awaited answer that is not one of the logged client calls (the reply
    of [chat.sendMessage]): it is returned or thrown. *)
Definition await {S A} (answer : result A) : M S A := fun s log => (answer, s, log).

(** The text of a chat message: a string, or an audio blob. *)
Inductive Message : Type :=
| TextMessage (text : jsstring)
| AudioMessage (audio : Blob).

(** [typeof message === 'string' ? message : '[Audio Message]'] *)
Definition userMessageText (message : Message) : jsstring :=
  match message with
  | TextMessage text => text
  | AudioMessage _ => str "[Audio Message]"
  end.

(** The entry shown when the chat call failed. *)
Definition apology (err : exn) : ChatMessage :=
  mkMessage AI (str "Sorry, I encountered an error: "
                ++ messageOr (str "An unknown error occurred.") err).

(** Further functions of App.tsx: the save effect, the chat and the reset. *)
Module App.
Import Single.

(** The component state with the [isChatting] flag. *)
Record Session : Type := mkSession {
  world : World;
  isChatting : bool
}.

Definition lift {A} (m : M World A) : M Session A :=
  fun s log =>
    match m (world s) log with
    | (r, w, log') => (r, mkSession w (isChatting s), log')
    end.

Definition setIsChatting (v : bool) : M Session unit :=
  modify (fun s => mkSession (world s) v).

(** [setChatHistory(prev => [...prev, entry])] *)
Definition pushMessage (entry : ChatMessage) : M World unit :=
  modify (on_app (fun a => mkApp (status a) (findings a) (error a) (audioBlob a) (chat a)
                                 (chatHistory a ++ [entry]) (selectedModel a))).

(** The snapshot the save effect writes. *)
Definition snapshot (a : AppState) (blob : Blob) : SavedState :=
  mkSaved (Some (findings a))
          (Some (mkSavedAudio (blobToBase64 blob) (getCleanMimeType blob)))
          (Some (chatHistory a)) (Some (selectedModel a)).

(** The save effect of [App], run after every change of the session.
    [stored] is [false] when reading the blob or [localStorage.setItem]
    throws, which is only logged. *)
Definition saveState (stored : bool) : M World unit :=
  a ← gets app;
  match status a, findings a, audioBlob a with
  | Success, _ :: _, Some blob =>
      if stored
      then modify (fun w => mkWorld (app w) (view w)
                     (<[SINGLE_MODE_STORAGE_KEY := Parsed (snapshot a blob)]> (localStorage w)))
      else mret tt
  | _, _, _ => mret tt
  end.

(** [handleSendMessage]; [reply] is the text of the answer of
    [chat.sendMessage], or what it threw. *)
Definition handleSendMessage (message : Message) (reply : result jsstring)
  : M Session unit :=
  session ← gets (fun s => chat (app (world s)));
  busy ← gets isChatting;
  match session with
  | None => mret tt
  | Some _ =>
      if busy : bool then mret tt else
      setIsChatting true;;
      lift (pushMessage (mkMessage You (userMessageText message)));;
      try_finally
        (try_catch
           (responseText ← await reply;
            lift (pushMessage (mkMessage AI responseText)))
           (fun err => lift (pushMessage (apology err))))
        (setIsChatting false)
  end.

(** [resetSingleMode] *)
Definition resetSingleMode : M Session unit :=
  lift (setStatus Idle;; setFindings [];; setError None;; setAudioBlob None;;
        setChat None;; setChatHistory []);;
  setIsChatting false;;
  lift (removeItem SINGLE_MODE_STORAGE_KEY).

End App.

(** Further handlers of BatchProcessor.tsx. *)
Module BatchProcessor.
Import Batch.

(** [removeBatch]; [confirmed] is the answer of [window.confirm]. *)
Definition removeBatch (batchId : jsstring) (confirmed : bool) : M State unit :=
  recordingNow ← gets isMainRecording;
  if recordingNow : bool then mret tt
  else if confirmed
       then setBatches (List.filter (fun b => negb (id_eqb (id b) batchId)))
       else mret tt.

(** [clearAllBatches] *)
Definition clearAllBatches (confirmed : bool) : M State unit :=
  recordingNow ← gets isMainRecording;
  current ← gets batches;
  if recordingNow : bool then mret tt
  else if (0 <? length current) && confirmed
       then setBatches (fun _ => [])
       else mret tt.

(** [updateBatchName] and [updateBatchModel] *)
Definition updateBatchName (batchId newName : jsstring) : M State unit :=
  setBatches (List.map (fun b =>
    if id_eqb (id b) batchId
    then mkBatch (id b) newName (audioBlobs b) (findings b) (status b) (selectedModel b)
                 (error_ b) (chat b) (chatHistory b) (isChatting b)
    else b)).

Definition updateBatchModel (batchId model : jsstring) : M State unit :=
  setBatches (List.map (fun b =>
    if id_eqb (id b) batchId
    then mkBatch (id b) (name b) (audioBlobs b) (findings b) (status b) model
                 (error_ b) (chat b) (chatHistory b) (isChatting b)
    else b)).

(** [handleFileSelect]: [file] is the first selected file, if any, and
    [uploadTargetBatchId] the target set by [triggerUpload]. *)
Definition handleFileSelect (file : option Blob) (uploadTargetBatchId : option jsstring)
  : M State unit :=
  match file, uploadTargetBatchId with
  | Some f, Some (c :: p) =>
      setBatches (List.map (fun b =>
        if id_eqb (id b) (c :: p)
        then mkBatch (id b) (name b) [f] None complete (selectedModel b)
                     None (chat b) (chatHistory b) (isChatting b)
        else b))
  | _, _ => mret tt
  end.

(** [{ ...b, chatHistory }] and [{ ...b, isChatting }] on the batch [batchId]. *)
Definition withHistory (batchId : jsstring) (history : list ChatMessage)
    (chatting : option bool) : list Batch -> list Batch :=
  List.map (fun b =>
    if id_eqb (id b) batchId
    then mkBatch (id b) (name b) (audioBlobs b) (findings b) (status b) (selectedModel b)
                 (error_ b) (chat b) (Some history)
                 (match chatting with Some v => Some v | None => isChatting b end)
    else b).

Definition withChatting (batchId : jsstring) (v : bool) : list Batch -> list Batch :=
  List.map (fun b =>
    if id_eqb (id b) batchId
    then mkBatch (id b) (name b) (audioBlobs b) (findings b) (status b) (selectedModel b)
                 (error_ b) (chat b) (chatHistory b) (Some v)
    else b).

(** [handleSendMessage] of a batch; [reply] as in single mode. *)
Definition handleSendMessage (batchId : jsstring) (message : Message)
    (reply : result jsstring) : M State unit :=
  current ← gets batches;
  match findBatch batchId current with
  | None => mret tt
  | Some batch =>
      match chat batch, isChatting batch with
      | None, _ | Some _, Some true => mret tt
      | Some _, _ =>
          let updatedHistory :=
            default [] (chatHistory batch) ++ [mkMessage You (userMessageText message)] in
          setBatches (withHistory batchId updatedHistory (Some true));;
          try_finally
            (try_catch
               (responseText ← await reply;
                setBatches (withHistory batchId
                              (updatedHistory ++ [mkMessage AI responseText]) None))
               (fun err =>
                  setBatches (withHistory batchId (updatedHistory ++ [apology err]) None)))
            (setBatches (withChatting batchId false))
      end
  end.

End BatchProcessor.

(** The registry of [BatchProcessor] as a transition system: the handlers
    that touch the registry or the recorder, each with its inputs, run one
    at a time. *)
Module Registry.
Import Batch.

(** [handleStartDictation], [handleStartDictateEditForBatch] and
    [handleStartContinue], on the component state. *)
Definition handleStartDictation (batchId : jsstring) (index : nat) : M State unit :=
  setProcessingState None;;
  setContinuationError None;;
  setDictateEditingState None;;
  setDictatingState (Some (batchId, index)).

Definition handleStartDictateEditForBatch (batchId : jsstring) (index : nat)
  : M State unit :=
  setProcessingState None;;
  setContinuationError None;;
  setDictatingState None;;
  setDictateEditingState (Some (batchId, index)).

Definition handleStartContinue (batchId : jsstring) : M State unit :=
  setContinuationState (mkContinuation (Some batchId) CRecording None).

(** [handleSaveEdit] of BatchProcessor, for the edit [editingState] with
    draft [editingText]. *)
Definition handleSaveEdit (editingState : option (jsstring * nat))
    (editingText : jsstring) : M State unit :=
  match editingState with
  | Some (batchId, index) =>
      current ← gets batches;
      match findBatch batchId current with
      | Some batch =>
          match findings batch with
          | Some fs =>
              match arr_get fs index with
              | Some originalFinding =>
                  handleUpdateFindingForBatch batchId index
                    (savedText originalFinding editingText)
              | None => throw TypeError_undefined
              end
          | None => mret tt
          end
      | None => mret tt
      end
  | None => mret tt
  end.

Inductive Action : Type :=
| AddBatch (uuid model : jsstring)
| RemoveBatch (batchId : jsstring) (confirmed : bool)
| ClearAllBatches (confirmed : bool)
| UpdateBatchName (batchId newName : jsstring)
| UpdateBatchModel (batchId model : jsstring)
| RecordOrResume (batch : Batch) (stopped : option Blob) (started : bool)
| Pause (batch : Batch) (blob : Blob)
| Stop (batch : Batch) (blob : Blob)
| FileSelect (file : option Blob) (uploadTargetBatchId : option jsstring)
| ProcessAll (model : jsstring)
    (answers : Batch -> result (list jsstring) * result Chat)
    (schedule : list Batch -> list Batch)
| ReprocessBatch (batchId : jsstring)
    (transcription : result (list jsstring)) (session : result Chat)
| UpdateFinding (batchId : jsstring) (findingIndex : nat) (newText : jsstring)
| SaveEdit (editingState : option (jsstring * nat)) (editingText : jsstring)
| SendMessage (batchId : jsstring) (message : Message) (reply : result jsstring)
| StartDictation (batchId : jsstring) (index : nat)
| StopDictation (captured : option Blob) (continuation : result jsstring)
| StartDictateEdit (batchId : jsstring) (index : nat)
| StopDictateEdit (captured : option Blob) (modification : result jsstring)
| StartContinue (batchId : jsstring)
| StopContinue (captured : option Blob)
    (transcription : result (list jsstring)) (session : result Chat).

Definition step (a : Action) : M State unit :=
  match a with
  | AddBatch uuid model => addBatch uuid model
  | RemoveBatch batchId confirmed => BatchProcessor.removeBatch batchId confirmed
  | ClearAllBatches confirmed => BatchProcessor.clearAllBatches confirmed
  | UpdateBatchName batchId newName => BatchProcessor.updateBatchName batchId newName
  | UpdateBatchModel batchId model => BatchProcessor.updateBatchModel batchId model
  | RecordOrResume batch stopped started => handleRecordOrResume batch stopped started
  | Pause batch blob => handlePause batch blob
  | Stop batch blob => handleStop batch blob
  | FileSelect file uploadTargetBatchId =>
      BatchProcessor.handleFileSelect file uploadTargetBatchId
  | ProcessAll model answers schedule => handleProcessAll model answers schedule
  | ReprocessBatch batchId transcription session =>
      handleReprocessBatch batchId transcription session
  | UpdateFinding batchId findingIndex newText =>
      handleUpdateFindingForBatch batchId findingIndex newText
  | SaveEdit editingState editingText => handleSaveEdit editingState editingText
  | SendMessage batchId message reply =>
      BatchProcessor.handleSendMessage batchId message reply
  | StartDictation batchId index => handleStartDictation batchId index
  | StopDictation captured continuation => handleStopDictation captured continuation
  | StartDictateEdit batchId index => handleStartDictateEditForBatch batchId index
  | StopDictateEdit captured modification =>
      handleStopDictateEditForBatch captured modification
  | StartContinue batchId => handleStartContinue batchId
  | StopContinue captured transcription session =>
      handleStopContinue captured transcription session
  end.

(** What the environment is assumed to do: [crypto.randomUUID] answers a
    fresh, non-empty identifier, and the main recorder starts when asked
    and delivers what it captured when stopped. *)
Definition admissible (s : State) (a : Action) : Prop :=
  match a with
  | AddBatch uuid _ => uuid <> [] /\ ~ In uuid (List.map id (batches s))
  | RecordOrResume _ stopped started => started = true /\ stopped <> None
  | _ => True
  end.

(** The states reached from a freshly mounted component whose storage holds
    no snapshot to restore. *)
Inductive reachable : State -> Prop :=
| reachable_initial storage : reachable (initial storage)
| reachable_step s a log :
    reachable s -> admissible s a -> reachable (stateOf (step a s log)).

(** A registry update that keeps the identifiers, in order, and makes no
    batch a recording one. *)
Definition tame (bs bs' : list Batch) : Prop :=
  Forall2 (fun b b' => id b' = id b /\ (status b' = recording -> status b = recording))
          bs bs'.

(** A transition that leaves the recorder alone. *)
Definition calm (s s' : State) : Prop :=
  isBusy s' = isBusy s /\ isMainRecording s' = isMainRecording s
  /\ activeBatchId s' = activeBatchId s /\ tame (batches s) (batches s').

Definition calmly {A} (m : M State A) : Prop :=
  forall s log, calm s (stateOf (m s log)).

Definition invariant (s : State) : Prop :=
  isBusy s = false
  /\ List.NoDup (List.map id (batches s))
  /\ Forall (fun b => id b <> []) (batches s)
  /\ Forall (fun b => status b = recording ->
                      isMainRecording s = true /\ activeBatchId s = Some (id b))
            (batches s).

End Registry.

(** The text clients of geminiService, [continueAudioDictation] and
    [modifyFindingWithAudio], as functions of what their two awaited
    operations answer: [read] is the outcome of [blobToBase64], awaited
    before the [try]; [response] is the text of the response of
    [generateContent], which may be missing, or what the call threw. *)
Module GeminiService.

Definition textClient (emptyMessage failurePrefix unknownMessage : jsstring)
    (read : result jsstring) (response : result (option jsstring)) : result jsstring :=
  match read with
  | Throw e => Throw e
  | Ok _ =>
      let attempt :=
        match response with
        | Ok text =>
            match option_map trim text with
            | Some (c :: resultText) => Ok (c :: resultText)
            | _ => Throw (ErrorObj emptyMessage)
            end
        | Throw e => Throw e
        end in
      match attempt with
      | Ok resultText => Ok resultText
      | Throw (ErrorObj message) => Throw (ErrorObj (failurePrefix ++ message))
      | Throw NonError => Throw (ErrorObj unknownMessage)
      end
  end.

Definition continueAudioDictation : result jsstring -> result (option jsstring)
                                    -> result jsstring :=
  textClient
    (str "API returned an empty response for audio continuation.")
    (str "Failed to process audio continuation: ")
    (str "An unknown error occurred while communicating with the API for audio continuation.").

Definition modifyFindingWithAudio : result jsstring -> result (option jsstring)
                                    -> result jsstring :=
  textClient
    (str "API returned an empty response for finding modification.")
    (str "Failed to process finding modification: ")
    (str "An unknown error occurred while communicating with the API for finding modification.").

End GeminiService.

(** The multi-select state of [ResultsDisplay] and its toggle. *)
Module MultiSelect.

Record Selection : Type := mkSelection {
  multiSelectMode : bool;
  selectedIndices : list nat;
  selectionSnippets : gmap nat jsstring
}.

(** [set.has(index)] on the [Set] of selected indices, kept in insertion
    order. *)
Definition has (index : nat) (selected : list nat) : bool :=
  existsb (Nat.eqb index) selected.

(** [handleMultiSelectToggle].  [selectedText] is the trimmed text of the
    selection of the page and [selectedIndex] the index of the finding in
    which that selection starts, if it starts in one.  The result is the new
    state and what the call of [copySelection] at the end of the handler
    hands to the clipboard: that call reads the findings and the snippets of
    the render in which the handler was created. *)
Definition handleMultiSelectToggle (fs : list jsstring) (index : nat)
    (selectedText : jsstring) (selectedIndex : option nat) (v : Selection)
  : Selection * CopyOutcome :=
  let entered :=
    if multiSelectMode v then selectionSnippets v
    else match selectedText, selectedIndex with
         | _ :: _, Some i =>
             if (i =? index)%nat
             then <[index := selectedText]> (selectionSnippets v)
             else selectionSnippets v
         | _, _ => selectionSnippets v
         end in
  let newSelectedIndices :=
    if has index (selectedIndices v)
    then List.filter (fun i => negb (i =? index)%nat) (selectedIndices v)
    else selectedIndices v ++ [index] in
  let newSnippets :=
    if has index (selectedIndices v) then delete index entered else entered in
  (mkSelection true newSelectedIndices newSnippets,
   Single.copySelection fs (selectionSnippets v) newSelectedIndices).

End MultiSelect.

(** The client calls that the transcription of one batch makes: the
    transcription of its merged audio, then, when that succeeded, the
    creation of the chat over the same audio and the new findings. *)
Definition callsFor (model : jsstring)
    (answers : Batch.Batch -> result (list jsstring) * result Chat)
    (batch : Batch.Batch) : list Call :=
  match Batch.audioBlobs batch with
  | [] => []
  | first :: _ =>
      let mergedBlob := newBlob (Batch.audioBlobs batch) (blob_type first) in
      ProcessAudio mergedBlob model
      :: match fst (answers batch) with
         | Ok fs => [CreateChat mergedBlob (dense fs) model]
         | Throw _ => []
         end
  end.

(** Single mode as a transition system: the handlers of [App], of
    [AudioRecorder] and of [ResultsDisplay] that touch the session, each
    with its inputs, run one at a time from the mount of [App]. *)
Module SingleMode.
Import Single.

(** [handleStartDictation], [handleStartDictateEdit] and
    [handleStartContinue] of ResultsDisplay, on the view state. *)
Definition handleStartDictation (index : nat) : M World unit :=
  setDictateEditingIndex None;;
  setProcessingIndex None;;
  setContinuationError None;;
  setDictatingIndex (Some index).

Definition handleStartDictateEdit (index : nat) : M World unit :=
  setDictatingIndex None;;
  setProcessingIndex None;;
  setContinuationError None;;
  setDictateEditingIndex (Some index).

Definition handleStartContinue : M World unit :=
  setContinuationState (CRecording, None).

Inductive Action : Type :=
| RecorderStart
| RecordingComplete (audio : Blob)
    (transcription : result (list jsstring)) (session : result Chat)
| SelectModel (model : jsstring)
| Reprocess (transcription : result (list jsstring)) (session : result Chat)
| UpdateFinding (index : nat) (newText : jsstring)
| SaveEdit (editingIndex : nat) (editingText : jsstring)
| StartDictation (index : nat)
| StopDictation (captured : option Blob) (continuation : result jsstring)
| StartDictateEdit (index : nat)
| StopDictateEdit (captured : option Blob) (modification : result jsstring)
| StartContinue
| StopContinue (captured : option Blob)
    (transcription : result (list jsstring)) (session : result Chat)
| SendMessage (message : Message) (reply : result jsstring)
| Reset.

(** [RecorderStart] is [handleStart] of AudioRecorder, which sets the status
    to recording once the recorder has started; [RecordingComplete] is what
    its [handleStop] and [handleFileSelect] trigger. *)
Definition step (a : Action) : M App.Session unit :=
  match a with
  | RecorderStart => App.lift (setStatus Recording)
  | RecordingComplete audio transcription session =>
      App.lift (handleRecordingComplete audio transcription session)
  | SelectModel model => App.lift (setSelectedModel model)
  | Reprocess transcription session => App.lift (handleReprocess transcription session)
  | UpdateFinding index newText => App.lift (handleUpdateFinding index newText)
  | SaveEdit editingIndex editingText => App.lift (handleSaveEdit editingIndex editingText)
  | StartDictation index => App.lift (handleStartDictation index)
  | StopDictation captured continuation =>
      App.lift (handleStopDictation captured continuation)
  | StartDictateEdit index => App.lift (handleStartDictateEdit index)
  | StopDictateEdit captured modification =>
      App.lift (handleStopDictateEdit captured modification)
  | StartContinue => App.lift handleStartContinue
  | StopContinue captured transcription session =>
      App.lift (handleStopContinue captured transcription session)
  | SendMessage message reply => App.handleSendMessage message reply
  | Reset => App.resetSingleMode
  end.

(** The session once [App] is mounted over a storage: the load effect has
    run. *)
Definition mounted (storage : gmap (list N) (Item SavedState)) (session : result Chat)
  : App.Session :=
  App.mkSession (stateOf (loadState session (initial storage) [])) false.

Inductive reachable : App.Session -> Prop :=
| reachable_mounted storage session : reachable (mounted storage session)
| reachable_step s a log : reachable s -> reachable (stateOf (step a s log)).

(** A transition that keeps the status and the error message, and does not
    drop the stored audio. *)
Definition keep (w w' : World) : Prop :=
  status (app w') = status (app w)
  /\ error (app w') = error (app w)
  /\ (audioBlob (app w) <> None -> audioBlob (app w') <> None).

Definition keeping {A} (m : M World A) : Prop :=
  forall w log, keep w (stateOf (m w log)).

Definition invariant (w : World) : Prop :=
  status (app w) <> Processing
  /\ (status (app w) = Success -> audioBlob (app w) <> None /\ error (app w) = None).

End SingleMode.

(* ===================================================================== *)
(** * Properties *)
(* ===================================================================== *)

(** ** The model on small inputs *)

Example split_examples :
  split SEP (str "A###B###C") = [str "A"; str "B"; str "C"]
  /\ split SEP (str "###") = [[]; []]
  /\ split SEP [] = [[]]
  /\ split SEP (str "a#####b") = [str "a"; str "##b"]
  /\ split NL (str "one" ++ NL ++ NL ++ str "two") = [str "one"; []; str "two"].
Proof. repeat split; reflexivity. Qed.

Example trim_examples :
  trim (str "  a b ") = str "a b" /\ trim [TAB; NEWLINE] = [] /\ blank (str "   ") = true
  /\ blank (str " x ") = false /\ endsWith [SPACE] (str "a ") = true
  /\ endsWith [SPACE] [] = false.
Proof. repeat split; reflexivity. Qed.

Example parse_examples :
  parseStructuredFinding (str "A###B###C") = mkParsed true (str "A") [str "B"; str "C"]
  /\ parseStructuredFinding (str "D") = mkParsed false (str "D") []
  /\ parseStructuredFinding (str "###B") = mkParsed false (str "###B") []
  /\ parseStructuredFinding (str "A### ###C") = mkParsed true (str "A") [str "C"].
Proof. repeat split; reflexivity. Qed.

Example save_edit_examples :
  savedText (str "A###B") (str "A" ++ NL ++ NL ++ str "B2" ++ NL ++ str "C") = str "A###B2###C"
  /\ savedText (str "A###B") (str "only") = str "only"
  /\ savedText (str "plain") (str "x" ++ NL ++ str "y") = str "x" ++ NL ++ str "y".
Proof. repeat split; reflexivity. Qed.

Example base64_examples :
  atob (str "TWFu") = Some [77; 97; 110]%N
  /\ atob (str "TWE=") = Some [77; 97]%N
  /\ atob (str "TQ==") = Some [77]%N
  /\ atob (str "TQ") = Some [77]%N
  /\ atob (str "!!!") = None
  /\ atob (str "abcde") = None
  /\ blobToBase64 (mkBlob [77; 97; 110; 33]%N (str "audio/webm")) = str "TWFuIQ=="
  /\ atob (str "TWFuIQ==") = Some [77; 97; 110; 33]%N.
Proof. repeat split; reflexivity. Qed.

Example mime_examples :
  getCleanMimeType (mkBlob [] []) = str "audio/ogg"
  /\ getCleanMimeType (mkBlob [] (str "video/webm;codecs=vp8")) = str "audio/webm"
  /\ getCleanMimeType (mkBlob [] (str "audio/mp4;codecs=mp4a")) = str "audio/mp4".
Proof. repeat split; reflexivity. Qed.

Example array_examples :
  arr_set [Some (str "a"); Some (str "b")] 1 (str "x") = [Some (str "a"); Some (str "x")]
  /\ arr_set [Some (str "a")] 3 (str "x") = [Some (str "a"); None; None; Some (str "x")]
  /\ arr_get [Some (str "a"); None] 1 = None
  /\ arr_join (str ",") [Some (str "a"); None; Some (str "x")] = str "a,,x".
Proof. repeat split; reflexivity. Qed.

(** ** Strings: prefixes, occurrences and [split] *)

Section StringFacts.

Implicit Types (s p a b rest : jsstring) (c w : N).

Lemma startsWith_app p s : startsWith p (p ++ s) = true.
Proof.
  induction p as [|x p IH]; simpl; [reflexivity|].
  now rewrite N.eqb_refl.
Qed.

Lemma startsWith_length p s : startsWith p s = true -> length p <= length s.
Proof.
  revert s; induction p as [|x p IH]; intros [|y s]; simpl; try lia; try discriminate.
  intros H. apply andb_true_iff in H as [_ H]. apply IH in H. lia.
Qed.

Lemma startsWith_app_long p s x :
  length p <= length s -> startsWith p (s ++ x) = startsWith p s.
Proof.
  revert s; induction p as [|y p IH]; intros [|z s]; simpl; try reflexivity; try lia.
  intros H. rewrite IH by lia. reflexivity.
Qed.

Lemma includes_length p s : includes p s = true -> length p <= length s.
Proof.
  induction s as [|c s IH]; simpl.
  - rewrite orb_false_r. apply startsWith_length.
  - intros H. apply orb_true_iff in H as [H|H].
    + now apply startsWith_length in H.
    + apply IH in H. lia.
Qed.

Lemma includes_cons_false p c s :
  includes p (c :: s) = false -> startsWith p (c :: s) = false /\ includes p s = false.
Proof. simpl. intros H. now apply orb_false_iff in H. Qed.

Lemma endsWith_single c s :
  endsWith [c] s = match last s with Some d => N.eqb c d | None => false end.
Proof.
  unfold endsWith. destruct s as [|x s] using rev_ind; [reflexivity|].
  rewrite rev_app_distr, last_snoc. simpl. now rewrite andb_true_r.
Qed.

Lemma endsWith_single_cons c x y s :
  endsWith [c] (x :: y :: s) = endsWith [c] (y :: s).
Proof. rewrite !endsWith_single. reflexivity. Qed.

Lemma split_go_nonempty sep k s : split_go sep k s <> [].
Proof.
  revert k; induction s as [|c s IH]; intros k; simpl; [discriminate|].
  destruct k; [|apply IH].
  destruct (startsWith sep (c :: s)); [discriminate|].
  specialize (IH 0). destruct (split_go sep 0 s); [congruence|discriminate].
Qed.

Lemma push_front_length c (parts : list jsstring) :
  parts <> [] -> length (push_front c parts) = length parts.
Proof. destruct parts; [congruence|reflexivity]. Qed.

Lemma hd_push_front c (parts : list jsstring) :
  hd [] (push_front c parts) = c :: hd [] parts.
Proof. destruct parts; reflexivity. Qed.

(** A text without the separator is a single piece. *)
Lemma split_without sep s : includes sep s = false -> split sep s = [s].
Proof.
  unfold split. induction s as [|c s IH]; intros H; [reflexivity|].
  apply includes_cons_false in H as [H1 H2].
  cbn [split_go]. rewrite H1, (IH H2). reflexivity.
Qed.

(** A text with the separator has at least two pieces. *)
Lemma split_with sep s :
  sep <> [] -> includes sep s = true -> 1 < length (split sep s).
Proof.
  intros Hsep. unfold split. induction s as [|c s IH]; cbn [includes split_go].
  - rewrite orb_false_r. destruct sep; simpl; [congruence|discriminate].
  - destruct (startsWith sep (c :: s)) eqn:E; simpl orb.
    + intros _. cbn [length].
      pose proof (split_go_nonempty sep (length sep - 1) s).
      destruct (split_go sep (length sep - 1) s); [congruence|simpl; lia].
    + intros H. rewrite push_front_length by apply split_go_nonempty. now apply IH.
Qed.

(** The first piece is decided by the text up to the first separator. *)
Lemma hd_split_app sep s x :
  includes sep s = true -> hd [] (split sep (s ++ x)) = hd [] (split sep s).
Proof.
  unfold split. induction s as [|c s IH]; cbn [includes].
  - rewrite orb_false_r. destruct sep; [|discriminate].
    intros _. destruct x; reflexivity.
  - intros H. rewrite <- app_comm_cons. cbn [split_go].
    destruct (startsWith sep (c :: s)) eqn:E.
    + rewrite app_comm_cons, startsWith_app_long, E by now apply startsWith_length.
      reflexivity.
    + simpl in H. pose proof (includes_length _ _ H) as L.
      rewrite app_comm_cons, startsWith_app_long, E by (simpl; lia).
      rewrite !hd_push_front, IH by exact H. reflexivity.
Qed.

(** No occurrence of ['###'] starts inside a piece that has none and does
    not end in ['#'], however the text goes on. *)
Lemma SEP_not_inside a rest :
  a <> [] -> includes SEP a = false -> endsWith [HASH] a = false ->
  startsWith SEP (a ++ SEP ++ rest) = false.
Proof.
  intros Hne Hinc Hend.
  destruct a as [|c1 [|c2 [|c3 a]]]; [congruence| | |].
  - rewrite endsWith_single in Hend. simpl in *. now rewrite Hend.
  - rewrite endsWith_single in Hend. simpl in *. rewrite Hend.
    now rewrite andb_false_r.
  - apply includes_cons_false in Hinc as [H _]. simpl in *.
    now rewrite andb_true_r in *.
Qed.

Lemma split_app_SEP a rest :
  includes SEP a = false -> endsWith [HASH] a = false ->
  split SEP (a ++ SEP ++ rest) = a :: split SEP rest.
Proof.
  unfold split. induction a as [|c a IH]; intros Hinc Hend.
  - reflexivity.
  - pose proof (SEP_not_inside (c :: a) rest ltac:(discriminate) Hinc Hend) as Hs.
    rewrite <- app_comm_cons in *. cbn [split_go]. rewrite Hs.
    apply includes_cons_false in Hinc as [_ Hinc].
    rewrite IH; [reflexivity|exact Hinc|].
    destruct a as [|d a]; [reflexivity|]. now rewrite endsWith_single_cons in Hend.
Qed.

(** [split] undoes [join] on pieces that hold no separator and, the last
    one apart, do not end in ['#']. *)
Lemma split_join (segs : list jsstring) :
  segs <> [] ->
  Forall (fun s => includes SEP s = false) segs ->
  Forall (fun s => endsWith [HASH] s = false) (removelast segs) ->
  split SEP (join SEP segs) = segs.
Proof.
  induction segs as [|x [|y segs] IH]; intros Hne Hinc Hend; [congruence| |].
  - simpl. apply split_without. now inversion Hinc.
  - change (join SEP (x :: y :: segs)) with (x ++ SEP ++ join SEP (y :: segs)).
    change (removelast (x :: y :: segs)) with (x :: removelast (y :: segs)) in Hend.
    inversion Hinc; inversion Hend; subst.
    rewrite split_app_SEP by assumption.
    f_equal. now apply IH.
Qed.

Lemma filter_nonblank (segs : list jsstring) :
  Forall (fun s => blank s = false) segs ->
  List.filter (fun p => negb (blank p)) segs = segs.
Proof.
  induction 1 as [|x l Hx _ IH]; simpl; [reflexivity|].
  now rewrite Hx, IH.
Qed.

(** A code unit other than ['#'] separates the occurrences of ['###']. *)
Lemma includes_barrier a w b :
  w <> HASH -> includes SEP a = false -> includes SEP b = false ->
  includes SEP (a ++ w :: b) = false.
Proof.
  intros Hw Ha Hb.
  assert (Hw' : N.eqb HASH w = false) by (apply N.eqb_neq; congruence).
  unfold SEP in *.
  induction a as [|c a IH].
  - cbn [app includes startsWith]. now rewrite Hw', Hb.
  - apply includes_cons_false in Ha as [Hs Ha].
    rewrite <- app_comm_cons. cbn [includes]. rewrite (IH Ha), orb_false_r.
    destruct a as [|c2 [|c3 a]]; cbn [app startsWith] in *.
    + now rewrite Hw', andb_false_r.
    + now rewrite Hw', !andb_false_r.
    + now rewrite andb_true_r in *.
Qed.

End StringFacts.

(** ** Blank texts and the shape of parsed findings *)

Lemma trimStart_nil s : trimStart s = [] <-> forallb isWhiteSpace s = true.
Proof.
  induction s as [|c s IH]; simpl; [tauto|].
  destruct (isWhiteSpace c); simpl; [exact IH|].
  split; discriminate.
Qed.

Lemma trimStart_head s :
  trimStart s = [] \/ exists c rest, trimStart s = c :: rest /\ isWhiteSpace c = false.
Proof.
  induction s as [|c s IH]; simpl; [now left|].
  destruct (isWhiteSpace c) eqn:E; [exact IH|].
  right. now exists c, s.
Qed.

(** [s.trim() === ''] holds exactly of the texts made of white space. *)
Lemma blank_whitespace s : blank s = true -> forallb isWhiteSpace s = true.
Proof.
  unfold blank, trim, trimEnd. intros H.
  destruct (trimStart_head s) as [E|(c & rest & E & Hc)]; [now apply trimStart_nil|].
  rewrite E in H. exfalso.
  destruct (rev (trimStart (rev (c :: rest)))) eqn:R; [|discriminate].
  apply (f_equal (@rev N)) in R. rewrite rev_involutive in R. simpl in R.
  apply trimStart_nil in R. rewrite forallb_app in R. simpl in R.
  rewrite Hc in R. now rewrite andb_false_r in R.
Qed.

Lemma isStructured_parse f :
  isStructured (parseStructuredFinding f)
  = (1 <? length (split SEP f)) && negb (blank (hd [] (split SEP f))).
Proof.
  unfold parseStructuredFinding.
  now destruct ((1 <? length (split SEP f)) && negb (blank (hd [] (split SEP f)))).
Qed.

Lemma startsWith_app_l p s x : startsWith p s = true -> startsWith p (s ++ x) = true.
Proof.
  intros H. rewrite startsWith_app_long; [exact H|now apply startsWith_length].
Qed.

Lemma includes_app_l p a b : includes p (a ++ b) = false -> includes p a = false.
Proof.
  induction a as [|c a IH]; simpl.
  - intros H. rewrite orb_false_r.
    destruct p; [|reflexivity]. now destruct b.
  - intros H. apply orb_false_iff in H as [H1 H2].
    rewrite (IH H2), orb_false_r.
    destruct (startsWith p (c :: a)) eqn:E; [|reflexivity].
    apply (startsWith_app_l _ _ b) in E. simpl in E. congruence.
Qed.

(** The separator chosen by the per-finding append. *)
Lemma appendText_unfold existingText newText :
  appendText existingText newText
  = existingText
    ++ (if blank existingText || endsWith [SPACE] existingText then [] else [SPACE])
    ++ trim newText.
Proof.
  unfold appendText, blank.
  destruct (trim existingText); simpl; [reflexivity|].
  now destruct (endsWith [SPACE] existingText).
Qed.

(** Appending a text without ['###'] to a text without ['###'] produces no
    ['###']: the two are joined by a space, or the first one ends in white
    space, or it is empty. *)
Lemma appendText_no_SEP existingText newText :
  includes SEP existingText = false -> includes SEP (trim newText) = false ->
  includes SEP (appendText existingText newText) = false.
Proof.
  intros He Hn. rewrite appendText_unfold.
  destruct (blank existingText || endsWith [SPACE] existingText) eqn:E.
  - destruct existingText as [|w e _] using rev_ind; [exact Hn|].
    simpl. rewrite <- app_assoc. simpl.
    apply includes_barrier; [|now apply includes_app_l in He|exact Hn].
    apply orb_true_iff in E as [E|E].
    + apply blank_whitespace in E. rewrite forallb_app in E.
      apply andb_true_iff in E as [_ E]. simpl in E. rewrite andb_true_r in E.
      intros ->. discriminate.
    + rewrite endsWith_single, last_snoc in E. apply N.eqb_eq in E. subst w. discriminate.
  - apply includes_barrier; [discriminate|exact He|exact Hn].
Qed.

(** ** C2: the structured encoding through an edit/save cycle *)

(** C2 (amended).  For every list of at least two segments, none blank, none
    containing ["###"], and none but possibly the last ending in the
    character ['#'], joining the segments with ["###"] (the re-encoding of
    [handleSaveEdit]) and parsing the result yields a structured finding
    whose title is the first segment and whose sub-points are the remaining
    segments, in order. *)
Theorem parse_serialize_roundtrip (segs : list jsstring) :
  2 <= length segs ->
  Forall (fun s => blank s = false) segs ->
  Forall (fun s => includes SEP s = false) segs ->
  Forall (fun s => endsWith [HASH] s = false) (removelast segs) ->
  parseStructuredFinding (serialize segs) = mkParsed true (hd [] segs) (tl segs).
Proof.
  intros Hlen Hblank Hsep Hhash.
  unfold serialize, parseStructuredFinding.
  rewrite filter_nonblank by exact Hblank.
  rewrite split_join; [|destruct segs; [simpl in Hlen; lia|discriminate]|exact Hsep|exact Hhash].
  destruct segs as [|x [|y rest]]; simpl in Hlen; try lia.
  inversion Hblank as [|? ? Hx Hrest]; subst.
  cbn [length hd tl skipn]. rewrite Hx. cbn [Nat.ltb Nat.leb andb negb].
  now rewrite filter_nonblank.
Qed.

Lemma parse_serialize_roundtrip_witness :
  parseStructuredFinding (serialize [str "A#B"; str "#B"; str "C#"])
  = mkParsed true (str "A#B") [str "#B"; str "C#"].
Proof.
  apply (parse_serialize_roundtrip [str "A#B"; str "#B"; str "C#"]).
  - simpl; lia.
  - repeat (constructor; try reflexivity).
  - repeat (constructor; try reflexivity).
  - repeat (constructor; try reflexivity).
Defined.

(** C2 as stated fails: the segments ["a#"] and ["#b"] are not blank and
    hold no ["###"], yet their encoding ["a#####b"] parses to the title
    ["a"] and the single sub-point ["##b"]. *)
Lemma roundtrip_fails_on_hash_boundary :
  ~ (forall segs : list jsstring,
       2 <= length segs ->
       Forall (fun s => blank s = false) segs ->
       Forall (fun s => includes SEP s = false) segs ->
       parseStructuredFinding (serialize segs) = mkParsed true (hd [] segs) (tl segs)).
Proof.
  intros H. specialize (H [str "a#"; str "#b"]).
  assert (E : parseStructuredFinding (serialize [str "a#"; str "#b"])
              = mkParsed true (str "a") [str "##b"]) by reflexivity.
  rewrite E in H.
  assert (A : mkParsed true (str "a") [str "##b"]
              = mkParsed true (hd [] [str "a#"; str "#b"]) (tl [str "a#"; str "#b"])).
  { apply H; [simpl; lia| |]; repeat (constructor; try reflexivity). }
  discriminate A.
Qed.

(** ** C3: the text of a per-finding append *)

(** C3 (amended).  The per-finding append produces the existing text, then a
    single space unless the existing text is blank (empty or white space
    only) or already ends in a space character, then the trimmed
    continuation text; so the existing text is a prefix of the result, with
    at most one inserted space; and appending to an unstructured finding a
    continuation whose trimmed text holds no ["###"] gives an unstructured
    finding. *)
Theorem append_text_spec (existingText newText : jsstring) :
  appendText existingText newText
  = existingText
    ++ (if blank existingText || endsWith [SPACE] existingText then [] else [SPACE])
    ++ trim newText
  /\ (exists sep, (sep = [] \/ sep = [SPACE])
        /\ appendText existingText newText = existingText ++ sep ++ trim newText)
  /\ (isStructured (parseStructuredFinding existingText) = false ->
      includes SEP (trim newText) = false ->
      isStructured (parseStructuredFinding (appendText existingText newText)) = false).
Proof.
  split; [apply appendText_unfold|]. split.
  - rewrite appendText_unfold.
    destruct (blank existingText || endsWith [SPACE] existingText); eauto.
  - intros Hun Hn. rewrite isStructured_parse in *.
    destruct (includes SEP existingText) eqn:Hinc.
    + pose proof (split_with SEP existingText ltac:(discriminate) Hinc) as Hlen.
      apply Nat.ltb_lt in Hlen. rewrite Hlen in Hun. simpl in Hun.
      rewrite appendText_unfold, hd_split_app by exact Hinc.
      apply negb_false_iff in Hun. rewrite Hun. apply andb_false_r.
    + rewrite (split_without SEP _ (appendText_no_SEP _ _ Hinc Hn)). reflexivity.
Qed.

Lemma append_text_spec_witness :
  isStructured (parseStructuredFinding (str "No focal lesion.")) = false
  /\ includes SEP (trim (str " Liver is normal. ")) = false
  /\ appendText (str "No focal lesion.") (str " Liver is normal. ")
     = str "No focal lesion. Liver is normal."
  /\ isStructured (parseStructuredFinding
       (appendText (str "No focal lesion.") (str " Liver is normal. "))) = false.
Proof.
  pose proof (append_text_spec (str "No focal lesion.") (str " Liver is normal. "))
    as (E & _ & U).
  split; [reflexivity|]. split; [reflexivity|]. split; [exact E|].
  apply U; reflexivity.
Defined.

(** C3 as stated fails twice.  An existing text ending in white space other
    than a space (here a tab) still receives the separator; and a
    continuation holding ["###"] turns an unstructured finding into a
    structured one. *)
Lemma append_claim_fails :
  (endsWith [TAB] (str "a" ++ [TAB]) = true /\ isWhiteSpace TAB = true
   /\ appendText (str "a" ++ [TAB]) (str "b") = str "a" ++ [TAB] ++ [SPACE] ++ str "b"
   /\ appendText (str "a" ++ [TAB]) (str "b") <> (str "a" ++ [TAB]) ++ str "b")
  /\ (isStructured (parseStructuredFinding (str "abc")) = false
      /\ appendText (str "abc") (str "x###y") = str "abc x###y"
      /\ isStructured (parseStructuredFinding (appendText (str "abc") (str "x###y"))) = true).
Proof. repeat split; try reflexivity. discriminate. Qed.

(** ** C8: copying a multi-index selection *)

Section CopySelection.

Variable finding : nat -> option jsstring.
Variable snippets : gmap nat jsstring.

Hypothesis snippets_nonempty : map_Forall (fun _ snippet => snippet <> []) snippets.

Lemma copyEntry_expected i :
  is_Some (finding i) -> copyEntry finding snippets i = Ok (expectedPlain finding snippets i, expectedHtml finding snippets i).
Proof.
  intros [f Hf]. unfold copyEntry, expectedPlain, expectedHtml.
  destruct (snippets !! i) as [[|c s]|] eqn:E; rewrite ?Hf; try reflexivity.
  now apply snippets_nonempty in E.
Qed.

Lemma copyEntries_expected (l : list nat) :
  Forall (fun i => is_Some (finding i)) l ->
  copyEntries finding snippets l = Ok (List.map (expectedPlain finding snippets) l,
                                       List.map (expectedHtml finding snippets) l).
Proof.
  induction 1 as [|i l Hi _ IH]; simpl; [reflexivity|].
  now rewrite copyEntry_expected, IH.
Qed.

Lemma copyIndices_expected (indices : list nat) :
  indices <> [] ->
  Forall (fun i => is_Some (finding i)) indices ->
  copyIndices finding snippets indices
  = ToClipboard
      (join NL (List.map (expectedPlain finding snippets) (sortNumeric indices)))
      (concat (List.map (expectedHtml finding snippets) (sortNumeric indices))).
Proof.
  intros Hne Hall. unfold copyIndices.
  destruct indices as [|i rest]; [congruence|].
  rewrite copyEntries_expected; [reflexivity|].
  unfold sortNumeric. now rewrite merge_sort_Permutation.
Qed.

End CopySelection.

Lemma sortNumeric_sorted (indices : list nat) : Sorted le (sortNumeric indices).
Proof. apply Sorted_merge_sort; apply _. Qed.

(** The order of processing does not depend on the order of selection. *)
Lemma sortNumeric_order_free (l1 l2 : list nat) :
  l1 ≡ₚ l2 -> sortNumeric l1 = sortNumeric l2.
Proof.
  intros HP. apply (Sorted_unique le); try apply sortNumeric_sorted.
  unfold sortNumeric. now rewrite !merge_sort_Permutation.
Qed.

Lemma copyIndices_order_free finding snippets (l1 l2 : list nat) :
  l1 ≡ₚ l2 -> copyIndices finding snippets l1 = copyIndices finding snippets l2.
Proof.
  intros HP. unfold copyIndices. rewrite (sortNumeric_order_free _ _ HP).
  destruct l1, l2; try reflexivity.
  - now apply Permutation_nil_cons in HP.
  - symmetry in HP. now apply Permutation_nil_cons in HP.
Qed.

(** C8.  For a finding list and a non-empty selection of its indices, the
    multi-select copy processes the indices in ascending order whatever the
    order of selection; its plain text is the newline-joined list of, for
    each index, the captured snippet verbatim when there is one, and
    otherwise the finding rendered as title and sub-points joined by
    newlines (structured) or as its raw text (unstructured).  The same holds
    of the batch copy on the findings of the batch. *)
Theorem copy_selection_spec (fs : list jsstring) (snippets : gmap nat jsstring)
    (indices : list nat) :
  indices <> [] ->
  Forall (fun i => i < length fs) indices ->
  map_Forall (fun _ snippet => snippet <> []) snippets ->
  let order := sortNumeric indices in
  let render f :=
    if isStructured (parseStructuredFinding f)
    then join NL (title (parseStructuredFinding f) :: points (parseStructuredFinding f))
    else f in
  let plain i := match snippets !! i with
                 | Some snippet => snippet
                 | None => render (default [] (fs !! i))
                 end in
  Sorted le order /\ order ≡ₚ indices
  /\ (forall clicks, clicks ≡ₚ indices ->
        Single.copySelection fs snippets clicks = Single.copySelection fs snippets indices)
  /\ (exists html,
        Single.copySelection fs snippets indices
        = ToClipboard (join NL (List.map plain order)) html)
  /\ (forall bs allSnippets batchId batch,
        Batch.findBatch batchId bs = Some batch ->
        Batch.findings batch = Some (dense fs) ->
        default ∅ (allSnippets !! batchId) = snippets ->
        exists html,
          Batch.copyBatchSelection bs allSnippets batchId indices
          = Some (ToClipboard (join NL (List.map plain order)) html)).
Proof.
  intros Hne Hrange Hsn order render plain.
  split; [apply sortNumeric_sorted|].
  split; [apply merge_sort_Permutation|].
  split; [intros clicks HP; now apply copyIndices_order_free|].
  split.
  - eexists. unfold Single.copySelection.
    rewrite copyIndices_expected; [reflexivity|exact Hsn|exact Hne|].
    eapply Forall_impl; [exact Hrange|]. intros i Hi. now apply lookup_lt_is_Some.
  - intros bs allSnippets batchId batch Hfind Hfs Hall. eexists.
    unfold Batch.copyBatchSelection. rewrite Hfind, Hfs, Hall.
    rewrite copyIndices_expected; [|exact Hsn|exact Hne|].
    + subst order. do 3 f_equal.
      enough (E : forall i, expectedPlain (arr_get (dense fs)) snippets i = plain i)
        by (apply List.map_ext, E).
      intros i. unfold expectedPlain, plain, render, renderPlain, arr_get, dense.
      destruct (snippets !! i); [reflexivity|].
      rewrite list_lookup_fmap. now destruct (fs !! i).
    + eapply Forall_impl; [exact Hrange|]. intros i Hi.
      apply lookup_lt_is_Some in Hi as [f Hf].
      exists f. unfold arr_get, dense. now rewrite list_lookup_fmap, Hf.
Qed.

(** The scenario of the specification, selected in either click order. *)
Lemma copy_selection_spec_witness :
  Single.copySelection [str "A###B###C"; str "D"] ∅ [1; 0]
  = Single.copySelection [str "A###B###C"; str "D"] ∅ [0; 1]
  /\ exists html,
       Single.copySelection [str "A###B###C"; str "D"] ∅ [0; 1]
       = ToClipboard (str "A" ++ NL ++ str "B" ++ NL ++ str "C" ++ NL ++ str "D") html.
Proof.
  destruct (copy_selection_spec [str "A###B###C"; str "D"] ∅ [0; 1])
    as (_ & _ & Hfree & Hplain & _).
  - discriminate.
  - repeat constructor.
  - apply map_Forall_empty.
  - split; [apply Hfree; apply Permutation_swap|exact Hplain].
Defined.

(** ** Running handlers *)

(** Unfolds the monad, so that a handler applied to a state reduces. *)
Ltac run :=
  cbv [mbind M_bind mret M_ret gets modify throw try_catch try_finally call
       Single.setStatus Single.setFindings Single.setError Single.setAudioBlob
       Single.setChat Single.setChatHistory Single.setSelectedModel
       Single.setDictatingIndex Single.setDictateEditingIndex Single.setProcessingIndex
       Single.setContinuationError Single.setContinuationState Single.removeItem
       Single.on_app Single.on_view
       Batch.setBatches Batch.withBatches Batch.setActiveBatchId Batch.setIsBusy Batch.setContinuationState
       Batch.setDictatingState Batch.setDictateEditingState Batch.setProcessingState
       Batch.setContinuationError Batch.removeItem Batch.recorderStopped
       Batch.recorderStarted];
  cbn [Single.app Single.view Single.localStorage
       Single.status Single.findings Single.error Single.audioBlob Single.chat
       Single.chatHistory Single.selectedModel
       Single.dictatingIndex Single.dictateEditingIndex Single.processingIndex
       Single.continuationError Single.continuationState
       Batch.batches Batch.activeBatchId Batch.isBusy Batch.isMainRecording
       Batch.continuationState Batch.dictatingState Batch.dictateEditingState
       Batch.processingState Batch.continuationError Batch.localStorage
       Batch.cont_batchId Batch.cont_status Batch.cont_error fst snd].

(** ** C6: a manual edit at an index that holds no finding *)

(** In single mode the update is guarded: out of range, nothing changes. *)
Lemma single_update_out_of_range (w : Single.World) (log : list Call)
    (index : nat) (newText : jsstring) :
  Single.findings (Single.app w) !! index = None ->
  Single.handleUpdateFinding index newText w log = (Ok tt, w, log).
Proof.
  intros H. unfold Single.handleUpdateFinding. run. rewrite H.
  now destruct w as [[] ? ?].
Qed.

(** In batch mode the assignment is not guarded: past the end, the array
    grows to [index + 1] slots. *)
Lemma arr_set_out_of_range (fs : jsarray) (index : nat) (v : jsstring) :
  length fs <= index ->
  arr_set fs index v = fs ++ replicate (index - length fs) None ++ [Some v]
  /\ length (arr_set fs index v) = S index
  /\ arr_set fs index v <> fs.
Proof.
  intros H. unfold arr_set.
  assert (E : (index <? length fs) = false) by (apply Nat.ltb_ge; exact H).
  rewrite E. split; [reflexivity|]. split.
  - rewrite !length_app, length_replicate. simpl. lia.
  - intros Heq. apply (f_equal (@length _)) in Heq.
    rewrite !length_app, length_replicate in Heq. simpl in Heq. lia.
Qed.

(** C6 (code defect, batch mode).  [handleUpdateFindingForBatch] at an index
    past the end of a one-finding batch: the finding list is not returned
    unchanged, it becomes a three-slot array with an empty slot. *)
Lemma batch_update_out_of_range_extends :
  let b := Batch.mkBatch (str "b1") (str "Dictation #1") [] (Some [Some (str "a")])
             Batch.complete (str "gemini-2.5-pro") None None None (Some false) in
  let s := Batch.mkState [b] None false false (Batch.mkContinuation None Batch.CIdle None)
             None None None None ∅ in
  arr_get [Some (str "a")] 2 = None
  /\ exists s',
       Batch.handleUpdateFindingForBatch (str "b1") 2 (str "x") s [] = (Ok tt, s', [])
       /\ List.map Batch.findings (Batch.batches s')
          = [Some [Some (str "a"); None; Some (str "x")]]
       /\ Single.handleUpdateFinding 2 (str "x")
            (Single.mkWorld
               (Single.mkApp Single.Success [str "a"] None None None [] (str "gemini-2.5-pro"))
               (Single.mkView None None None None (Single.CIdle, None)) ∅) []
          = (Ok tt,
             Single.mkWorld
               (Single.mkApp Single.Success [str "a"] None None None [] (str "gemini-2.5-pro"))
               (Single.mkView None None None None (Single.CIdle, None)) ∅, []).
Proof.
  split; [reflexivity|]. eexists. split; [reflexivity|]. split; reflexivity.
Qed.

(** ** C9: dictation operations on an absent or empty capture *)

Lemma usable_empty (captured : option Blob) :
  (forall b, captured = Some b -> blob_size b = 0) -> usable captured = None.
Proof.
  intros H. destruct captured as [b|]; [|reflexivity].
  unfold usable. now rewrite (H b eq_refl).
Qed.

(** C9.  When the captured audio is absent or has size zero, the per-finding
    append, the per-finding modify and the continue-dictation handlers, in
    single and in batch mode, return normally without calling any client
    (the call log is unchanged), leave the findings, the audio, the
    conversation and the status as they were, and record no error. *)
Theorem empty_capture_is_silent (captured : option Blob) :
  (forall b, captured = Some b -> blob_size b = 0) ->
  (forall continuation w log, exists w',
      Single.handleStopDictation captured continuation w log = (Ok tt, w', log)
      /\ Single.app w' = Single.app w
      /\ Single.continuationError (Single.view w') = Single.continuationError (Single.view w)
      /\ Single.continuationState (Single.view w') = Single.continuationState (Single.view w))
  /\ (forall modification w log, exists w',
      Single.handleStopDictateEdit captured modification w log = (Ok tt, w', log)
      /\ Single.app w' = Single.app w
      /\ Single.continuationError (Single.view w') = Single.continuationError (Single.view w)
      /\ Single.continuationState (Single.view w') = Single.continuationState (Single.view w))
  /\ (forall transcription session w log, exists w',
      Single.handleStopContinue captured transcription session w log = (Ok tt, w', log)
      /\ Single.app w' = Single.app w
      /\ Single.continuationError (Single.view w') = Single.continuationError (Single.view w)
      /\ Single.continuationState (Single.view w') = (Single.CIdle, None))
  /\ (forall continuation s log, exists s',
      Batch.handleStopDictation captured continuation s log = (Ok tt, s', log)
      /\ Batch.batches s' = Batch.batches s
      /\ Batch.continuationError s' = Batch.continuationError s
      /\ Batch.continuationState s' = Batch.continuationState s)
  /\ (forall modification s log, exists s',
      Batch.handleStopDictateEditForBatch captured modification s log = (Ok tt, s', log)
      /\ Batch.batches s' = Batch.batches s
      /\ Batch.continuationError s' = Batch.continuationError s
      /\ Batch.continuationState s' = Batch.continuationState s)
  /\ (forall transcription session s log, exists s',
      Batch.handleStopContinue captured transcription session s log = (Ok tt, s', log)
      /\ Batch.batches s' = Batch.batches s
      /\ Batch.continuationError s' = Batch.continuationError s
      /\ (s' = s \/ Batch.cont_error (Batch.continuationState s') = None)).
Proof.
  intros Hempty. pose proof (usable_empty captured Hempty) as Hu.
  repeat split.
  - intros continuation w log. unfold Single.handleStopDictation. run.
    destruct (Single.dictatingIndex (Single.view w)); run; rewrite ?Hu;
      eexists; repeat split; reflexivity.
  - intros modification w log. unfold Single.handleStopDictateEdit. run.
    destruct (Single.dictateEditingIndex (Single.view w)); run; rewrite ?Hu;
      eexists; repeat split; reflexivity.
  - intros transcription session w log. unfold Single.handleStopContinue.
    rewrite Hu. run. eexists; repeat split; reflexivity.
  - intros continuation s log. unfold Batch.handleStopDictation, Batch.target. run.
    destruct (Batch.dictatingState s) as [[batchId index]|]; run; rewrite ?Hu;
      [destruct (Batch.findBatch batchId (Batch.batches s))|];
      eexists; repeat split; reflexivity.
  - intros modification s log. unfold Batch.handleStopDictateEditForBatch, Batch.target. run.
    destruct (Batch.dictateEditingState s) as [[batchId index]|]; run; rewrite ?Hu;
      [destruct (Batch.findBatch batchId (Batch.batches s))|];
      eexists; repeat split; reflexivity.
  - intros transcription session s log. unfold Batch.handleStopContinue. run.
    destruct (Batch.cont_batchId (Batch.continuationState s)) as [[|c p]|]; rewrite ?Hu; run;
      eexists; (split; [reflexivity|]); (split; [reflexivity|]); (split; [reflexivity|]);
      (now left) || (now right).
Qed.

Lemma empty_capture_is_silent_witness :
  let w := Single.mkWorld
             (Single.mkApp Single.Success [str "a"; str "b"] None
                (Some (mkBlob [1; 2; 3]%N (str "audio/webm"))) None [] (str "gemini-2.5-pro"))
             (Single.mkView (Some 1) None None None (Single.CIdle, None)) ∅ in
  (forall b, Some (mkBlob [] (str "audio/webm")) = Some b -> blob_size b = 0)
  /\ exists w',
       Single.handleStopDictation (Some (mkBlob [] (str "audio/webm")))
         (Ok (str "more text")) w []
       = (Ok tt, w', [])
       /\ Single.app w' = Single.app w.
Proof.
  intros w.
  assert (H : forall b, Some (mkBlob [] (str "audio/webm")) = Some b -> blob_size b = 0).
  { intros b E. injection E as <-. reflexivity. }
  split; [exact H|].
  destruct (empty_capture_is_silent _ H) as (Hdict & _).
  destruct (Hdict (Ok (str "more text")) w []) as (w' & E & Happ & _).
  exists w'. split; [exact E|exact Happ].
Defined.

(** ** C7: restoring a snapshot whose audio does not decode *)







(** ** C10: a reprocess that fails *)

Lemma Forall2_map_diag {A} (P : A -> A -> Prop) (f : A -> A) (l : list A) :
  (forall x, P x (f x)) -> Forall2 P l (List.map f l).
Proof. intros H. induction l; simpl; constructor; auto. Qed.

(** In single mode, when the transcription succeeds and the creation of the
    chat session throws, the session ends in error status holding the newly
    transcribed findings. *)
Lemma reprocess_chat_failure_keeps_fresh (w : Single.World) (audio : Blob)
    (fresh : list jsstring) (e : exn) (log : list Call) :
  Single.audioBlob (Single.app w) = Some audio ->
  0 < blob_size audio ->
  exists w' log',
    Single.handleReprocess (Ok fresh) (Throw e) w log = (Ok tt, w', log')
    /\ Single.findings (Single.app w') = fresh
    /\ Single.status (Single.app w') = Single.Error.
Proof.
  intros Ha Hsize.
  unfold Single.handleReprocess, Single.handleRecordingComplete. run. rewrite Ha.
  assert (Hz : (blob_size audio =? 0) = false) by (apply Nat.eqb_neq; lia).
  rewrite Hz. run. do 2 eexists. repeat split; reflexivity.
Qed.

(** C10 (amended).  For a session that holds findings and a non-empty stored
    audio, a reprocess whose transcription call fails ends in error status
    with the empty finding list: the list is cleared before the call, which
    is the only call made, and the audio is kept.  For a batch with audio, a
    reprocess that fails at the transcription or at the creation of the chat
    session sets the findings of that batch to null and its status to error,
    and leaves the other batches alone.  In neither mode are the findings
    from before the reprocess restored. *)
Theorem failed_reprocess_drops_findings :
  (forall (w : Single.World) (audio : Blob) (e : exn) (session : result Chat) (log : list Call),
      Single.audioBlob (Single.app w) = Some audio ->
      0 < blob_size audio ->
      exists w',
        Single.handleReprocess (Throw e) session w log
        = (Ok tt, w', log ++ [ProcessAudio audio (Single.selectedModel (Single.app w))])
        /\ Single.findings (Single.app w') = []
        /\ Single.status (Single.app w') = Single.Error
        /\ Single.error (Single.app w')
           = Some (messageOr (str "An unknown error occurred during processing.") e)
        /\ Single.audioBlob (Single.app w') = Some audio)
  /\ (forall (s : Batch.State) (batchId : jsstring) (batch : Batch.Batch)
             (transcription : result (list jsstring)) (session : result Chat)
             (log : list Call),
      Batch.findBatch batchId (Batch.batches s) = Some batch ->
      Batch.audioBlobs batch <> [] ->
      (exists e, transcription = Throw e \/ session = Throw e) ->
      exists s' log',
        Batch.handleReprocessBatch batchId transcription session s log = (Ok tt, s', log')
        /\ Forall2 (fun b b' =>
                      if Batch.id_eqb (Batch.id b) batchId
                      then Batch.findings b' = None /\ Batch.status b' = Batch.error
                           /\ Batch.id b' = Batch.id b
                           /\ Batch.audioBlobs b' = Batch.audioBlobs b
                      else b' = b)
                   (Batch.batches s) (Batch.batches s')).
Proof.
  split.
  - intros w audio e session log Ha Hsize.
    unfold Single.handleReprocess, Single.handleRecordingComplete. run. rewrite Ha.
    assert (Hz : (blob_size audio =? 0) = false) by (apply Nat.eqb_neq; lia).
    rewrite Hz. run. rewrite Ha. eexists. repeat split; reflexivity.
  - intros s batchId batch transcription session log Hfind Hblobs [e Hfail].
    unfold Batch.handleReprocessBatch. run. rewrite Hfind.
    destruct (Batch.audioBlobs batch) as [|first rest] eqn:Hb; [congruence|]. run.
    assert (Hshape : forall msg (l : list Batch.Batch),
      Forall2 (fun b b' =>
                 if Batch.id_eqb (Batch.id b) batchId
                 then Batch.findings b' = None /\ Batch.status b' = Batch.error
                      /\ Batch.id b' = Batch.id b
                      /\ Batch.audioBlobs b' = Batch.audioBlobs b
                 else b' = b) l
        (List.map (fun b => if Batch.id_eqb (Batch.id b) batchId
            then Batch.mkBatch (Batch.id b) (Batch.name b) (Batch.audioBlobs b) None
                   Batch.error (Batch.selectedModel b) (Some msg) (Batch.chat b)
                   (Batch.chatHistory b) (Batch.isChatting b)
            else b)
          (List.map (fun b => if Batch.id_eqb (Batch.id b) batchId
            then Batch.mkBatch (Batch.id b) (Batch.name b) (Batch.audioBlobs b)
                   (Batch.findings b) Batch.processing (Batch.selectedModel b) None
                   (Batch.chat b) (Batch.chatHistory b) (Batch.isChatting b)
            else b) l))).
    { intros msg l. rewrite List.map_map. apply Forall2_map_diag. intros b.
      destruct (Batch.id_eqb (Batch.id b) batchId) eqn:E; cbn [Batch.id]; rewrite E.
      - now repeat split.
      - reflexivity. }
    destruct transcription as [fresh|e1]; [destruct session as [c|e2]|]; run.
    + destruct Hfail; discriminate.
    + do 2 eexists. split; [reflexivity|]. apply Hshape.
    + do 2 eexists. split; [reflexivity|]. apply Hshape.
Qed.

Lemma failed_reprocess_drops_findings_witness :
  let audio := mkBlob [82; 73; 70; 70]%N (str "audio/webm") in
  let w := Single.mkWorld
             (Single.mkApp Single.Success [str "Old finding."] None (Some audio)
                (Some (ChatSession 0)) [] (str "gemini-2.5-pro"))
             (Single.mkView None None None None (Single.CIdle, None)) ∅ in
  0 < blob_size audio
  /\ exists w',
       Single.handleReprocess (Throw (ErrorObj (str "Failed to process audio: 503")))
         (Ok (ChatSession 1)) w []
       = (Ok tt, w', [ProcessAudio audio (str "gemini-2.5-pro")])
       /\ Single.findings (Single.app w') = []
       /\ Single.status (Single.app w') = Single.Error.
Proof.
  intros audio w.
  assert (Hsize : 0 < blob_size audio) by (subst audio; cbv; lia).
  split; [exact Hsize|].
  destruct failed_reprocess_drops_findings as (Hsingle & _).
  destruct (Hsingle w audio (ErrorObj (str "Failed to process audio: 503"))
              (Ok (ChatSession 1)) [] eq_refl Hsize)
    as (w' & E & Hf & Hs & _).
  exists w'. repeat split; assumption.
Defined.

(** C10 as stated fails in single mode.  When the transcription succeeds
    and the creation of the chat session throws, the session ends in error
    status holding the new findings, not the empty list; and when the stored
    audio is empty the reprocess fails before anything is cleared, so the
    prior findings stay in the state. *)
Lemma failed_reprocess_keeps_a_list :
  let view := Single.mkView None None None None (Single.CIdle, None) in
  let app audio := Single.mkApp Single.Success [str "Old finding."] None (Some audio)
                     (Some (ChatSession 0)) [] (str "gemini-2.5-pro") in
  (exists w' log',
     Single.handleReprocess (Ok [str "New finding."]) (Throw NonError)
       (Single.mkWorld (app (mkBlob [82; 73; 70; 70]%N (str "audio/webm"))) view ∅) []
     = (Ok tt, w', log')
     /\ Single.status (Single.app w') = Single.Error
     /\ Single.findings (Single.app w') = [str "New finding."])
  /\ (exists w',
        Single.handleReprocess (Throw NonError) (Throw NonError)
          (Single.mkWorld (app (mkBlob [] (str "audio/webm"))) view ∅) []
        = (Ok tt, w', [])
        /\ Single.status (Single.app w') = Single.Error
        /\ Single.findings (Single.app w') = [str "Old finding."]).
Proof.
  intros view app. split.
  - do 2 eexists. repeat split; reflexivity.
  - eexists. repeat split; reflexivity.
Qed.

(** ** C4: processAll *)

Section ProcessAll.

Import Batch.

Variable model : jsstring.
Variable answers : Batch -> result (list jsstring) * result Chat.

(** The registry update of the task of [p], on one batch. *)
Let stepFor (p b : Batch) : Batch :=
  if id_eqb (id b) (id p) then settle (fst (answers p)) (snd (answers p)) b else b.

Lemma id_eqb_true a b : id_eqb a b = true <-> a = b.
Proof. unfold id_eqb. apply bool_decide_eq_true. Qed.

Lemma id_eqb_false a b : id_eqb a b = false <-> a <> b.
Proof. unfold id_eqb. apply bool_decide_eq_false. Qed.

Lemma settle_id t c b : id (settle t c b) = id b.
Proof. destruct t, c; reflexivity. Qed.

Lemma withBatches_id s : withBatches (fun bs => bs) s = s.
Proof. now destruct s. Qed.

Lemma processOne_run p t c s log :
  audioBlobs p <> [] ->
  exists log',
    processOne model p t c s log
    = (Ok tt,
       withBatches (List.map (fun b => if id_eqb (id b) (id p) then settle t c b else b)) s,
       log').
Proof.
  intros Hne. unfold processOne.
  destruct (audioBlobs p) as [|first rest]; [congruence|].
  destruct t as [fs|e]; [destruct c as [ch|e]|];
    cbv [mbind M_bind call try_catch setBatches modify settle]; eexists; reflexivity.
Qed.

Lemma forEach_run (l : list Batch) : forall s log,
  Forall (fun p => audioBlobs p <> []) l ->
  exists log',
    forEach (fun batch => processOne model batch (fst (answers batch)) (snd (answers batch)))
            l s log
    = (Ok tt,
       withBatches (fun bs => fold_left (fun acc p => List.map (stepFor p) acc) l bs) s,
       log').
Proof.
  induction l as [|p l IH]; intros s log Hall.
  - exists log. simpl. now rewrite withBatches_id.
  - inversion Hall as [|? ? Hp Hl]; subst.
    destruct (processOne_run p (fst (answers p)) (snd (answers p)) s log Hp) as [log1 E1].
    cbn [forEach]. unfold mbind, M_bind. rewrite E1.
    destruct (IH (withBatches (List.map (stepFor p)) s) log1 Hl) as [log2 E2].
    exists log2. unfold stepFor in *. rewrite E2. now destruct s.
Qed.

Lemma fold_steps (l : list Batch) : forall bs,
  fold_left (fun acc p => List.map (stepFor p) acc) l bs
  = List.map (fun b => fold_left (fun x p => stepFor p x) l b) bs.
Proof.
  induction l as [|p l IH]; intros bs; simpl.
  - now rewrite List.map_id.
  - now rewrite IH, List.map_map.
Qed.

Lemma find_id_none (l : list Batch) (i : jsstring) :
  (forall p, In p l -> id p <> i) -> List.find (fun p => id_eqb (id p) i) l = None.
Proof.
  induction l as [|p l IH]; intros H; simpl; [reflexivity|].
  destruct (id_eqb (id p) i) eqn:E.
  - apply id_eqb_true in E. exfalso. apply (H p); [now left|exact E].
  - apply IH. intros q Hq. apply H. now right.
Qed.

Lemma find_id_some (l : list Batch) (b : Batch) :
  List.NoDup (List.map id l) -> In b l -> List.find (fun p => id_eqb (id p) (id b)) l = Some b.
Proof.
  induction l as [|p l IH]; intros Hnd Hin; [contradiction|].
  simpl in *. inversion Hnd as [|? ? Hnotin Hnd']; subst.
  destruct (id_eqb (id p) (id b)) eqn:E.
  - apply id_eqb_true in E. destruct Hin as [->|Hin]; [reflexivity|].
    exfalso. apply Hnotin. rewrite E. now apply in_map.
  - destruct Hin as [->|Hin]; [|now apply IH].
    apply id_eqb_false in E. congruence.
Qed.

Lemma id_determines (bs : list Batch) (p b : Batch) :
  List.NoDup (List.map id bs) -> In p bs -> In b bs -> id p = id b -> p = b.
Proof.
  intros Hnd Hp Hb E.
  pose proof (find_id_some bs b Hnd Hb) as F1.
  pose proof (find_id_some bs p Hnd Hp) as F2.
  rewrite E in F2. congruence.
Qed.

Lemma fold_element (l : list Batch) : forall x,
  List.NoDup (List.map id l) ->
  fold_left (fun y p => stepFor p y) l x
  = match List.find (fun p => id_eqb (id p) (id x)) l with
    | Some p => settle (fst (answers p)) (snd (answers p)) x
    | None => x
    end.
Proof.
  induction l as [|p l IH]; intros x Hnd; [reflexivity|].
  inversion Hnd as [|? ? Hnotin Hnd']; subst. cbn [fold_left List.find].
  rewrite IH by exact Hnd'. unfold stepFor.
  destruct (id_eqb (id x) (id p)) eqn:E.
  - apply id_eqb_true in E. rewrite settle_id.
    assert (E' : id_eqb (id p) (id x) = true) by now apply id_eqb_true.
    rewrite E', find_id_none; [reflexivity|].
    intros q Hq Hid. apply Hnotin. rewrite <- E, <- Hid. now apply in_map.
  - apply id_eqb_false in E.
    assert (E' : id_eqb (id p) (id x) = false) by (apply id_eqb_false; congruence).
    now rewrite E'.
Qed.

Lemma NoDup_ids_filter (f : Batch -> bool) (bs : list Batch) :
  List.NoDup (List.map id bs) -> List.NoDup (List.map id (List.filter f bs)).
Proof.
  induction bs as [|b bs IH]; intros Hnd; [constructor|].
  simpl in *. inversion Hnd as [|? ? Hnotin Hnd']; subst.
  destruct (f b); [|now apply IH]. simpl. constructor; [|now apply IH].
  intros Hin. apply Hnotin. apply in_map_iff in Hin as (q & Hq & Hin).
  apply filter_In in Hin as [Hin _]. rewrite <- Hq. now apply in_map.
Qed.

Lemma Forall2_map_in {A} (P : A -> A -> Prop) (g : A -> A) (l : list A) :
  (forall x, In x l -> P x (g x)) -> Forall2 P l (List.map g l).
Proof.
  induction l as [|a l IH]; intros H; simpl; constructor.
  - apply H. now left.
  - apply IH. intros x Hx. apply H. now right.
Qed.

Lemma processable_has_audio b : processable b = true -> audioBlobs b <> [].
Proof.
  unfold processable. intros H.
  apply andb_true_iff in H as [H _]. apply andb_true_iff in H as [_ H].
  destruct (audioBlobs b); [discriminate|discriminate].
Qed.

(** With distinct identifiers, looking a batch of the registry up in a
    selection of the processable batches tells whether it is processable. *)
Lemma find_selected (bs l : list Batch) (b : Batch) :
  List.NoDup (List.map id bs) -> In b bs ->
  l ≡ₚ batchesToProcess bs ->
  List.find (fun p => id_eqb (id p) (id b)) l = if processable b then Some b else None.
Proof.
  intros Hnd Hb HP.
  assert (Hl : List.NoDup (List.map id l)).
  { eapply Permutation_NoDup; [apply Permutation_map; symmetry; exact HP|].
    now apply NoDup_ids_filter. }
  destruct (processable b) eqn:E.
  - apply find_id_some; [exact Hl|].
    eapply Permutation_in; [symmetry; exact HP|]. apply filter_In. now split.
  - apply find_id_none. intros p Hp Hid.
    apply (Permutation_in _ HP) in Hp. apply filter_In in Hp as [Hp Hproc].
    assert (p = b) by now apply (id_determines bs). congruence.
Qed.

Lemma markProcessing_selected (bs : list Batch) :
  List.NoDup (List.map id bs) ->
  markProcessing (batchesToProcess bs) bs
  = List.map (fun b => if processable b then withStatus processing b else b) bs.
Proof.
  intros Hnd. unfold markProcessing. apply List.map_ext_in. intros b Hb.
  rewrite (find_selected bs _ b Hnd Hb (Permutation_refl _)).
  now destruct (processable b).
Qed.

End ProcessAll.




(** The scenario of the specification: of three batches, one without audio,
    one with audio and one already processed, only the second is marked and
    then completed. *)
Lemma process_all_scenario :
  let blob := mkBlob [26; 69; 223; 163]%N (str "audio/webm") in
  let noAudio := Batch.mkBatch (str "b1") (str "Dictation #1") [] None Batch.idle
                   (str "gemini-2.5-pro") None None None (Some false) in
  let withAudio := Batch.mkBatch (str "b2") (str "Dictation #2") [blob] None Batch.complete
                     (str "gemini-2.5-pro") None None None (Some false) in
  let processed := Batch.mkBatch (str "b3") (str "Dictation #3") [blob]
                     (Some [Some (str "Old.")]) Batch.complete
                     (str "gemini-2.5-pro") None (Some (ChatSession 1)) (Some [])
                     (Some false) in
  let bs := [noAudio; withAudio; processed] in
  let s := Batch.mkState bs None false false
             (Batch.mkContinuation None Batch.CIdle None) None None None None ∅ in
  let run := Batch.handleProcessAll (str "gemini-2.5-pro")
               (fun _ => (Ok [str "Lungs clear."], Ok (ChatSession 2))) (fun l => l) s [] in
  List.map Batch.status (Batch.markProcessing (Batch.batchesToProcess bs) bs)
  = [Batch.idle; Batch.processing; Batch.complete]
  /\ resultOf run = Ok tt
  /\ List.map Batch.status (Batch.batches (stateOf run))
     = [Batch.idle; Batch.complete; Batch.complete]
  /\ List.map Batch.findings (Batch.batches (stateOf run))
     = [None; Some [Some (str "Lungs clear.")]; Some [Some (str "Old.")]].
Proof. vm_compute. repeat split; reflexivity. Qed.

(** ** C1: a continue-dictation that fails *)

(** When the transcription of the new audio fails, or no stored audio is
    found, the single-mode handler throws to its caller and leaves the
    session as it was. *)
Lemma continue_transcription_failure (newAudioBlob : Blob) (e : exn)
    (session : result Chat) (w : Single.World) (log : list Call) :
  exists e' log',
    Single.handleContinueDictation newAudioBlob (Throw e) session w log = (Throw e', w, log').
Proof.
  unfold Single.handleContinueDictation. run.
  destruct (Single.audioBlob (Single.app w)); run; do 2 eexists; reflexivity.
Qed.

(** In batch mode the registry is written once, after both calls: a failure
    of either call leaves every batch as it was; the error goes to the
    continuation banner, not to the status of the batch. *)
Lemma batch_continue_failure_atomic (captured : option Blob)
    (transcription : result (list jsstring)) (session : result Chat)
    (s : Batch.State) (log : list Call) :
  (exists e, transcription = Throw e \/ session = Throw e) ->
  exists s' log',
    Batch.handleStopContinue captured transcription session s log = (Ok tt, s', log')
    /\ Batch.batches s' = Batch.batches s.
Proof.
  intros [e Hfail]. unfold Batch.handleStopContinue, Batch.continueWith. run.
  destruct (Batch.cont_batchId (Batch.continuationState s)) as [[|c p]|];
    try (do 2 eexists; split; reflexivity).
  destruct (usable captured); run; [|do 2 eexists; split; reflexivity].
  destruct (Batch.findBatch (c :: p) (Batch.batches s)) as [batch|];
    [destruct (Batch.findings batch)|]; run;
    try (do 2 eexists; split; reflexivity).
  destruct transcription as [fs|e1]; [destruct session as [ch|e2]|]; run;
    try (do 2 eexists; split; reflexivity).
  destruct Hfail; discriminate.
Qed.

(** In single mode the finding list and the audio are written before the
    chat session is created: when that creation throws, the error reaches
    the caller with the new findings already appended and the new audio
    already merged. *)
Lemma continue_chat_failure_general (newAudioBlob audio : Blob) (fresh : list jsstring)
    (e : exn) (w : Single.World) (log : list Call) :
  Single.audioBlob (Single.app w) = Some audio ->
  exists w' log',
    Single.handleContinueDictation newAudioBlob (Ok fresh) (Throw e) w log = (Throw e, w', log')
    /\ Single.findings (Single.app w') = Single.findings (Single.app w) ++ fresh
    /\ Single.audioBlob (Single.app w')
       = Some (newBlob [audio; newAudioBlob] (getCleanMimeType audio))
    /\ Single.chatHistory (Single.app w') = Single.chatHistory (Single.app w)
    /\ Single.status (Single.app w') = Single.status (Single.app w).
Proof.
  intros Ha. unfold Single.handleContinueDictation. run. rewrite Ha. run.
  do 2 eexists. repeat split; reflexivity.
Qed.

(** C1 (code defect, single mode).  A session with three findings and a
    merged audio artifact; the transcription of the new audio succeeds and
    the creation of the chat session throws.  The error reaches the caller
    and the status and the conversation are untouched, but the finding list
    already holds a fourth entry and the stored audio is already the merged
    one: the two were written before the call that failed. *)
Lemma continue_chat_failure_commits :
  let audio := mkBlob [1; 2; 3]%N (str "audio/webm;codecs=opus") in
  let newAudio := mkBlob [4; 5]%N (str "audio/webm;codecs=opus") in
  let history := [mkMessage AI (str "transcript")] in
  let w := Single.mkWorld
             (Single.mkApp Single.Success [str "F1"; str "F2"; str "F3"] None (Some audio)
                (Some (ChatSession 0)) history (str "gemini-2.5-pro"))
             (Single.mkView None None None None (Single.CIdle, None)) ∅ in
  exists w' log',
    Single.handleContinueDictation newAudio (Ok [str "F4"])
      (Throw (ErrorObj (str "chat unavailable"))) w []
    = (Throw (ErrorObj (str "chat unavailable")), w', log')
    /\ Single.findings (Single.app w') = [str "F1"; str "F2"; str "F3"; str "F4"]
    /\ Single.audioBlob (Single.app w') = Some (mkBlob [1; 2; 3; 4; 5]%N (str "audio/webm"))
    /\ Single.chatHistory (Single.app w') = history
    /\ Single.status (Single.app w') = Single.Success
    /\ Single.error (Single.app w') = None.
Proof.
  intros. do 2 eexists. repeat split; reflexivity.
Qed.

(** ** C5: one recording at a time *)

(** While the recorder runs on the active batch [A] and no other batch is
    marked recording, starting a recording on another batch [B] stops [A]
    first: [A] receives the captured artifact and becomes paused, [B]
    becomes recording, and no other batch changes. *)
Lemma record_switches_recording (s : Batch.State) (A B : Batch.Batch)
    (blob : Blob) (log : list Call) :
  Batch.isBusy s = false ->
  Batch.isMainRecording s = true ->
  Batch.activeBatchId s = Some (Batch.id A) ->
  Batch.id A <> [] ->
  Batch.id A <> Batch.id B ->
  (forall b, In b (Batch.batches s) -> Batch.status b = Batch.recording ->
             Batch.id b = Batch.id A) ->
  exists s',
    Batch.handleRecordOrResume B (Some blob) true s log = (Ok tt, s', log)
    /\ Batch.activeBatchId s' = Some (Batch.id B)
    /\ Forall2 (fun b b' =>
                  if Batch.id_eqb (Batch.id b) (Batch.id A)
                  then b' = Batch.withCapture blob Batch.paused b
                  else if Batch.id_eqb (Batch.id b) (Batch.id B)
                       then b' = Batch.withStatus Batch.recording b
                       else b' = b)
               (Batch.batches s) (Batch.batches s')
    /\ (forall b', In b' (Batch.batches s') -> Batch.status b' = Batch.recording ->
                   Batch.id b' = Batch.id B).
Proof.
  intros Hbusy Hrec Hactive HA Hne Honly.
  unfold Batch.handleRecordOrResume. run. rewrite Hbusy, Hrec, Hactive. run.
  destruct (Batch.id A) as [|c p] eqn:EA; [congruence|].
  assert (Hd : bool_decide (Some (c :: p) = Some (Batch.id B)) = false)
    by (apply bool_decide_eq_false; congruence).
  cbn [Batch.truthyId andb]. rewrite Hd. cbn [negb]. run.
  eexists. split; [reflexivity|]. split; [reflexivity|].
  cbn [Batch.batches].
  set (h := fun b : Batch.Batch =>
              if Batch.id_eqb (Batch.id b) (c :: p)
              then Batch.withCapture blob Batch.paused b
              else if Batch.id_eqb (Batch.id b) (Batch.id B)
                   then Batch.withStatus Batch.recording b
                   else b).
  match goal with
  | |- context [List.map ?g (List.map ?f (Batch.batches s))] =>
      assert (Hmap : List.map g (List.map f (Batch.batches s)) = List.map h (Batch.batches s))
  end.
  { rewrite List.map_map. apply List.map_ext. intros b. unfold h.
    destruct (Batch.id_eqb (Batch.id b) (c :: p)) eqn:E1; [|reflexivity].
    apply id_eqb_true in E1. cbn [Batch.id Batch.withCapture].
    assert (E2 : Batch.id_eqb (Batch.id b) (Batch.id B) = false)
      by (apply id_eqb_false; congruence).
    now rewrite E2. }
  rewrite Hmap. split.
  - apply Forall2_map_in. intros b _. unfold h.
    destruct (Batch.id_eqb (Batch.id b) (c :: p)); [reflexivity|].
    destruct (Batch.id_eqb (Batch.id b) (Batch.id B)); reflexivity.
  - intros b' Hin Hst. apply in_map_iff in Hin as (b & <- & Hin).
    specialize (Honly b Hin). unfold h in *.
    destruct (Batch.id_eqb (Batch.id b) (c :: p)) eqn:E1; [discriminate|].
    destruct (Batch.id_eqb (Batch.id b) (Batch.id B)) eqn:E2.
    + now apply id_eqb_true in E2.
    + apply id_eqb_false in E1. exfalso. apply E1. now apply Honly.
Qed.

(** C5 (code defect).  Two batches are added and a recording is started on
    the first; the save effect persists the registry, status included.  The
    component is then mounted afresh over that storage (a page reload): the
    first batch is restored as recording although the recorder is idle, and
    a recording started on the second batch stops nothing.  Both batches are
    now marked recording. *)
Lemma second_recording_after_restore :
  let model := str "gemini-2.5-pro" in
  let s1 := stateOf (Batch.addBatch (str "a") model (Batch.initial ∅) []) in
  let s2 := stateOf (Batch.addBatch (str "b") model s1 []) in
  let s3 := stateOf (Batch.handleRecordOrResume (List.nth 0 (Batch.batches s2)
                       (Batch.mkBatch [] [] [] None Batch.idle [] None None None None))
                       None true s2 []) in
  let s4 := stateOf (Batch.saveState s3 []) in
  let s5 := stateOf (Batch.loadState (fun _ => Throw NonError)
                       (Batch.initial (Batch.localStorage s4)) []) in
  let s6 := stateOf (Batch.handleRecordOrResume (List.nth 1 (Batch.batches s5)
                       (Batch.mkBatch [] [] [] None Batch.idle [] None None None None))
                       None true s5 []) in
  List.map Batch.id (Batch.batches s6) = [str "a"; str "b"]
  /\ List.map Batch.status (Batch.batches s3) = [Batch.recording; Batch.idle]
  /\ List.map Batch.status (Batch.batches s5) = [Batch.recording; Batch.idle]
  /\ Batch.isMainRecording s5 = false
  /\ Batch.activeBatchId s5 = None
  /\ List.map Batch.status (Batch.batches s6) = [Batch.recording; Batch.recording].
Proof. vm_compute. repeat split; reflexivity. Qed.

(* ===================================================================== *)
(** * Further properties *)
(* ===================================================================== *)

(** ** [split] and [join] in general *)

Lemma split_go_skip sep k s :
  k <= length s -> split_go sep k s = split_go sep 0 (skipn k s).
Proof.
  revert k; induction s as [|c s IH]; intros [|k] Hk; simpl in *; try reflexivity; try lia.
  apply IH. lia.
Qed.

Lemma startsWith_true_app p s :
  startsWith p s = true -> s = p ++ skipn (length p) s.
Proof.
  revert s; induction p as [|a p IH]; intros [|b s]; simpl; try reflexivity; try discriminate.
  intros H. apply andb_true_iff in H as [Hab H]. apply N.eqb_eq in Hab. subst b.
  f_equal. now apply IH.
Qed.

(** How [split] proceeds on a non-empty text. *)
Lemma split_cons sep c s :
  sep <> [] ->
  (startsWith sep (c :: s) = true
   /\ split sep (c :: s) = [] :: split sep (skipn (length sep) (c :: s)))
  \/ (startsWith sep (c :: s) = false
      /\ split sep (c :: s) = push_front c (split sep s)).
Proof.
  intros Hsep. unfold split. cbn [split_go].
  destruct (startsWith sep (c :: s)) eqn:E; [left|right; now split].
  split; [reflexivity|]. f_equal.
  destruct sep as [|a sep]; [congruence|].
  apply startsWith_length in E as L. cbn [length] in *.
  rewrite split_go_skip by lia. f_equal. simpl. now rewrite Nat.sub_0_r.
Qed.

Lemma skipn_shorter {A} (n : nat) (c : A) (s : list A) :
  0 < n -> length (skipn n (c :: s)) < length (c :: s).
Proof. intros H. rewrite length_skipn. simpl. lia. Qed.

(** Induction along the scan of [split]. *)
Lemma split_ind (sep : jsstring) (P : jsstring -> Prop) :
  sep <> [] ->
  P [] ->
  (forall c s, startsWith sep (c :: s) = true ->
               P (skipn (length sep) (c :: s)) -> P (c :: s)) ->
  (forall c s, startsWith sep (c :: s) = false -> P s -> P (c :: s)) ->
  forall s, P s.
Proof.
  intros Hsep Hnil Hmatch Hstep s.
  remember (length s) as n eqn:Hn. revert s Hn.
  induction n as [n IH] using lt_wf_ind. intros [|c s] Hn; [exact Hnil|].
  destruct (startsWith sep (c :: s)) eqn:E.
  - apply Hmatch; [exact E|]. eapply IH; [|reflexivity]. subst n.
    apply skipn_shorter. destruct sep; [congruence|simpl; lia].
  - apply Hstep; [exact E|]. eapply IH; [|reflexivity]. subst n. simpl. lia.
Qed.

Lemma join_cons sep x (parts : list jsstring) :
  parts <> [] -> join sep (x :: parts) = x ++ sep ++ join sep parts.
Proof. destruct parts; [congruence|reflexivity]. Qed.

Lemma join_push_front sep c (parts : list jsstring) :
  parts <> [] -> join sep (push_front c parts) = c :: join sep parts.
Proof.
  destruct parts as [|h [|y t]]; [congruence| |]; reflexivity.
Qed.

Lemma split_nonempty sep s : split sep s <> [].
Proof. apply split_go_nonempty. Qed.

(** Joining the pieces with the separator gives the text back. *)
Lemma join_split sep s : sep <> [] -> join sep (split sep s) = s.
Proof.
  intros Hsep. pattern s. apply (split_ind sep); clear s;
    [exact Hsep| |intros c s E IH|intros c s E IH].
  - reflexivity.
  - destruct (split_cons sep c s Hsep) as [[_ ->]|[E' _]]; [|congruence].
    rewrite join_cons by apply split_nonempty. rewrite IH. simpl.
    symmetry. now apply startsWith_true_app.
  - destruct (split_cons sep c s Hsep) as [[E' _]|[_ ->]]; [congruence|].
    rewrite join_push_front by apply split_nonempty. now rewrite IH.
Qed.

Lemma join_head sep h (t : list jsstring) : exists x, join sep (h :: t) = h ++ x.
Proof.
  destruct t as [|y t].
  - exists []. simpl. now rewrite app_nil_r.
  - eexists. reflexivity.
Qed.

(** No piece holds the separator. *)
Lemma split_pieces_clean sep s :
  sep <> [] -> Forall (fun piece => includes sep piece = false) (split sep s).
Proof.
  intros Hsep.
  assert (Hnil : includes sep [] = false) by (destruct sep; [congruence|reflexivity]).
  pattern s. apply (split_ind sep); clear s;
    [exact Hsep| |intros c s E IH|intros c s E IH].
  - repeat constructor. exact Hnil.
  - destruct (split_cons sep c s Hsep) as [[_ ->]|[E' _]]; [|congruence].
    constructor; [exact Hnil|exact IH].
  - destruct (split_cons sep c s Hsep) as [[E' _]|[_ ->]]; [congruence|].
    pose proof (join_split sep s Hsep) as J.
    pose proof (split_nonempty sep s) as Hne.
    destruct (split sep s) as [|h t]; [congruence|].
    pose proof (Forall_inv IH) as Hh. pose proof (Forall_inv_tail IH) as Ht.
    cbn [push_front]. constructor; [|exact Ht].
    cbn [includes]. rewrite Hh, orb_false_r.
    destruct (startsWith sep (c :: h)) eqn:Es; [|reflexivity].
    destruct (join_head sep h t) as [x Hx]. rewrite Hx in J.
    apply (startsWith_app_l _ _ x) in Es. simpl in Es. rewrite J in Es. congruence.
Qed.

(** A first piece that is empty, with more pieces after it, means that the
    text starts with the separator. *)
Lemma split_empty_head sep s (t : list jsstring) :
  sep <> [] -> split sep s = [] :: t -> t <> [] -> startsWith sep s = true.
Proof.
  intros Hsep Hs Ht. destruct s as [|c s]; [unfold split in Hs; simpl in Hs; congruence|].
  destruct (split_cons sep c s Hsep) as [[E _]|[_ E]]; [exact E|].
  rewrite E in Hs. pose proof (split_nonempty sep s).
  destruct (split sep s); [congruence|discriminate].
Qed.

(** No piece of a ['###'] split, the last one apart, ends in ['#']. *)
Lemma split_pieces_hash s :
  Forall (fun piece => endsWith [HASH] piece = false) (removelast (split SEP s)).
Proof.
  assert (Hsep : SEP <> []) by discriminate.
  pattern s. apply (split_ind SEP); clear s;
    [exact Hsep| |intros c s E IH|intros c s E IH].
  - constructor.
  - destruct (split_cons SEP c s Hsep) as [[_ ->]|[E' _]]; [|congruence].
    pose proof (split_nonempty SEP (skipn (length SEP) (c :: s))) as Hne.
    destruct (split SEP (skipn (length SEP) (c :: s))) as [|y t]; [congruence|].
    change (removelast ([] :: y :: t)) with ([] :: removelast (y :: t)).
    constructor; [reflexivity|exact IH].
  - destruct (split_cons SEP c s Hsep) as [[E' _]|[_ Hc]]; [congruence|].
    rewrite Hc. destruct (split SEP s) as [|h [|y t]] eqn:Hs.
    + constructor.
    + constructor.
    + change (removelast (push_front c (h :: y :: t)))
        with ((c :: h) :: removelast (y :: t)).
      change (removelast (h :: y :: t)) with (h :: removelast (y :: t)) in IH.
      pose proof (Forall_inv IH) as Hh. pose proof (Forall_inv_tail IH) as Ht.
      constructor; [|exact Ht].
      destruct h as [|d h]; [|now rewrite endsWith_single_cons].
      apply split_empty_head in Hs; [|exact Hsep|discriminate].
      apply startsWith_true_app in Hs. rewrite Hs in E.
      rewrite endsWith_single. cbn [last].
      unfold SEP in E. cbn [app startsWith] in E.
      rewrite !N.eqb_refl in E. cbn [andb] in E. rewrite andb_true_r in E. exact E.
Qed.

(** ** The finding model: what a parse holds, and re-encoding it *)

Lemma Forall_filter_keep {A} (P : A -> Prop) (q : A -> bool) (l : list A) :
  Forall P l -> Forall P (List.filter q l).
Proof.
  induction 1 as [|x l Hx _ IH]; simpl; [constructor|].
  destruct (q x); [now constructor|exact IH].
Qed.

Lemma Forall_removelast_filter {A} (Q : A -> Prop) (q : A -> bool) (l : list A) :
  Forall Q (removelast l) -> Forall Q (removelast (List.filter q l)).
Proof.
  induction l as [|x [|y l] IH]; intros H.
  - constructor.
  - simpl. destruct (q x); constructor.
  - change (removelast (x :: y :: l)) with (x :: removelast (y :: l)) in H.
    pose proof (Forall_inv H) as Hx. pose proof (Forall_inv_tail H) as Ht.
    specialize (IH Ht). cbn [List.filter] in *.
    destruct (q x); [|exact IH].
    destruct (if q y then y :: List.filter q l else List.filter q l) as [|z F];
      [constructor|].
    change (removelast (x :: z :: F)) with (x :: removelast (z :: F)).
    now constructor.
Qed.

Lemma filter_nonblank_clean (l : list jsstring) :
  Forall (fun s => blank s = false) (List.filter (fun p => negb (blank p)) l).
Proof.
  induction l as [|x l IH]; simpl; [constructor|].
  destruct (blank x) eqn:E; simpl; [exact IH|now constructor].
Qed.

(** The shape of a structured parse: at least two pieces, the first one not
    blank; the sub-points are the other pieces that are not blank. *)
Lemma parse_structured_shape f :
  isStructured (parseStructuredFinding f) = true ->
  exists h t, split SEP f = h :: t /\ t <> [] /\ blank h = false
              /\ parseStructuredFinding f
                 = mkParsed true h (List.filter (fun p => negb (blank p)) t).
Proof.
  intros H. pose proof H as H'. rewrite isStructured_parse in H'.
  apply andb_true_iff in H' as [Hlen Hb].
  apply Nat.ltb_lt in Hlen. apply negb_true_iff in Hb.
  unfold parseStructuredFinding.
  destruct (split SEP f) as [|h [|y t]] eqn:E; simpl in Hlen; try lia.
  cbn [hd] in Hb. exists h, (y :: t).
  split; [reflexivity|]. split; [discriminate|]. split; [exact Hb|].
  cbn [length hd skipn]. rewrite Hb. reflexivity.
Qed.

(** Parsing the encoding of a title and sub-points that could come out of a
    parse gives them back; without sub-points the result is unstructured. *)
Lemma parse_join h (pts : list jsstring) :
  blank h = false ->
  Forall (fun s => blank s = false) pts ->
  Forall (fun s => includes SEP s = false) (h :: pts) ->
  Forall (fun s => endsWith [HASH] s = false) (removelast (h :: pts)) ->
  title (parseStructuredFinding (join SEP (h :: pts))) = h
  /\ points (parseStructuredFinding (join SEP (h :: pts))) = pts
  /\ isStructured (parseStructuredFinding (join SEP (h :: pts)))
     = match pts with [] => false | _ :: _ => true end.
Proof.
  intros Hh Hb Hs He. unfold parseStructuredFinding.
  rewrite split_join; [|discriminate|exact Hs|exact He].
  destruct pts as [|y pts]; [now repeat split|].
  cbn [length hd skipn Nat.ltb Nat.leb andb]. rewrite Hh. cbn [negb andb title points isStructured].
  now rewrite filter_nonblank.
Qed.

(** Encoding the first piece and the non-blank other pieces of a text, and
    parsing the result. *)
Lemma reparse_pieces f h (t : list jsstring) :
  split SEP f = h :: t -> blank h = false ->
  let pts := List.filter (fun p => negb (blank p)) t in
  title (parseStructuredFinding (serialize (h :: pts))) = h
  /\ points (parseStructuredFinding (serialize (h :: pts))) = pts
  /\ isStructured (parseStructuredFinding (serialize (h :: pts)))
     = match pts with [] => false | _ :: _ => true end.
Proof.
  intros E Hh pts. subst pts. unfold serialize.
  pose proof (split_pieces_clean SEP f ltac:(discriminate)) as Hc. rewrite E in Hc.
  rewrite filter_nonblank by (constructor; [exact Hh|apply filter_nonblank_clean]).
  apply parse_join; [exact Hh|apply filter_nonblank_clean| |].
  - constructor; [exact (Forall_inv Hc)|].
    apply Forall_filter_keep. exact (Forall_inv_tail Hc).
  - assert (Hf : h :: List.filter (fun p => negb (blank p)) t
                 = List.filter (fun p => negb (blank p)) (h :: t))
      by (cbn [List.filter]; now rewrite Hh).
    rewrite Hf. apply Forall_removelast_filter. rewrite <- E. apply split_pieces_hash.
Qed.

(** Encoding the pieces of a text none of which is blank. *)
Lemma reencode_pieces f h (t : list jsstring) :
  split SEP f = h :: t -> Forall (fun s => blank s = false) (h :: t) ->
  serialize (h :: List.filter (fun p => negb (blank p)) t) = f.
Proof.
  intros E Hnb.
  rewrite (filter_nonblank t) by exact (Forall_inv_tail Hnb).
  unfold serialize. rewrite filter_nonblank by exact Hnb.
  rewrite <- E. apply join_split. discriminate.
Qed.

(** X1.  The segments of a structured parse: the title is not blank, no
    sub-point is blank, and neither the title nor a sub-point holds the
    delimiter ["###"]. *)
Theorem parsed_segments_clean (f : jsstring) :
  isStructured (parseStructuredFinding f) = true ->
  blank (title (parseStructuredFinding f)) = false
  /\ Forall (fun s => blank s = false) (points (parseStructuredFinding f))
  /\ Forall (fun s => includes SEP s = false)
            (title (parseStructuredFinding f) :: points (parseStructuredFinding f)).
Proof.
  intros H. destruct (parse_structured_shape f H) as (h & t & E & _ & Hh & ->).
  cbn [title points]. split; [exact Hh|]. split; [apply filter_nonblank_clean|].
  pose proof (split_pieces_clean SEP f ltac:(discriminate)) as Hc. rewrite E in Hc.
  constructor; [exact (Forall_inv Hc)|].
  apply Forall_filter_keep. exact (Forall_inv_tail Hc).
Qed.

Lemma parsed_segments_clean_witness :
  isStructured (parseStructuredFinding (str "IMPRESSION:### ###a####b")) = true
  /\ points (parseStructuredFinding (str "IMPRESSION:### ###a####b")) = [str "a"; str "#b"]
  /\ Forall (fun s => includes SEP s = false)
       (title (parseStructuredFinding (str "IMPRESSION:### ###a####b"))
        :: points (parseStructuredFinding (str "IMPRESSION:### ###a####b"))).
Proof.
  split; [reflexivity|]. split; [reflexivity|].
  apply (parsed_segments_clean (str "IMPRESSION:### ###a####b")). reflexivity.
Defined.

(** X2.  Decoding then encoding: when none of the ["###"]-separated parts of
    a structured finding is blank, joining its title and sub-points with
    ["###"] (the re-encoding of [handleSaveEdit]) gives the finding back. *)
Theorem parse_then_serialize (f : jsstring) :
  isStructured (parseStructuredFinding f) = true ->
  Forall (fun s => blank s = false) (split SEP f) ->
  serialize (title (parseStructuredFinding f) :: points (parseStructuredFinding f)) = f.
Proof.
  intros H Hnb. destruct (parse_structured_shape f H) as (h & t & E & _ & Hh & ->).
  cbn [title points]. rewrite E in Hnb. now apply reencode_pieces.
Qed.

Lemma parse_then_serialize_witness :
  serialize (title (parseStructuredFinding (str "A###B###C"))
             :: points (parseStructuredFinding (str "A###B###C")))
  = str "A###B###C".
Proof.
  apply (parse_then_serialize (str "A###B###C")); [reflexivity|].
  repeat (constructor; try reflexivity).
Defined.

(** X3.  Re-encoding normalises: for every structured finding, encoding its
    title and sub-points and parsing again gives the same title and the
    same sub-points; the result is structured unless every sub-part was
    blank, in which case the finding has become unstructured. *)
Theorem reencode_normalises (f : jsstring) :
  isStructured (parseStructuredFinding f) = true ->
  let p := parseStructuredFinding f in
  let p' := parseStructuredFinding (serialize (title p :: points p)) in
  title p' = title p /\ points p' = points p
  /\ isStructured p' = match points p with [] => false | _ :: _ => true end.
Proof.
  intros H p p'. subst p p'.
  destruct (parse_structured_shape f H) as (h & t & E & _ & Hh & ->).
  cbn [title points]. now apply (reparse_pieces f).
Qed.

Lemma reencode_normalises_witness :
  let p := parseStructuredFinding (str "A### ###B#") in
  let p' := parseStructuredFinding (serialize (title p :: points p)) in
  isStructured p = true /\ points p = [str "B#"]
  /\ title p' = title p /\ points p' = points p /\ isStructured p' = true.
Proof.
  intros p p'. split; [reflexivity|]. split; [reflexivity|].
  apply (reencode_normalises (str "A### ###B#")). reflexivity.
Defined.

(** ** The edit cycle: [handleStartEdit] then [handleSaveEdit] *)

Lemma includes_single_In c s : includes [c] s = false <-> ~ In c s.
Proof.
  induction s as [|x s IH]; simpl; [tauto|].
  rewrite andb_true_r, orb_false_iff, IH, N.eqb_neq. intuition congruence.
Qed.

Lemma join_In sep (parts : list jsstring) piece x :
  In piece parts -> In x piece -> In x (join sep parts).
Proof.
  induction parts as [|y [|z parts] IH]; intros Hp Hx; [contradiction| |].
  - destruct Hp as [->|[]]. exact Hx.
  - change (join sep (y :: z :: parts)) with (y ++ sep ++ join sep (z :: parts)).
    rewrite !in_app_iff. destruct Hp as [->|Hp]; [now left|].
    right. right. now apply IH.
Qed.

(** The code units of a piece are code units of the text. *)
Lemma split_piece_chars sep s piece x :
  sep <> [] -> In piece (split sep s) -> In x piece -> In x s.
Proof.
  intros Hsep Hp Hx. rewrite <- (join_split sep s Hsep). now apply (join_In _ _ piece).
Qed.

Lemma split_char_app c a rest :
  ~ In c a -> split [c] (a ++ c :: rest) = a :: split [c] rest.
Proof.
  induction a as [|x a IH]; intros Hc.
  - destruct (split_cons [c] c rest ltac:(discriminate)) as [[_ E]|[E _]]; [exact E|].
    simpl in E. now rewrite N.eqb_refl in E.
  - rewrite <- app_comm_cons.
    destruct (split_cons [c] x (a ++ c :: rest) ltac:(discriminate)) as [[E _]|[_ E]].
    + simpl in E. rewrite andb_true_r in E. apply N.eqb_eq in E. subst x.
      exfalso. apply Hc. now left.
    + rewrite E, IH; [reflexivity|]. intros Hin. apply Hc. now right.
Qed.

(** On pieces that do not hold the one-unit separator, [split] undoes
    [join]. *)
Lemma split_join_char c (segs : list jsstring) :
  segs <> [] -> Forall (fun s => ~ In c s) segs -> split [c] (join [c] segs) = segs.
Proof.
  induction segs as [|x [|y segs] IH]; intros Hne Hall; [congruence| |].
  - simpl. apply split_without. apply includes_single_In. exact (Forall_inv Hall).
  - change (join [c] (x :: y :: segs)) with (x ++ c :: join [c] (y :: segs)).
    rewrite split_char_app by exact (Forall_inv Hall).
    f_equal. apply IH; [discriminate|exact (Forall_inv_tail Hall)].
Qed.

Lemma blank_of_whitespace s : forallb isWhiteSpace s = true -> blank s = true.
Proof.
  intros H. apply trimStart_nil in H. unfold blank, trim, trimEnd. now rewrite H.
Qed.

Lemma textForEditing_renderPlain f : ResultsDisplay.textForEditing f = renderPlain f.
Proof. reflexivity. Qed.

(** X4.  Opening the editor on a finding that holds no line break and saving
    the untouched text stores a finding with the same title and the same
    sub-points; when none of the ["###"]-separated parts of the finding is
    blank, it stores the very same string. *)
Theorem edit_unchanged_roundtrip (f : jsstring) :
  includes NL f = false ->
  let saved := savedText f (ResultsDisplay.textForEditing f) in
  title (parseStructuredFinding saved) = title (parseStructuredFinding f)
  /\ points (parseStructuredFinding saved) = points (parseStructuredFinding f)
  /\ (Forall (fun s => blank s = false) (split SEP f) -> saved = f).
Proof.
  intros Hnl saved. subst saved. unfold savedText, ResultsDisplay.textForEditing.
  destruct (isStructured (parseStructuredFinding f)) eqn:H; [|now repeat split].
  assert (Hlines : split NL (join NL (title (parseStructuredFinding f)
                                      :: points (parseStructuredFinding f)))
                   = title (parseStructuredFinding f) :: points (parseStructuredFinding f)).
  { apply split_join_char; [discriminate|].
    destruct (parse_structured_shape f H) as (h & t & E & _ & _ & ->). cbn [title points].
    assert (Hall : Forall (fun s => ~ In NEWLINE s) (h :: t)).
    { apply List.Forall_forall. intros piece Hp Hx.
      rewrite <- E in Hp.
      apply (split_piece_chars SEP f piece NEWLINE ltac:(discriminate) Hp) in Hx.
      now apply includes_single_In in Hnl. }
    constructor; [exact (Forall_inv Hall)|].
    apply Forall_filter_keep. exact (Forall_inv_tail Hall). }
  rewrite Hlines.
  destruct (parse_structured_shape f H) as (h & t & E & _ & Hh & ->). cbn [title points].
  destruct (reparse_pieces f h t E Hh) as (Ht & Hp & _).
  split; [exact Ht|]. split; [exact Hp|].
  intros Hnb. rewrite E in Hnb. now apply reencode_pieces.
Qed.

Lemma edit_unchanged_roundtrip_witness :
  includes NL (str "IMP:###No mass.###Stable.") = false
  /\ savedText (str "IMP:###No mass.###Stable.")
       (ResultsDisplay.textForEditing (str "IMP:###No mass.###Stable."))
     = str "IMP:###No mass.###Stable.".
Proof.
  split; [reflexivity|].
  pose proof (edit_unchanged_roundtrip (str "IMP:###No mass.###Stable.") eq_refl)
    as (_ & _ & Hsame).
  apply Hsame. vm_compute. repeat constructor.
Defined.

(** X5.  A structured finding whose draft was reduced to a single non-blank
    line is stored as that line, and reads back as an unstructured finding
    when the line holds no ["###"]. *)
Theorem edit_collapse_demotes (originalFinding line : jsstring) :
  isStructured (parseStructuredFinding originalFinding) = true ->
  blank line = false ->
  includes NL line = false ->
  savedText originalFinding line = line
  /\ (includes SEP line = false ->
      parseStructuredFinding (savedText originalFinding line) = mkParsed false line []).
Proof.
  intros H Hb Hnl.
  assert (E : savedText originalFinding line = line).
  { unfold savedText, serialize. rewrite H, (split_without NL line Hnl).
    cbn [List.filter]. now rewrite Hb. }
  split; [exact E|]. intros Hs. rewrite E. unfold parseStructuredFinding.
  now rewrite (split_without SEP line Hs).
Qed.

Lemma edit_collapse_demotes_witness :
  savedText (str "A###B") (str "Only one line.") = str "Only one line."
  /\ parseStructuredFinding (savedText (str "A###B") (str "Only one line."))
     = mkParsed false (str "Only one line.") [].
Proof.
  destruct (edit_collapse_demotes (str "A###B") (str "Only one line."))
    as [E U]; try reflexivity.
  split; [exact E|apply U; reflexivity].
Defined.

Lemma savedText_blank (originalFinding editingText : jsstring) :
  isStructured (parseStructuredFinding originalFinding) = true ->
  blank editingText = true ->
  savedText originalFinding editingText = [].
Proof.
  intros H Hb. unfold savedText, serialize. rewrite H.
  apply blank_whitespace in Hb.
  assert (Hall : Forall (fun piece => blank piece = true) (split NL editingText)).
  { apply List.Forall_forall. intros piece Hp. apply blank_of_whitespace.
    apply forallb_forall. intros x Hx.
    apply (split_piece_chars NL editingText piece x ltac:(discriminate) Hp) in Hx.
    rewrite forallb_forall in Hb. now apply Hb. }
  induction Hall as [|piece l Hpiece _ IH]; [reflexivity|].
  cbn [List.filter]. rewrite Hpiece. exact IH.
Qed.

(** X6.  Saving a blank draft (empty or white space only) of a structured
    finding does not remove the finding and is not rejected: the entry is
    replaced by the empty string, the list keeping its length. *)
Theorem save_blank_draft (w : Single.World) (log : list Call) (editingIndex : nat)
    (originalFinding editingText : jsstring) :
  Single.findings (Single.app w) !! editingIndex = Some originalFinding ->
  isStructured (parseStructuredFinding originalFinding) = true ->
  blank editingText = true ->
  exists w',
    Single.handleSaveEdit editingIndex editingText w log = (Ok tt, w', log)
    /\ Single.findings (Single.app w') = <[editingIndex := []]> (Single.findings (Single.app w))
    /\ length (Single.findings (Single.app w')) = length (Single.findings (Single.app w))
    /\ Single.findings (Single.app w') !! editingIndex = Some [].
Proof.
  intros Hi H Hb. unfold Single.handleSaveEdit, Single.handleUpdateFinding. run.
  rewrite Hi. run. rewrite Hi, (savedText_blank _ _ H Hb).
  eexists. split; [reflexivity|]. cbn [Single.app Single.findings].
  split; [reflexivity|]. split; [apply length_insert|].
  apply list_lookup_insert_eq. now apply lookup_lt_Some in Hi.
Qed.

Lemma save_blank_draft_witness :
  let w := Single.mkWorld
             (Single.mkApp Single.Success [str "A###B"; str "C"] None None None []
                (str "gemini-2.5-pro"))
             (Single.mkView None None None None (Single.CIdle, None)) ∅ in
  exists w',
    Single.handleSaveEdit 0 (str " " ++ NL ++ str "  ") w [] = (Ok tt, w', [])
    /\ Single.findings (Single.app w') = [[]; str "C"].
Proof.
  intros w.
  destruct (save_blank_draft w [] 0 (str "A###B") (str " " ++ NL ++ str "  "))
    as (w' & E & Hf & _); try reflexivity.
  exists w'. split; [exact E|exact Hf].
Defined.



(** ** The base64 codec: [blobToBase64] and [base64ToBlob] *)

Lemma triple_ind {A} (P : list A -> Prop) :
  P [] -> (forall a, P [a]) -> (forall a b, P [a; b]) ->
  (forall a b c rest, P rest -> P (a :: b :: c :: rest)) ->
  forall l, P l.
Proof.
  intros H0 H1 H2 H3 l.
  remember (length l) as n eqn:Hn. revert l Hn.
  induction n as [n IH] using lt_wf_ind. intros [|a [|b [|c rest]]] Hn; auto.
  apply H3. eapply IH; [|reflexivity]. subst n. simpl. lia.
Qed.

Lemma b64_char_range (v : N) :
  let c := b64_char v in
  ((65 <= c <= 90) \/ (97 <= c <= 122) \/ (48 <= c <= 57) \/ c = 43 \/ c = 47)%N.
Proof.
  unfold b64_char.
  destruct (N.ltb_spec v 26); [lia|].
  destruct (N.ltb_spec v 52); [lia|].
  destruct (N.ltb_spec v 62); [lia|].
  destruct (N.eqb_spec v 62); lia.
Qed.

Lemma b64_value_char (v : N) : (v < 64)%N -> b64_value (b64_char v) = Some v.
Proof.
  intros Hv. unfold b64_char, b64_value.
  destruct (N.ltb_spec v 26).
  { replace ((65 <=? v + 65) && (v + 65 <=? 90))%N with true
      by (symmetry; apply andb_true_iff; split; apply N.leb_le; lia).
    f_equal. lia. }
  destruct (N.ltb_spec v 52).
  { replace ((65 <=? v + 71) && (v + 71 <=? 90))%N with false
      by (symmetry; apply andb_false_iff; right; apply N.leb_gt; lia).
    replace ((97 <=? v + 71) && (v + 71 <=? 122))%N with true
      by (symmetry; apply andb_true_iff; split; apply N.leb_le; lia).
    f_equal. lia. }
  destruct (N.ltb_spec v 62).
  { replace ((65 <=? v - 4) && (v - 4 <=? 90))%N with false
      by (symmetry; apply andb_false_iff; left; apply N.leb_gt; lia).
    replace ((97 <=? v - 4) && (v - 4 <=? 122))%N with false
      by (symmetry; apply andb_false_iff; left; apply N.leb_gt; lia).
    replace ((48 <=? v - 4) && (v - 4 <=? 57))%N with true
      by (symmetry; apply andb_true_iff; split; apply N.leb_le; lia).
    f_equal. lia. }
  destruct (N.eqb_spec v 62); [subst; reflexivity|].
  assert (v = 63%N) by lia. subst. reflexivity.
Qed.

Lemma b64_char_not_pad (v : N) : (b64_char v =? 61)%N = false.
Proof. apply N.eqb_neq. pose proof (b64_char_range v). simpl in *. lia. Qed.

Ltac bits q :=
  destruct q as [|q]; [reflexivity|];
  do 7 (try (destruct q as [q|q|]; try reflexivity)).

(** The patterns of [strip_padding], as tests on the last two code units. *)
Lemma strip_padding_test (s : jsstring) :
  strip_padding s =
  if (length s mod 4 =? 0)%nat
  then match rev s with
       | q :: p :: r =>
           if (q =? 61)%N then (if (p =? 61)%N then rev r else rev (p :: r)) else s
       | [q] => if (q =? 61)%N then [] else s
       | [] => s
       end
  else s.
Proof.
  unfold strip_padding. destruct (length s mod 4 =? 0)%nat; [|reflexivity].
  destruct (rev s) as [|q [|p r]]; [reflexivity| |].
  - bits q.
  - bits q. bits p.
Qed.

Lemma mod4_step (n : nat) : (S (S (S (S n)))) mod 4 = n mod 4.
Proof. replace (S (S (S (S n)))) with (n + 1 * 4) by lia. apply Nat.Div0.mod_add. Qed.

Lemma strip_padding_cons4 c1 c2 c3 c4 (E : jsstring) :
  2 <= length E ->
  strip_padding (c1 :: c2 :: c3 :: c4 :: E) = c1 :: c2 :: c3 :: c4 :: strip_padding E.
Proof.
  intros Hlen. rewrite !strip_padding_test. cbn [length]. rewrite mod4_step.
  destruct (length E mod 4 =? 0)%nat; [|reflexivity].
  change (c1 :: c2 :: c3 :: c4 :: E) with ([c1; c2; c3; c4] ++ E) at 1.
  rewrite rev_app_distr.
  destruct (rev E) as [|q [|p r]] eqn:R.
  - apply (f_equal (@length N)) in R. rewrite length_rev in R. simpl in R. lia.
  - apply (f_equal (@length N)) in R. rewrite length_rev in R. simpl in R. lia.
  - cbn [app]. destruct (q =? 61)%N; [|reflexivity].
    destruct (p =? 61)%N.
    + rewrite rev_app_distr, rev_involutive. reflexivity.
    + change (p :: r ++ rev [c1; c2; c3; c4]) with ((p :: r) ++ rev [c1; c2; c3; c4]).
      rewrite rev_app_distr, rev_involutive. reflexivity.
Qed.

Lemma b64_encode_length (bytes : list N) : bytes <> [] -> 2 <= length (b64_encode bytes).
Proof. destruct bytes as [|a [|b [|c rest]]]; [congruence| | |]; simpl; lia. Qed.

(** Dropping the padding of an encoding. *)
Lemma strip_padding_encode (bytes : list N) :
  strip_padding (b64_encode bytes) = b64_encode_unpadded bytes.
Proof.
  induction bytes as [|a|a b|a b c rest IH] using triple_ind.
  - reflexivity.
  - reflexivity.
  - rewrite strip_padding_test. cbn [b64_encode b64_encode_unpadded length rev app].
    change (4 mod 4 =? 0)%nat with true. change (61 =? 61)%N with true. cbv iota.
    rewrite b64_char_not_pad. reflexivity.
  - cbn [b64_encode b64_encode_unpadded]. destruct rest as [|x rest].
    + rewrite strip_padding_test. cbn [b64_encode b64_encode_unpadded length rev app].
      change (4 mod 4 =? 0)%nat with true. cbv iota.
      rewrite b64_char_not_pad. reflexivity.
    + rewrite strip_padding_cons4 by (apply b64_encode_length; discriminate).
      now rewrite IH.
Qed.

Lemma unpadded_length (bytes : list N) :
  (length (b64_encode_unpadded bytes) mod 4 =? 1)%nat = false.
Proof.
  induction bytes as [|a|a b|a b c rest IH] using triple_ind; try reflexivity.
  cbn [b64_encode_unpadded length]. now rewrite mod4_step.
Qed.

Lemma b64_encode_chars (bytes : list N) :
  Forall (fun c => (43 <= c)%N /\ c <> 44%N) (b64_encode bytes).
Proof.
  assert (Hc : forall v, (43 <= b64_char v)%N /\ b64_char v <> 44%N).
  { intros v. pose proof (b64_char_range v). simpl in *. lia. }
  induction bytes as [|a|a b|a b c rest IH] using triple_ind;
    cbn [b64_encode]; repeat (constructor; [first [apply Hc|lia]|]); auto.
Qed.

Lemma sextet_arith (a b c : N) :
  (a < 256 -> b < 256 -> c < 256 ->
   (a / 4 < 64 /\ (a mod 4) * 16 + b / 16 < 64
    /\ (b mod 16) * 4 + c / 64 < 64 /\ c mod 64 < 64)
   /\ (a / 4) * 4 + ((a mod 4) * 16 + b / 16) / 16 = a
   /\ (((a mod 4) * 16 + b / 16) mod 16) * 16 + ((b mod 16) * 4 + c / 64) / 4 = b
   /\ (((b mod 16) * 4 + c / 64) mod 4) * 64 + c mod 64 = c)%N.
Proof.
  intros Ha Hb Hc.
  pose proof (N.div_mod a 4 ltac:(lia)). pose proof (N.mod_lt a 4 ltac:(lia)).
  pose proof (N.div_mod b 16 ltac:(lia)). pose proof (N.mod_lt b 16 ltac:(lia)).
  pose proof (N.div_mod c 64 ltac:(lia)). pose proof (N.mod_lt c 64 ltac:(lia)).
  generalize dependent (a / 4)%N. generalize dependent (a mod 4)%N.
  generalize dependent (b / 16)%N. generalize dependent (b mod 16)%N.
  generalize dependent (c / 64)%N. generalize dependent (c mod 64)%N.
  intros rc Hrc qc Hc' rb Hrb qb Hb' ra Hra qa Ha'.
  assert (E1 : ((ra * 16 + qb) / 16 = ra)%N).
  { symmetry. apply (N.div_unique _ 16 _ qb); lia. }
  assert (E2 : ((ra * 16 + qb) mod 16 = qb)%N).
  { symmetry. apply (N.mod_unique _ 16 ra); lia. }
  assert (E3 : ((rb * 4 + qc) / 4 = rb)%N).
  { symmetry. apply (N.div_unique _ 4 _ qc); lia. }
  assert (E4 : ((rb * 4 + qc) mod 4 = qc)%N).
  { symmetry. apply (N.mod_unique _ 4 rb); lia. }
  rewrite E1, E2, E3, E4. repeat split; lia.
Qed.

(** The sextets of an encoding decode to the bytes. *)
Lemma decode_unpadded (bytes : list N) :
  Forall (fun x => (x < 256)%N) bytes ->
  exists vs, b64_values (b64_encode_unpadded bytes) = Some vs /\ b64_bytes vs = bytes.
Proof.
  induction bytes as [|a|a b|a b c rest IH] using triple_ind; intros Hall.
  - now exists [].
  - pose proof (Forall_inv Hall) as Ha.
    destruct (sextet_arith a 0 0 Ha ltac:(lia) ltac:(lia)) as ((H1 & H2 & _) & E1 & _).
    change (0 / 16)%N with 0%N in *. rewrite N.add_0_r in *.
    eexists. cbn [b64_encode_unpadded b64_values].
    rewrite !b64_value_char by assumption. split; [reflexivity|].
    cbn [b64_bytes]. now rewrite E1.
  - pose proof (Forall_inv Hall) as Ha. pose proof (Forall_inv (Forall_inv_tail Hall)) as Hb.
    destruct (sextet_arith a b 0 Ha Hb ltac:(lia)) as ((H1 & H2 & H3 & _) & E1 & E2 & _).
    change (0 / 64)%N with 0%N in *. rewrite N.add_0_r in *.
    eexists. cbn [b64_encode_unpadded b64_values].
    rewrite !b64_value_char by assumption. split; [reflexivity|].
    cbn [b64_bytes]. now rewrite E1, E2.
  - pose proof (Forall_inv Hall) as Ha. pose proof (Forall_inv (Forall_inv_tail Hall)) as Hb.
    pose proof (Forall_inv (Forall_inv_tail (Forall_inv_tail Hall))) as Hc.
    destruct (IH (Forall_inv_tail (Forall_inv_tail (Forall_inv_tail Hall)))) as (vs & Ev & Eb).
    destruct (sextet_arith a b c Ha Hb Hc) as ((H1 & H2 & H3 & H4) & E1 & E2 & E3).
    eexists. cbn [b64_encode_unpadded b64_values].
    rewrite !b64_value_char by assumption. rewrite Ev. split; [reflexivity|].
    cbn [b64_bytes]. now rewrite E1, E2, E3, Eb.
Qed.

Lemma filter_all {A} (f : A -> bool) (l : list A) :
  Forall (fun x => f x = true) l -> List.filter f l = l.
Proof. induction 1 as [|x l Hx _ IH]; simpl; [reflexivity|]. now rewrite Hx, IH. Qed.

Lemma atob_encode (bytes : list N) :
  Forall (fun x => (x < 256)%N) bytes -> atob (b64_encode bytes) = Some bytes.
Proof.
  intros Hall. unfold atob. rewrite filter_all.
  - rewrite strip_padding_encode, unpadded_length.
    destruct (decode_unpadded bytes Hall) as (vs & -> & Eb). simpl. now rewrite Eb.
  - eapply List.Forall_impl; [|apply b64_encode_chars]. intros c [Hc _]. cbn [existsb].
    repeat match goal with
           | |- context [(c =? ?k)%N] =>
               replace (c =? k)%N with false by (symmetry; apply N.eqb_neq; lia)
           end.
    reflexivity.
Qed.



(** ** Content types: [getCleanMimeType] and the download extension *)

Lemma hd_split_prefix sep s : sep <> [] -> exists x, s = hd [] (split sep s) ++ x.
Proof.
  intros Hsep. pose proof (join_split sep s Hsep) as J.
  pose proof (split_nonempty sep s) as Hne.
  destruct (split sep s) as [|h t]; [congruence|].
  destruct (join_head sep h t) as [x Hx]. exists x. cbn [hd]. congruence.
Qed.

Lemma hd_split_clean sep s : sep <> [] -> includes sep (hd [] (split sep s)) = false.
Proof.
  intros Hsep. pose proof (split_pieces_clean sep s Hsep) as Hc.
  destruct (split sep s) as [|h t]; [destruct sep; [congruence|reflexivity]|].
  exact (Forall_inv Hc).
Qed.

Lemma startsWith_prefix_false q p x :
  startsWith q (p ++ x) = false -> startsWith q p = false.
Proof.
  intros H. destruct (startsWith q p) eqn:E; [|reflexivity].
  apply (startsWith_app_l _ _ x) in E. congruence.
Qed.

(** X9.  The content type sent to the service and written to the snapshot
    carries no parameter: whatever the type of the blob, the cleaned type
    holds no [";"]; it is a prefix of the blob's type unless that type is
    empty or a WebM type; and cleaning is idempotent on every blob whose
    cleaned type is not empty. *)
Theorem clean_mime_type_spec (b : Blob) :
  includes (str ";") (getCleanMimeType b) = false
  /\ (blob_type b <> [] ->
      startsWith (str "audio/webm") (blob_type b) = false ->
      startsWith (str "video/webm") (blob_type b) = false ->
      exists params, blob_type b = getCleanMimeType b ++ params)
  /\ (getCleanMimeType b <> [] ->
      forall bytes, getCleanMimeType (mkBlob bytes (getCleanMimeType b)) = getCleanMimeType b).
Proof.
  assert (Hsep : str ";" <> []) by discriminate.
  unfold getCleanMimeType. destruct b as [bs t]. cbn [blob_type].
  destruct t as [|c t];
    [split; [reflexivity|split; [congruence|intros _ bytes; reflexivity]]|].
  destruct (startsWith (str "audio/webm") (c :: t)) eqn:Ea;
    [split; [reflexivity|split; [congruence|intros _ bytes; reflexivity]]|].
  destruct (startsWith (str "video/webm") (c :: t)) eqn:Ev;
    [split; [reflexivity|split; [congruence|intros _ bytes; reflexivity]]|].
  cbn [orb]. split; [now apply hd_split_clean|].
  split; [intros _ _ _; now apply hd_split_prefix|].
  intros Hne bytes.
  destruct (hd_split_prefix (str ";") (c :: t) Hsep) as [x Hx].
  pose proof (hd_split_clean (str ";") (c :: t) Hsep) as Hclean.
  destruct (hd [] (split (str ";") (c :: t))) as [|d p] eqn:Ep; [congruence|].
  rewrite Hx in Ea, Ev.
  rewrite (startsWith_prefix_false _ _ _ Ea), (startsWith_prefix_false _ _ _ Ev).
  cbn [orb]. now rewrite (split_without _ _ Hclean).
Qed.

Lemma clean_mime_type_spec_witness :
  getCleanMimeType (mkBlob [] (str "audio/mp4;codecs=mp4a.40.2")) = str "audio/mp4"
  /\ getCleanMimeType (mkBlob [1%N] (getCleanMimeType (mkBlob [] (str "audio/mp4;codecs=mp4a.40.2"))))
     = str "audio/mp4".
Proof.
  split; [reflexivity|].
  destruct (clean_mime_type_spec (mkBlob [] (str "audio/mp4;codecs=mp4a.40.2")))
    as (_ & _ & Hidem).
  rewrite Hidem; [reflexivity|discriminate].
Defined.

(** X10.  The extension of a downloaded audio file holds neither ["/"] nor
    [";"], whatever the type of the blob. *)
Theorem download_extension_clean (b : Blob) :
  includes (str ";") (ResultsDisplay.downloadExtension b) = false
  /\ includes (str "/") (ResultsDisplay.downloadExtension b) = false.
Proof.
  unfold ResultsDisplay.downloadExtension.
  destruct (bool_decide (blob_type b = str "audio/mpeg")); [split; reflexivity|].
  split; [apply hd_split_clean; discriminate|].
  set (sub := orString (split (str "/") (blob_type b) !! 1) (str "webm")).
  assert (Hsub : includes (str "/") sub = false).
  { subst sub. pose proof (split_pieces_clean (str "/") (blob_type b) ltac:(discriminate)) as Hc.
    destruct (split (str "/") (blob_type b) !! 1) as [[|c p]|] eqn:E; try reflexivity.
    cbn [orString]. rewrite List.Forall_forall in Hc. apply Hc.
    now apply list_elem_of_lookup_2, list_elem_of_In in E. }
  apply includes_single_In. intros Hin. apply includes_single_In in Hsub. apply Hsub.
  destruct (hd_split_prefix (str ";") sub ltac:(discriminate)) as [x Hx].
  rewrite Hx. apply in_or_app. now left.
Qed.

(** ** Snapshots: the save effects and the load effects *)

Ltac run_app :=
  cbv [App.lift App.setIsChatting App.pushMessage await]; run;
  cbn [App.world App.isChatting].




(** X12.  A reset clears the snapshot: [resetSingleMode] returns normally
    and leaves an idle, empty session; the save effect that runs on this
    state writes nothing, the storage key is gone, and a freshly mounted
    [App] over that storage stays in its initial state without any client
    call. *)
Theorem reset_clears_snapshot (s : App.Session) (stored : bool)
    (session : result Chat) (log : list Call) :
  let s1 := stateOf (App.resetSingleMode s log) in
  let w2 := stateOf (App.saveState stored (App.world s1) log) in
  resultOf (App.resetSingleMode s log) = Ok tt
  /\ App.isChatting s1 = false
  /\ Single.app w2
     = Single.mkApp Single.Idle [] None None None []
         (Single.selectedModel (Single.app (App.world s)))
  /\ Single.localStorage w2 !! Single.SINGLE_MODE_STORAGE_KEY = None
  /\ Single.loadState session (Single.initial (Single.localStorage w2)) []
     = (Ok tt, Single.initial (Single.localStorage w2), []).
Proof.
  intros s1 w2. subst w2 s1. unfold App.resetSingleMode. run_app.
  unfold App.saveState. run_app. unfold resultOf, stateOf. cbn [fst snd App.isChatting App.world
    Single.app Single.localStorage].
  split; [reflexivity|]. split; [reflexivity|]. split; [reflexivity|].
  split; [apply lookup_delete_eq|].
  unfold Single.loadState, Single.initial. run. now rewrite lookup_delete_eq.
Qed.

(** The batch that the load effect restores from what the save effect wrote
    for [b]: the audio keeps its bytes and gets the cleaned type; the chat
    session is a new one, or none. *)
Lemma restore_persisted (session : Batch.SavedBatch -> result Chat) (b : Batch.Batch)
    (s : Batch.State) (log : list Call) :
  Forall (fun blob => Forall (fun x => (x < 256)%N) (blob_bytes blob)) (Batch.audioBlobs b) ->
  exists c log',
    Batch.restoreOne session (Batch.persisted b) s log
    = (Ok (Batch.mkBatch (Batch.id b) (Batch.name b)
             (List.map (fun blob => mkBlob (blob_bytes blob) (getCleanMimeType blob))
                       (Batch.audioBlobs b))
             (Batch.findings b) (Batch.status b) (Batch.selectedModel b) (Batch.error_ b)
             c (Batch.chatHistory b) (Batch.isChatting b)), s, log').
Proof.
  intros Hbytes. unfold Batch.restoreOne, Batch.persisted.
  cbn [Batch.saved_id Batch.saved_name Batch.saved_audioBlobs Batch.saved_findings
       Batch.saved_status Batch.saved_selectedModel Batch.saved_error
       Batch.saved_chatHistory Batch.saved_isChatting].
  rewrite List.map_map. cbn [saved_data saved_type].
  assert (Hmap : List.map (fun x => base64ToBlob (blobToBase64 x) (getCleanMimeType x))
                          (Batch.audioBlobs b)
                 = List.map (fun blob => mkBlob (blob_bytes blob) (getCleanMimeType blob))
                            (Batch.audioBlobs b)).
  { apply List.map_ext_in. intros blob Hin. rewrite List.Forall_forall in Hbytes.
    unfold base64ToBlob, blobToBase64. now rewrite (atob_encode _ (Hbytes blob Hin)). }
  rewrite Hmap. run.
  destruct (Batch.status b), (Batch.findings b),
    (List.map (fun blob => mkBlob (blob_bytes blob) (getCleanMimeType blob))
              (Batch.audioBlobs b));
    try destruct (session _); run; do 2 eexists; reflexivity.
Qed.

Lemma restore_all_persisted (session : Batch.SavedBatch -> result Chat)
    (bs : list Batch.Batch) : forall (s : Batch.State) (log : list Call),
  Forall (fun b => Forall (fun blob => Forall (fun x => (x < 256)%N) (blob_bytes blob))
                          (Batch.audioBlobs b)) bs ->
  exists bs' log',
    Batch.restoreAll session (List.map Batch.persisted bs) s log = (Ok bs', s, log')
    /\ Forall2 (fun b b' =>
         b' = Batch.mkBatch (Batch.id b) (Batch.name b)
                (List.map (fun blob => mkBlob (blob_bytes blob) (getCleanMimeType blob))
                          (Batch.audioBlobs b))
                (Batch.findings b) (Batch.status b) (Batch.selectedModel b) (Batch.error_ b)
                (Batch.chat b') (Batch.chatHistory b) (Batch.isChatting b)) bs bs'.
Proof.
  induction bs as [|b bs IH]; intros s log Hall.
  - exists [], log. split; [reflexivity|constructor].
  - destruct (restore_persisted session b s log (Forall_inv Hall)) as (c & log1 & E1).
    destruct (IH s log1 (Forall_inv_tail Hall)) as (bs' & log2 & E2 & R2).
    eexists (_ :: bs'), log2. cbn [List.map Batch.restoreAll]. unfold mbind, M_bind.
    rewrite E1, E2. split; [reflexivity|]. constructor; [reflexivity|exact R2].
Qed.



(** ** The chat: [handleSendMessage] *)

(** X14.  The single-mode chat: [handleSendMessage] never throws and makes
    none of the logged client calls.  Without a chat session, or while a
    message is in flight, it changes nothing.  Otherwise it leaves the
    findings, the audio, the status and the storage as they were, appends
    exactly two entries to the conversation (the user's message, then the
    reply or, when the chat call failed, the apology carrying the error
    message), and ends with the chatting flag cleared. *)
Theorem single_chat_appends (s : App.Session) (message : Message)
    (reply : result jsstring) (log : list Call) :
  let run := App.handleSendMessage message reply s log in
  resultOf run = Ok tt
  /\ callsOf run = log
  /\ (Single.chat (Single.app (App.world s)) = None \/ App.isChatting s = true ->
      stateOf run = s)
  /\ (Single.chat (Single.app (App.world s)) <> None -> App.isChatting s = false ->
      let answer := match reply with Ok text => mkMessage AI text | Throw e => apology e end in
      stateOf run
           = App.mkSession
               (Single.mkWorld
                  (Single.mkApp (Single.status (Single.app (App.world s)))
                     (Single.findings (Single.app (App.world s)))
                     (Single.error (Single.app (App.world s)))
                     (Single.audioBlob (Single.app (App.world s)))
                     (Single.chat (Single.app (App.world s)))
                     (Single.chatHistory (Single.app (App.world s))
                      ++ [mkMessage You (userMessageText message); answer])
                     (Single.selectedModel (Single.app (App.world s))))
                  (Single.view (App.world s))
                  (Single.localStorage (App.world s)))
               false).
Proof.
  intros run. subst run. unfold App.handleSendMessage. run_app.
  destruct s as [[a v st] busy]. cbn [App.world App.isChatting Single.app Single.view
    Single.localStorage].
  destruct (Single.chat a) as [c|] eqn:Ec.
  - destruct busy.
    + repeat split; try reflexivity. intros _ Hb. discriminate.
    + run_app. destruct reply as [text|e]; run_app;
        (split; [reflexivity|]); (split; [reflexivity|]);
        (split; [intros [H|H]; discriminate|]);
        intros _ _;
        unfold stateOf; cbn [fst snd Single.app Single.view Single.localStorage
          Single.status Single.findings Single.error Single.audioBlob Single.chat
          Single.chatHistory Single.selectedModel];
        rewrite <- app_assoc; now rewrite Ec.
  - repeat split; try reflexivity. intros H. congruence.
Qed.

Lemma single_chat_appends_witness :
  let s := App.mkSession
             (Single.mkWorld
                (Single.mkApp Single.Success [str "A"] None None (Some (ChatSession 0))
                   [mkMessage AI (str "hello")] (str "gemini-2.5-pro"))
                (Single.mkView None None None None (Single.CIdle, None)) ∅) false in
  Single.chatHistory (Single.app (App.world (stateOf
    (App.handleSendMessage (TextMessage (str "why?")) (Throw (ErrorObj (str "503"))) s []))))
  = [mkMessage AI (str "hello"); mkMessage You (str "why?");
     mkMessage AI (str "Sorry, I encountered an error: 503")].
Proof.
  intros s.
  destruct (single_chat_appends s (TextMessage (str "why?")) (Throw (ErrorObj (str "503"))) [])
    as (_ & _ & _ & H).
  rewrite H; [reflexivity|discriminate|reflexivity].
Defined.

(** X15.  The chat of a batch: for a batch that has a chat session and no
    message in flight, [handleSendMessage] returns normally without any
    logged client call; the conversation of that batch becomes the one it
    had when the handler started followed by exactly two entries (the
    user's message, then the reply or the apology), its chatting flag ends
    cleared, every other field of the batch and every other batch are as
    they were. *)
Theorem batch_chat_appends (s : Batch.State) (batchId : jsstring) (message : Message)
    (reply : result jsstring) (log : list Call) (batch : Batch.Batch) :
  Batch.findBatch batchId (Batch.batches s) = Some batch ->
  Batch.chat batch <> None ->
  Batch.isChatting batch <> Some true ->
  let answer := match reply with Ok text => mkMessage AI text | Throw e => apology e end in
  let history :=
    default [] (Batch.chatHistory batch) ++ [mkMessage You (userMessageText message); answer] in
  BatchProcessor.handleSendMessage batchId message reply s log
  = (Ok tt,
     Batch.withBatches
       (List.map (fun b =>
          if Batch.id_eqb (Batch.id b) batchId
          then Batch.mkBatch (Batch.id b) (Batch.name b) (Batch.audioBlobs b)
                 (Batch.findings b) (Batch.status b) (Batch.selectedModel b)
                 (Batch.error_ b) (Batch.chat b) (Some history) (Some false)
          else b)) s,
     log).
Proof.
  intros Hfind Hchat Hbusy answer history. subst answer history.
  unfold BatchProcessor.handleSendMessage. run. rewrite Hfind.
  destruct (Batch.chat batch) as [c|]; [|congruence].
  assert (Hmap : forall (h1 h2 : list ChatMessage) (bs : list Batch.Batch),
            BatchProcessor.withChatting batchId false
              (BatchProcessor.withHistory batchId h2 None
                 (BatchProcessor.withHistory batchId h1 (Some true) bs))
            = List.map (fun b =>
                if Batch.id_eqb (Batch.id b) batchId
                then Batch.mkBatch (Batch.id b) (Batch.name b) (Batch.audioBlobs b)
                       (Batch.findings b) (Batch.status b) (Batch.selectedModel b)
                       (Batch.error_ b) (Batch.chat b) (Some h2) (Some false)
                else b) bs).
  { intros h1 h2 bs. unfold BatchProcessor.withChatting, BatchProcessor.withHistory.
    rewrite !List.map_map. apply List.map_ext. intros b.
    destruct (Batch.id_eqb (Batch.id b) batchId) eqn:E; cbn [Batch.id]; rewrite ?E;
      cbn [Batch.id]; rewrite ?E; reflexivity. }
  destruct (Batch.isChatting batch) as [[|]|]; [congruence| |];
    run; destruct reply as [text|e]; run_app; unfold Batch.withBatches;
    cbn [Batch.batches Batch.activeBatchId Batch.isBusy Batch.isMainRecording
         Batch.continuationState Batch.dictatingState Batch.dictateEditingState
         Batch.processingState Batch.continuationError Batch.localStorage];
    rewrite Hmap, <- app_assoc; reflexivity.
Qed.

Lemma batch_chat_appends_witness :
  let b1 := Batch.mkBatch (str "a") (str "Dictation #1") [] (Some [Some (str "F")])
              Batch.complete (str "gemini-2.5-pro") None (Some (ChatSession 0))
              (Some [mkMessage AI (str "hi")]) (Some false) in
  let b2 := Batch.mkBatch (str "b") (str "Dictation #2") [] None
              Batch.idle (str "gemini-2.5-pro") None None None (Some false) in
  let s := Batch.mkState [b1; b2] None false false
             (Batch.mkContinuation None Batch.CIdle None) None None None None ∅ in
  Batch.batches (stateOf (BatchProcessor.handleSendMessage (str "a")
                            (AudioMessage (mkBlob [1%N] (str "audio/webm")))
                            (Ok (str "Sure.")) s []))
  = [Batch.mkBatch (str "a") (str "Dictation #1") [] (Some [Some (str "F")])
       Batch.complete (str "gemini-2.5-pro") None (Some (ChatSession 0))
       (Some [mkMessage AI (str "hi"); mkMessage You (str "[Audio Message]");
              mkMessage AI (str "Sure.")]) (Some false);
     b2].
Proof.
  intros b1 b2 s.
  rewrite (batch_chat_appends s (str "a") (AudioMessage (mkBlob [1%N] (str "audio/webm")))
             (Ok (str "Sure.")) [] b1); [reflexivity|reflexivity|discriminate|discriminate].
Defined.

(** ** The registry as a transition system: what every handler preserves *)

Section RegistryInvariant.

Import Batch Registry.

Lemma tame_refl bs : tame bs bs.
Proof. induction bs; constructor; auto. Qed.

Lemma tame_trans bs1 bs2 bs3 : tame bs1 bs2 -> tame bs2 bs3 -> tame bs1 bs3.
Proof.
  intros H12. revert bs3. induction H12 as [|b1 b2 l1 l2 [Hi Hs] _ IH]; intros bs3 H23.
  - inversion H23. constructor.
  - inversion H23 as [|? b3 ? l3 [Hi' Hs'] Hl]; subst. constructor; [|now apply IH].
    split; [congruence|tauto].
Qed.

Lemma tame_map (f : Batch -> Batch) bs :
  (forall b, id (f b) = id b /\ (status (f b) = recording -> status b = recording)) ->
  tame bs (List.map f bs).
Proof. intros Hf. induction bs; constructor; auto. Qed.

Lemma tame_ids bs bs' : tame bs bs' -> List.map id bs' = List.map id bs.
Proof. induction 1 as [|b b' l l' [Hi _] _ IH]; simpl; congruence. Qed.

Lemma calm_refl s : calm s s.
Proof. repeat split. apply tame_refl. Qed.

Lemma calm_trans s1 s2 s3 : calm s1 s2 -> calm s2 s3 -> calm s1 s3.
Proof.
  intros (A1 & B1 & C1 & D1) (A2 & B2 & C2 & D2).
  repeat split; try congruence. eapply tame_trans; eauto.
Qed.

Lemma calmly_ret {A} (a : A) : calmly (mret a).
Proof. intros s log. apply calm_refl. Qed.

Lemma calmly_bind {A B} (m : M State A) (k : A -> M State B) :
  calmly m -> (forall a, calmly (k a)) -> calmly (m ≫= k).
Proof.
  intros Hm Hk s log. specialize (Hm s log). unfold mbind, M_bind.
  destruct (m s log) as [[[a|e] s'] log']; unfold stateOf in *; cbn [fst snd] in *.
  - eapply calm_trans; [exact Hm|]. apply Hk.
  - exact Hm.
Qed.

Lemma calmly_gets {A} (f : State -> A) : calmly (gets f).
Proof. intros s log. apply calm_refl. Qed.

Lemma calmly_throw {A} (e : exn) : calmly (throw e : M State A).
Proof. intros s log. apply calm_refl. Qed.

Lemma calmly_call {A} (c : Call) (answer : result A) : calmly (call c answer).
Proof. intros s log. unfold call. destruct answer; apply calm_refl. Qed.

Lemma calmly_await {A} (answer : result A) : calmly (await answer).
Proof. intros s log. apply calm_refl. Qed.

Lemma calmly_try_catch {A} (body : M State A) (handler : exn -> M State A) :
  calmly body -> (forall e, calmly (handler e)) -> calmly (try_catch body handler).
Proof.
  intros Hb Hh s log. specialize (Hb s log). unfold try_catch.
  destruct (body s log) as [[[a|e] s'] log']; unfold stateOf in *; cbn [fst snd] in *.
  - exact Hb.
  - eapply calm_trans; [exact Hb|]. apply Hh.
Qed.

Lemma calmly_try_finally {A} (body : M State A) (final : M State unit) :
  calmly body -> calmly final -> calmly (try_finally body final).
Proof.
  intros Hb Hf s log. specialize (Hb s log). unfold try_finally.
  destruct (body s log) as [[r s'] log']. specialize (Hf s' log').
  destruct (final s' log') as [[[u|e] s''] log'']; unfold stateOf in *; cbn [fst snd] in *;
    eapply calm_trans; eauto.
Qed.

Lemma calmly_setBatches (f : list Batch -> list Batch) :
  (forall bs, tame bs (f bs)) -> calmly (setBatches f).
Proof. intros Hf s log. repeat split. apply Hf. Qed.

Lemma calmly_setBatches_map (f : Batch -> Batch) :
  (forall b, id (f b) = id b /\ (status (f b) = recording -> status b = recording)) ->
  calmly (setBatches (List.map f)).
Proof. intros Hf. apply calmly_setBatches. intros bs. now apply tame_map. Qed.

Lemma calmly_setContinuationState v : calmly (setContinuationState v).
Proof. intros s log. repeat split. apply tame_refl. Qed.
Lemma calmly_setDictatingState v : calmly (setDictatingState v).
Proof. intros s log. repeat split. apply tame_refl. Qed.
Lemma calmly_setDictateEditingState v : calmly (setDictateEditingState v).
Proof. intros s log. repeat split. apply tame_refl. Qed.
Lemma calmly_setProcessingState v : calmly (setProcessingState v).
Proof. intros s log. repeat split. apply tame_refl. Qed.
Lemma calmly_setContinuationError v : calmly (setContinuationError v).
Proof. intros s log. repeat split. apply tame_refl. Qed.

Lemma calmly_forEach {A} (f : A -> M State unit) (l : list A) :
  (forall x, calmly (f x)) -> calmly (forEach f l).
Proof.
  intros Hf. induction l as [|x l IH]; cbn [forEach]; [apply calmly_ret|].
  apply calmly_bind; [apply Hf|intros _; exact IH].
Qed.

Ltac tame_fun :=
  let b := fresh "b" in
  intros b;
  repeat match goal with
         | |- context [if ?c then _ else _] => destruct c
         | |- context [match ?x with _ => _ end] => destruct x
         end;
  cbn [id status withStatus withCapture withTranscript withError];
  (split; [reflexivity|first [discriminate|tauto]]).

Ltac calm_step :=
  first
    [ apply calmly_ret
    | apply calmly_gets
    | apply calmly_throw
    | apply calmly_call
    | apply calmly_await
    | apply calmly_setContinuationState
    | apply calmly_setDictatingState
    | apply calmly_setDictateEditingState
    | apply calmly_setProcessingState
    | apply calmly_setContinuationError
    | apply calmly_bind; [|intros ?]
    | apply calmly_try_catch; [|intros ?]
    | apply calmly_try_finally
    | apply calmly_setBatches_map; tame_fun
    | match goal with
      | |- calmly (if ?c then _ else _) => destruct c
      | |- calmly (match ?x with _ => _ end) => destruct x
      end ].

Lemma calmly_handleUpdateFindingForBatch batchId findingIndex newText :
  calmly (handleUpdateFindingForBatch batchId findingIndex newText).
Proof. unfold handleUpdateFindingForBatch. repeat calm_step. Qed.

Lemma calmly_processOne model batch t c : calmly (processOne model batch t c).
Proof. unfold processOne. repeat calm_step. Qed.

Lemma calmly_markProcessing toProcess : calmly (setBatches (markProcessing toProcess)).
Proof. unfold markProcessing. repeat calm_step. Qed.

(** Every handler other than the recorder's and the ones that add or remove
    batches is calm. *)
Lemma calmly_step (a : Action) :
  match a with
  | AddBatch _ _ | RemoveBatch _ _ | ClearAllBatches _
  | RecordOrResume _ _ _ | Pause _ _ | Stop _ _ => True
  | _ => calmly (step a)
  end.
Proof.
  destruct a; try exact I; cbn [step].
  - unfold BatchProcessor.updateBatchName. repeat calm_step.
  - unfold BatchProcessor.updateBatchModel. repeat calm_step.
  - unfold BatchProcessor.handleFileSelect. repeat calm_step.
  - unfold handleProcessAll. apply calmly_bind; [apply calmly_gets|intros current].
    destruct (batchesToProcess current); [apply calmly_ret|].
    apply calmly_bind; [apply calmly_markProcessing|intros _].
    apply calmly_forEach. intros x. apply calmly_processOne.
  - unfold handleReprocessBatch. repeat calm_step.
  - apply calmly_handleUpdateFindingForBatch.
  - unfold handleSaveEdit. repeat first [apply calmly_handleUpdateFindingForBatch|calm_step].
  - unfold BatchProcessor.handleSendMessage, BatchProcessor.withHistory,
      BatchProcessor.withChatting. repeat calm_step.
  - unfold handleStartDictation. repeat calm_step.
  - unfold handleStopDictation.
    repeat first [apply calmly_handleUpdateFindingForBatch|calm_step].
  - unfold handleStartDictateEditForBatch. repeat calm_step.
  - unfold handleStopDictateEditForBatch.
    repeat first [apply calmly_handleUpdateFindingForBatch|calm_step].
  - unfold handleStartContinue. repeat calm_step.
  - unfold handleStopContinue, continueWith. repeat calm_step.
Qed.


Lemma calm_invariant s s' : invariant s -> calm s s' -> invariant s'.
Proof.
  intros (Hb & Hnd & Hne & Hrec) (Eb & Er & Ea & Ht).
  split; [congruence|]. split; [now rewrite (tame_ids _ _ Ht)|].
  rewrite Er, Ea. clear Hnd Hb Eb Er Ea.
  induction Ht as [|b b' l l' [Hi Hs] _ IH]; [split; constructor|].
  destruct (IH (Forall_inv_tail Hne) (Forall_inv_tail Hrec)) as [IH1 IH2].
  split; constructor; auto.
  - rewrite Hi. exact (Forall_inv Hne).
  - intros Hst. rewrite Hi. exact (Forall_inv Hrec (Hs Hst)).
Qed.

Lemma invariant_initial storage : invariant (initial storage).
Proof. repeat split; constructor. Qed.

Lemma invariant_addBatch s uuid model log :
  invariant s -> uuid <> [] -> ~ In uuid (List.map id (batches s)) ->
  invariant (stateOf (addBatch uuid model s log)).
Proof.
  intros (Hb & Hnd & Hne & Hrec) Hu Hfresh. unfold addBatch. run.
  unfold stateOf, invariant. cbn [fst snd batches isBusy isMainRecording activeBatchId].
  split; [exact Hb|]. rewrite List.map_app. cbn [List.map id].
  split; [|split].
  - apply List.NoDup_app; [exact Hnd|repeat constructor; simpl; tauto|].
    intros x Hx [<-|[]]. now apply Hfresh.
  - apply Forall_app. split; [exact Hne|]. now repeat constructor.
  - apply Forall_app. split; [exact Hrec|]. constructor; [|constructor].
    cbn [status]. discriminate.
Qed.

Lemma invariant_filter s (f : Batch -> bool) :
  invariant s -> invariant (withBatches (List.filter f) s).
Proof.
  intros (Hb & Hnd & Hne & Hrec). unfold invariant, withBatches.
  cbn [batches isBusy isMainRecording activeBatchId].
  split; [exact Hb|]. split; [now apply NoDup_ids_filter|].
  split; apply List.Forall_forall; intros b Hin; apply filter_In in Hin as [Hin _];
    rewrite List.Forall_forall in Hne, Hrec; auto.
Qed.

Lemma invariant_removeBatch s batchId confirmed log :
  invariant s -> invariant (stateOf (BatchProcessor.removeBatch batchId confirmed s log)).
Proof.
  intros Hinv. unfold BatchProcessor.removeBatch. run.
  destruct (isMainRecording s); [exact Hinv|]. destruct confirmed; [|exact Hinv].
  run. now apply invariant_filter.
Qed.

Lemma invariant_clearAllBatches s confirmed log :
  invariant s -> invariant (stateOf (BatchProcessor.clearAllBatches confirmed s log)).
Proof.
  intros Hinv. unfold BatchProcessor.clearAllBatches. run.
  destruct (isMainRecording s); [exact Hinv|].
  destruct ((0 <? length (batches s)) && confirmed); [|exact Hinv].
  run. destruct Hinv as (Hb & _). repeat split; [exact Hb|constructor..].
Qed.

Lemma invariant_stopInto s v batch blob log :
  v <> recording -> invariant s -> invariant (stateOf (stopInto v batch blob s log)).
Proof.
  intros Hv Hinv. unfold stopInto. run.
  destruct (isBusy s || negb (isMainRecording s)
            || negb (bool_decide (activeBatchId s = Some (id batch)))) eqn:G; [exact Hinv|].
  apply orb_false_iff in G as [G Ga]. apply negb_false_iff, bool_decide_eq_true in Ga.
  destruct Hinv as (Hb & Hnd & Hne & Hrec). run.
  unfold stateOf, invariant. cbn [fst snd batches isBusy isMainRecording activeBatchId].
  split; [reflexivity|]. rewrite List.map_map.
  split; [|split].
  - erewrite List.map_ext; [exact Hnd|]. intros b. now destruct (id_eqb (id b) (id batch)).
  - apply Forall_map. eapply List.Forall_impl; [|exact Hne]. intros b Hid. cbn beta.
    now destruct (id_eqb (id b) (id batch)).
  - apply Forall_map. eapply List.Forall_impl; [|exact Hrec]. intros b Hold. cbn beta.
    destruct (id_eqb (id b) (id batch)) eqn:E.
    + cbn [status withCapture]. congruence.
    + intros Hst. destruct (Hold Hst) as [_ Hact]. rewrite Ga in Hact.
      apply id_eqb_false in E. congruence.
Qed.

Lemma invariant_handleRecordOrResume s batch stopped log :
  stopped <> None -> invariant s ->
  invariant (stateOf (handleRecordOrResume batch stopped true s log)).
Proof.
  intros Hstopped (Hb & Hnd & Hne & Hrec). unfold handleRecordOrResume. run.
  rewrite Hb. run.
  destruct stopped as [blob|]; [clear Hstopped|congruence].
  destruct (isMainRecording s && truthyId (activeBatchId s)
            && negb (bool_decide (activeBatchId s = Some (id batch)))) eqn:G; run;
    unfold stateOf, invariant; cbn [fst snd batches isBusy isMainRecording activeBatchId].
  - apply andb_true_iff in G as [G Gn]. apply andb_true_iff in G as [Gr Gt].
    apply negb_true_iff, bool_decide_eq_false in Gn.
    destruct (activeBatchId s) as [[|c p]|] eqn:Ea; try discriminate.
    split; [reflexivity|]. rewrite !List.map_map. split; [|split].
    + erewrite List.map_ext; [exact Hnd|]. intros b. cbn beta.
      destruct (id_eqb (id b) (c :: p)); cbn [id status withStatus withCapture];
        now destruct (id_eqb (id b) (id batch)).
    + apply Forall_map. eapply List.Forall_impl; [|exact Hne]. intros b Hid. cbn beta.
      destruct (id_eqb (id b) (c :: p)); cbn [id status withStatus withCapture];
        now destruct (id_eqb (id b) (id batch)).
    + apply Forall_map. eapply List.Forall_impl; [|exact Hrec]. intros b Hold. cbn beta.
      destruct (id_eqb (id b) (c :: p)) eqn:Ep; cbn [id status withStatus withCapture].
      * destruct (id_eqb (id b) (id batch)) eqn:E.
        -- intros _. split; [reflexivity|]. cbn [id status withStatus withCapture].
           apply id_eqb_true in E. now rewrite E.
        -- cbn [status]. discriminate.
      * destruct (id_eqb (id b) (id batch)) eqn:E.
        -- intros _. split; [reflexivity|]. cbn [id status withStatus withCapture].
           apply id_eqb_true in E. now rewrite E.
        -- intros Hst. destruct (Hold Hst) as [_ Hact]. apply id_eqb_false in Ep.
           congruence.
  - split; [reflexivity|]. rewrite !List.map_map. split; [|split].
    + erewrite List.map_ext; [exact Hnd|]. intros b. cbn beta.
      now destruct (id_eqb (id b) (id batch)).
    + apply Forall_map. eapply List.Forall_impl; [|exact Hne]. intros b Hid. cbn beta.
      now destruct (id_eqb (id b) (id batch)).
    + apply Forall_map.
      pose proof (proj2 (Forall_and _ _) (conj Hne Hrec)) as Hboth.
      eapply List.Forall_impl; [|exact Hboth]. intros b [Hid Hold]. cbn beta.
      destruct (id_eqb (id b) (id batch)) eqn:E.
      * intros _. split; [reflexivity|]. cbn [id status withStatus withCapture].
        apply id_eqb_true in E. now rewrite E.
      * intros Hst. destruct (Hold Hst) as [Hr Hact]. exfalso.
        rewrite Hr, Hact in G. apply id_eqb_false in E.
        destruct (id b) as [|c p] eqn:Eid; [congruence|].
        cbn [truthyId andb] in G. apply negb_false_iff, bool_decide_eq_true in G.
        congruence.
Qed.

Lemma step_invariant s a log :
  invariant s -> admissible s a -> invariant (stateOf (step a s log)).
Proof.
  intros Hinv Hadm. pose proof (calmly_step a) as Hc.
  destruct a; cbn [step]; try (eapply calm_invariant; [exact Hinv|apply Hc]).
  - destruct Hadm. now apply invariant_addBatch.
  - now apply invariant_removeBatch.
  - now apply invariant_clearAllBatches.
  - destruct Hadm as [-> Hs]. now apply invariant_handleRecordOrResume.
  - now apply invariant_stopInto.
  - now apply invariant_stopInto.
Qed.

Lemma reachable_invariant s : reachable s -> invariant s.
Proof.
  induction 1 as [storage|s a log _ IH Hadm]; [apply invariant_initial|].
  now apply step_invariant.
Qed.

End RegistryInvariant.

(** X16.  In every state that the handlers of [BatchProcessor] reach from a
    freshly mounted component with nothing to restore, run one at a time,
    with fresh identifiers and a main recorder that starts and delivers:
    no handler is left busy, the identifiers of the batches are pairwise
    distinct, a batch in status recording is the active batch of a running
    recorder, and so at most one batch is in status recording. *)
Theorem registry_invariant (s : Batch.State) :
  Registry.reachable s ->
  Batch.isBusy s = false
  /\ List.NoDup (List.map Batch.id (Batch.batches s))
  /\ (forall b, In b (Batch.batches s) -> Batch.status b = Batch.recording ->
       Batch.isMainRecording s = true /\ Batch.activeBatchId s = Some (Batch.id b))
  /\ (forall b1 b2, In b1 (Batch.batches s) -> In b2 (Batch.batches s) ->
       Batch.status b1 = Batch.recording -> Batch.status b2 = Batch.recording -> b1 = b2).
Proof.
  intros Hr. destruct (reachable_invariant s Hr) as (Hb & Hnd & Hne & Hrec).
  rewrite List.Forall_forall in Hrec.
  split; [exact Hb|]. split; [exact Hnd|]. split; [exact Hrec|].
  intros b1 b2 H1 H2 S1 S2. apply (id_determines (Batch.batches s)); auto.
  destruct (Hrec b1 H1 S1) as [_ E1]. destruct (Hrec b2 H2 S2) as [_ E2]. congruence.
Qed.

Lemma registry_invariant_witness :
  let b := fun i st => Batch.mkBatch (str i) (str "Dictation") [] None st
                         (str "gemini-2.5-pro") None None None (Some false) in
  let s0 := Batch.initial ∅ in
  let s1 := stateOf (Registry.step (Registry.AddBatch (str "u1") (str "gemini-2.5-pro")) s0 []) in
  let s2 := stateOf (Registry.step (Registry.AddBatch (str "u2") (str "gemini-2.5-pro")) s1 []) in
  let s3 := stateOf (Registry.step (Registry.RecordOrResume (b "u1"%string Batch.idle)
                          (Some (mkBlob [] [])) true) s2 []) in
  let s4 := stateOf (Registry.step
                       (Registry.RecordOrResume (b "u2"%string Batch.idle)
                          (Some (mkBlob [1%N] (str "audio/webm"))) true) s3 []) in
  List.map Batch.status (Batch.batches s4) = [Batch.paused; Batch.recording]
  /\ forall b1 b2, In b1 (Batch.batches s4) -> In b2 (Batch.batches s4) ->
       Batch.status b1 = Batch.recording -> Batch.status b2 = Batch.recording -> b1 = b2.
Proof.
  intros b s0 s1 s2 s3 s4. split; [reflexivity|].
  apply (registry_invariant s4).
  apply Registry.reachable_step.
  - apply Registry.reachable_step.
    + apply Registry.reachable_step.
      * apply Registry.reachable_step; [apply Registry.reachable_initial|].
        split; [discriminate|]. simpl. tauto.
      * split; [discriminate|]. vm_compute. intros [H|[]]. discriminate.
    + split; [reflexivity|discriminate].
  - split; [reflexivity|discriminate].
Defined.

(** ** Recording a batch in several takes *)

(** X17.  Recording a batch in two takes: from a state in which no handler
    is busy and the main recorder is idle, record, pause, resume and stop
    on the same batch (the recorder starting both times) end with the two
    takes appended, in order, to the audio of that batch, its status
    complete, nothing active, the recorder idle, and every other batch and
    field as they were; no client is called. *)
Theorem record_pause_resume_stop (s : Batch.State) (batch : Batch.Batch)
    (take1 take2 : Blob) (stopped1 stopped2 : option Blob) (log : list Call) :
  Batch.isBusy s = false ->
  Batch.isMainRecording s = false ->
  (Batch.handleRecordOrResume batch stopped1 true;;
   Batch.handlePause batch take1;;
   Batch.handleRecordOrResume batch stopped2 true;;
   Batch.handleStop batch take2) s log
  = (Ok tt,
     Batch.mkState
       (List.map (fun b =>
          if Batch.id_eqb (Batch.id b) (Batch.id batch)
          then Batch.mkBatch (Batch.id b) (Batch.name b)
                 (Batch.audioBlobs b ++ [take1; take2]) (Batch.findings b) Batch.complete
                 (Batch.selectedModel b) (Batch.error_ b) (Batch.chat b)
                 (Batch.chatHistory b) (Batch.isChatting b)
          else b) (Batch.batches s))
       None false false (Batch.continuationState s) (Batch.dictatingState s)
       (Batch.dictateEditingState s) (Batch.processingState s)
       (Batch.continuationError s) (Batch.localStorage s),
     log).
Proof.
  intros Hb Hr. unfold Batch.handleRecordOrResume, Batch.handlePause, Batch.handleStop,
    Batch.stopInto. run. rewrite Hb, Hr.
  repeat first
    [ progress cbn [andb orb negb]
    | progress run
    | rewrite (bool_decide_eq_true_2 (Some (Batch.id batch) = Some (Batch.id batch)))
        by reflexivity ].
  f_equal. f_equal. f_equal. rewrite !List.map_map. apply List.map_ext. intros b.
  destruct (Batch.id_eqb (Batch.id b) (Batch.id batch)) eqn:E;
    cbn [Batch.id Batch.withStatus Batch.withCapture]; rewrite ?E;
    cbn [Batch.id Batch.withStatus Batch.withCapture]; rewrite ?E;
    cbn [Batch.id Batch.withStatus Batch.withCapture]; rewrite ?E;
    cbn [Batch.id Batch.withStatus Batch.withCapture Batch.name Batch.audioBlobs
         Batch.findings Batch.selectedModel Batch.error_ Batch.chat Batch.chatHistory
         Batch.isChatting]; [|reflexivity].
  unfold Batch.withCapture, Batch.withStatus.
  cbn [Batch.id Batch.name Batch.audioBlobs Batch.findings Batch.selectedModel
       Batch.error_ Batch.chat Batch.chatHistory Batch.isChatting].
  now rewrite <- app_assoc.
Qed.

Lemma record_pause_resume_stop_witness :
  let b1 := Batch.mkBatch (str "a") (str "Dictation #1") [mkBlob [9%N] (str "audio/webm")]
              None Batch.paused (str "gemini-2.5-pro") None None None (Some false) in
  let s := Batch.mkState [b1] None false false
             (Batch.mkContinuation None Batch.CIdle None) None None None None ∅ in
  let t1 := mkBlob [1%N] (str "audio/webm") in
  let t2 := mkBlob [2%N] (str "audio/webm") in
  List.map Batch.audioBlobs
    (Batch.batches (stateOf
       ((Batch.handleRecordOrResume b1 None true;; Batch.handlePause b1 t1;;
         Batch.handleRecordOrResume b1 None true;; Batch.handleStop b1 t2) s [])))
  = [[mkBlob [9%N] (str "audio/webm"); t1; t2]].
Proof.
  intros b1 s t1 t2.
  rewrite (record_pause_resume_stop s b1 t1 t2 None None []); reflexivity.
Defined.

(** ** The copy buttons of the single-mode view *)

Lemma sortNumeric_singleton (i : nat) : sortNumeric [i] = [i].
Proof.
  apply Permutation_singleton_r. unfold sortNumeric. apply merge_sort_Permutation.
Qed.

Lemma Sorted_seq (start len : nat) : Sorted le (seq start len).
Proof.
  revert start. induction len as [|len IH]; intros start; cbn [seq]; constructor.
  - apply IH.
  - destruct len; constructor. lia.
Qed.

Lemma sortNumeric_all (indices : list nat) (n : nat) :
  indices ≡ₚ seq 0 n -> sortNumeric indices = seq 0 n.
Proof.
  intros HP. apply (Sorted_unique le); [apply sortNumeric_sorted|apply Sorted_seq|].
  unfold sortNumeric. now rewrite merge_sort_Permutation.
Qed.

Lemma map_lookup_seq {A B} (g : option A -> B) (l : list A) :
  List.map (fun i => g (l !! i)) (seq 0 (length l)) = List.map (fun x => g (Some x)) l.
Proof.
  induction l as [|x l IH]; [reflexivity|].
  cbn [length seq List.map]. f_equal. rewrite <- seq_shift, List.map_map. exact IH.
Qed.

(** X18.  The copy buttons agree: with no snippet captured, the selection
    copy of all the findings, selected in any order, hands to the clipboard
    exactly what [handleCopyAll] hands (and both do nothing on an empty
    list); and the selection copy of a single index hands exactly what the
    single-click copy of [handleFindingClick] hands, both throwing the same
    error on an index that holds no finding. *)
Theorem copy_buttons_agree (fs : list jsstring) :
  (forall indices, indices ≡ₚ seq 0 (length fs) ->
     Single.copySelection fs ∅ indices
     = match ResultsDisplay.handleCopyAll fs with
       | Some (plainText, htmlText) => ToClipboard plainText htmlText
       | None => SelectionCleared
       end)
  /\ (forall index,
        Single.copySelection fs ∅ [index]
        = match ResultsDisplay.handleFindingClick fs index with
          | Ok (plainText, htmlText) => ToClipboard plainText htmlText
          | Throw e => CopyThrew e
          end).
Proof.
  split.
  - intros indices HP. unfold Single.copySelection, ResultsDisplay.handleCopyAll.
    destruct fs as [|f fs].
    + apply Permutation_nil_r in HP. now subst.
    + rewrite copyIndices_expected.
      * rewrite (sortNumeric_all _ _ HP).
        unfold expectedPlain, expectedHtml.
        rewrite (List.map_ext _ (fun i => renderPlain (default [] ((f :: fs) !! i))))
          by (intros i; now rewrite lookup_empty).
        rewrite (List.map_ext (fun i => match (∅ : gmap nat jsstring) !! i with
                                        | Some snippet => _ | None => _ end)
                              (fun i => renderHtml (default [] ((f :: fs) !! i))))
          by (intros i; now rewrite lookup_empty).
        now rewrite (map_lookup_seq (fun o => renderPlain (default [] o))),
                    (map_lookup_seq (fun o => renderHtml (default [] o))).
      * apply map_Forall_empty.
      * intros ->. apply Permutation_nil_l in HP. discriminate.
      * rewrite HP. apply List.Forall_forall. intros i Hi. apply in_seq in Hi.
        apply lookup_lt_is_Some. lia.
  - intros index. unfold Single.copySelection, ResultsDisplay.handleFindingClick, copyIndices.
    rewrite sortNumeric_singleton. cbn [copyEntries]. unfold copyEntry.
    rewrite lookup_empty. destruct (fs !! index); [|reflexivity].
    cbn [join concat]. now rewrite app_nil_r.
Qed.

Lemma copy_buttons_agree_witness :
  Single.copySelection [str "A###B"; str "C"] ∅ [1; 0]
  = ToClipboard (str "A" ++ NL ++ str "B" ++ NL ++ str "C")
      (str "<p><strong>A</strong></p><p><strong>B</strong></p><p><strong>C</strong></p>").
Proof.
  destruct (copy_buttons_agree [str "A###B"; str "C"]) as [Hall _].
  rewrite Hall; [reflexivity|]. apply Permutation_swap.
Defined.

(** ** The text clients and the per-finding dictation *)

Lemma trimStart_suffix s : exists w, s = w ++ trimStart s.
Proof.
  induction s as [|c s [w IH]]; [now exists []|]. simpl.
  destruct (isWhiteSpace c); [|now exists []].
  exists (c :: w). simpl. now f_equal.
Qed.

Lemma trimStart_idem s : trimStart (trimStart s) = trimStart s.
Proof.
  destruct (trimStart_head s) as [->|(c & rest & -> & Hc)]; [reflexivity|].
  simpl. now rewrite Hc.
Qed.

Lemma trimEnd_prefix s : exists w, s = trimEnd s ++ w.
Proof.
  unfold trimEnd. destruct (trimStart_suffix (rev s)) as [w Hw].
  exists (rev w). rewrite <- rev_app_distr, <- Hw. now rewrite rev_involutive.
Qed.

(** A trimmed text is its own trim. *)
Lemma trim_idem s : trim (trim s) = trim s.
Proof.
  assert (Hend : forall u, trimEnd (trimEnd u) = trimEnd u).
  { intros u. unfold trimEnd. now rewrite rev_involutive, trimStart_idem. }
  unfold trim at 1.
  assert (Hstart : trimStart (trim s) = trim s).
  { unfold trim. destruct (trimEnd_prefix (trimStart s)) as [w Hw].
    destruct (trimEnd (trimStart s)) as [|c t] eqn:E; [reflexivity|].
    destruct (trimStart_head s) as [E0|(c0 & rest & E0 & Hc)].
    - rewrite E0 in Hw. discriminate.
    - rewrite E0 in Hw. inversion Hw; subst. simpl. now rewrite Hc. }
  rewrite Hstart. unfold trim. apply Hend.
Qed.

(** X19.  What the text clients return: when [continueAudioDictation] or
    [modifyFindingWithAudio] succeeds, the text is not empty, carries no
    white space at either end, and is the trimmed text of the response; so
    the per-finding append built on it stores the existing text, the
    separator and that very text, and the finding gets strictly longer. *)
Theorem text_clients_spec (read : result jsstring) (response : result (option jsstring))
    (t : jsstring) :
  GeminiService.continueAudioDictation read response = Ok t
  \/ GeminiService.modifyFindingWithAudio read response = Ok t ->
  t <> [] /\ trim t = t
  /\ (exists text, response = Ok (Some text) /\ t = trim text)
  /\ forall existingText,
       appendText existingText t
       = existingText
         ++ (if blank existingText || endsWith [SPACE] existingText then [] else [SPACE])
         ++ t
       /\ length existingText < length (appendText existingText t).
Proof.
  assert (H : forall a b c, GeminiService.textClient a b c read response = Ok t ->
              t <> [] /\ exists text, response = Ok (Some text) /\ t = trim text).
  { intros a b c. unfold GeminiService.textClient.
    destruct read as [data|e]; [|discriminate].
    destruct response as [[text|]|[m|]]; cbn [option_map]; try discriminate.
    destruct (trim text) as [|x r] eqn:E; [discriminate|].
    intros [= <-]. split; [discriminate|]. now exists text. }
  intros Hok.
  assert (Ht : t <> [] /\ exists text, response = Ok (Some text) /\ t = trim text).
  { destruct Hok as [Hok|Hok]; exact (H _ _ _ Hok). }
  destruct Ht as (Hne & text & Hr & Et).
  assert (Htrim : trim t = t) by (rewrite Et; apply trim_idem).
  split; [exact Hne|]. split; [exact Htrim|]. split; [now exists text|].
  intros existingText. rewrite appendText_unfold, Htrim. split; [reflexivity|].
  rewrite !length_app. destruct t; [congruence|]. simpl. lia.
Qed.

Lemma text_clients_spec_witness :
  GeminiService.continueAudioDictation (Ok (str "AAAA")) (Ok (Some (str "  no mass. ")))
  = Ok (str "no mass.")
  /\ appendText (str "Liver:") (str "no mass.") = str "Liver: no mass.".
Proof.
  split; [reflexivity|].
  destruct (text_clients_spec (Ok (str "AAAA")) (Ok (Some (str "  no mass. ")))
              (str "no mass.") (or_introl eq_refl)) as (_ & _ & _ & H).
  destruct (H (str "Liver:")) as [E _]. rewrite E. reflexivity.
Defined.

(** X20.  How the text clients fail: a failure of [continueAudioDictation]
    or [modifyFindingWithAudio] is either the rejection of the blob reader,
    passed on as it is, or an [Error] object with a non-empty message; in
    the second case the handlers record that message, never the generic
    one. *)
Theorem text_clients_fail_with_message (read : result jsstring)
    (response : result (option jsstring)) (e : exn) :
  GeminiService.continueAudioDictation read response = Throw e
  \/ GeminiService.modifyFindingWithAudio read response = Throw e ->
  read = Throw e
  \/ exists message, e = ErrorObj message
       /\ messageOr (str "An unknown error occurred.") e = message
       /\ message <> [].
Proof.
  assert (H : forall a b c, a <> [] -> b <> [] -> c <> [] ->
              GeminiService.textClient a b c read response = Throw e ->
              read = Throw e \/ exists message, e = ErrorObj message
                /\ messageOr (str "An unknown error occurred.") e = message
                /\ message <> []).
  { intros a b c Ha Hb Hc. unfold GeminiService.textClient.
    destruct read as [data|e0]; [|intros [= ->]; now left].
    intros Hthrow. right.
    destruct response as [[text|]|[m|]]; cbn [option_map] in Hthrow;
      try destruct (trim text) as [|x r]; try discriminate;
      injection Hthrow as <-; eexists; (split; [reflexivity|]); (split; [reflexivity|]);
      try assumption; destruct b; try congruence; discriminate. }
  intros [Hthrow|Hthrow]; (eapply H; [| | |exact Hthrow]); discriminate.
Qed.

Lemma text_clients_fail_with_message_witness :
  GeminiService.continueAudioDictation (Ok (str "AAAA")) (Ok (Some (str "  ")))
  = Throw (ErrorObj (str "Failed to process audio continuation: API returned an empty response for audio continuation."))
  /\ exists message,
       messageOr (str "An unknown error occurred.")
         (ErrorObj (str "Failed to process audio continuation: API returned an empty response for audio continuation."))
       = message /\ message <> [].
Proof.
  split; [reflexivity|].
  destruct (text_clients_fail_with_message (Ok (str "AAAA")) (Ok (Some (str "  ")))
              (ErrorObj (str "Failed to process audio continuation: API returned an empty response for audio continuation."))
              (or_introl eq_refl)) as [H|(message & _ & Hm & Hne)]; [discriminate|].
  now exists message.
Defined.

(** ** The per-finding dictation is contained *)

(** X21.  Single mode, with usable audio: the per-finding append and the
    per-finding modify never throw and make exactly one client call, with
    the text at the index as it was when the handler started.  On success
    they replace the finding at that index (by the appended text, or by the
    modified text) and nothing else; on a failure of the client, or when the
    index holds no finding to append to, the findings are unchanged and the
    message is recorded at that index.  Either way the index being dictated
    and the processing index end cleared, and the audio, the chat session
    and the conversation are untouched. *)
Theorem single_dictation_contained (w : Single.World) (captured : option Blob)
    (audio : Blob) (index : nat) (answer : result jsstring) (log : list Call) :
  usable captured = Some audio ->
  let fs := Single.findings (Single.app w) in
  let a := Single.app w in
  let v := Single.view w in
  let failure e := Some (index, messageOr (str "An unknown error occurred.") e) in
  (Single.dictatingIndex v = Some index ->
   Single.handleStopDictation captured answer w log
   = (Ok tt,
      Single.mkWorld
        (Single.mkApp (Single.status a)
           (match answer, fs !! index with
            | Ok newText, Some existingText =>
                <[index := appendText existingText newText]> fs
            | _, _ => fs
            end)
           (Single.error a) (Single.audioBlob a) (Single.chat a) (Single.chatHistory a)
           (Single.selectedModel a))
        (Single.mkView None (Single.dictateEditingIndex v) None
           (match answer, fs !! index with
            | Ok _, Some _ => Single.continuationError v
            | Ok _, None => failure TypeError_undefined
            | Throw e, _ => failure e
            end)
           (Single.continuationState v))
        (Single.localStorage w),
      log ++ [ContinueAudioDictation (fs !! index) audio]))
  /\ (Single.dictateEditingIndex v = Some index ->
      Single.handleStopDictateEdit captured answer w log
      = (Ok tt,
         Single.mkWorld
           (Single.mkApp (Single.status a)
              (match answer, fs !! index with
               | Ok modifiedText, Some _ => <[index := modifiedText]> fs
               | _, _ => fs
               end)
              (Single.error a) (Single.audioBlob a) (Single.chat a) (Single.chatHistory a)
              (Single.selectedModel a))
           (Single.mkView (Single.dictatingIndex v) None None
              (match answer with
               | Ok _ => Single.continuationError v
               | Throw e => failure e
               end)
              (Single.continuationState v))
           (Single.localStorage w),
         log ++ [ModifyFindingWithAudio (fs !! index) audio])).
Proof.
  intros Hu fs a v failure. subst fs a v failure.
  destruct w as [[st0 fs er au ch hi mo] v st].
  cbn [Single.app Single.view Single.localStorage Single.status Single.findings
       Single.error Single.audioBlob Single.chat Single.chatHistory Single.selectedModel].
  split; intros Hi.
  - unfold Single.handleStopDictation, Single.handleUpdateFinding. run.
    rewrite Hi, Hu. run.
    destruct answer as [newText|e]; run; [|reflexivity].
    destruct (fs !! index) as [existingText|] eqn:E; run; [|reflexivity].
    now rewrite E.
  - unfold Single.handleStopDictateEdit, Single.handleUpdateFinding. run.
    rewrite Hi, Hu. run.
    destruct answer as [newText|e]; run; [|reflexivity].
    now destruct (fs !! index).
Qed.

Lemma single_dictation_contained_witness :
  let w := Single.mkWorld
             (Single.mkApp Single.Success [str "Liver:"; str "C"] None None None []
                (str "gemini-2.5-pro"))
             (Single.mkView (Some 0) None None None (Single.CIdle, None)) ∅ in
  let audio := mkBlob [1%N] (str "audio/webm") in
  Single.findings (Single.app (stateOf
    (Single.handleStopDictation (Some audio) (Ok (str " no mass. ")) w [])))
  = [str "Liver: no mass."; str "C"].
Proof.
  intros w audio.
  destruct (single_dictation_contained w (Some audio) audio 0 (Ok (str " no mass. ")) []
              eq_refl) as [H _].
  rewrite H; reflexivity.
Defined.

(** X22.  Batch mode, for a batch with findings and usable audio: the
    per-finding append and modify never throw and make exactly one client
    call, with the text that the batch held at the index when the handler
    started.  On success the registry is the one that the manual update
    [handleUpdateFindingForBatch] produces for the computed text; on a
    failure of the client, or when the index holds no finding to append to,
    the registry is unchanged and the message is recorded for that batch
    and index.  Either way the dictation marker and the processing marker
    end cleared. *)
Theorem batch_dictation_contained (s : Batch.State) (captured : option Blob)
    (audio : Blob) (batchId : jsstring) (index : nat) (batch : Batch.Batch) (fs : jsarray)
    (answer : result jsstring) (log : list Call) :
  Batch.findBatch batchId (Batch.batches s) = Some batch ->
  Batch.findings batch = Some fs ->
  usable captured = Some audio ->
  let failure e := Some (batchId, index, messageOr (str "An unknown error occurred.") e) in
  let updated text :=
    Batch.batches (stateOf (Batch.handleUpdateFindingForBatch batchId index text s log)) in
  (Batch.dictatingState s = Some (batchId, index) ->
   let run := Batch.handleStopDictation captured answer s log in
   resultOf run = Ok tt
   /\ callsOf run = log ++ [ContinueAudioDictation (arr_get fs index) audio]
   /\ Batch.batches (stateOf run)
      = match answer, arr_get fs index with
        | Ok newText, Some existingText => updated (appendText existingText newText)
        | _, _ => Batch.batches s
        end
   /\ Batch.continuationError (stateOf run)
      = match answer, arr_get fs index with
        | Ok _, Some _ => Batch.continuationError s
        | Ok _, None => failure TypeError_undefined
        | Throw e, _ => failure e
        end
   /\ Batch.dictatingState (stateOf run) = None
   /\ Batch.processingState (stateOf run) = None)
  /\ (Batch.dictateEditingState s = Some (batchId, index) ->
      let run := Batch.handleStopDictateEditForBatch captured answer s log in
      resultOf run = Ok tt
      /\ callsOf run = log ++ [ModifyFindingWithAudio (arr_get fs index) audio]
      /\ Batch.batches (stateOf run)
         = match answer with
           | Ok modifiedText => updated modifiedText
           | Throw _ => Batch.batches s
           end
      /\ Batch.continuationError (stateOf run)
         = match answer with
           | Ok _ => Batch.continuationError s
           | Throw e => failure e
           end
      /\ Batch.dictateEditingState (stateOf run) = None
      /\ Batch.processingState (stateOf run) = None).
Proof.
  intros Hfind Hfs Hu failure updated. subst failure updated.
  assert (Ht : Batch.target (Batch.batches s) batchId captured = Some (fs, audio)).
  { unfold Batch.target. now rewrite Hfind, Hu, Hfs. }
  split; intros Hi run0; subst run0.
  - unfold Batch.handleStopDictation, Batch.handleUpdateFindingForBatch. run.
    rewrite Hi. run. rewrite Ht. run.
    destruct answer as [newText|e]; run; [|now repeat split].
    destruct (arr_get fs index) as [existingText|]; run; now repeat split.
  - unfold Batch.handleStopDictateEditForBatch, Batch.handleUpdateFindingForBatch. run.
    rewrite Hi. run. rewrite Ht. run.
    destruct answer as [newText|e]; run; now repeat split.
Qed.

Lemma batch_dictation_contained_witness :
  let b1 := Batch.mkBatch (str "a") (str "Dictation #1") [] (Some [Some (str "Liver:")])
              Batch.complete (str "gemini-2.5-pro") None None None (Some false) in
  let s := Batch.mkState [b1] None false false
             (Batch.mkContinuation None Batch.CIdle None)
             None (Some (str "a", 0)) None None ∅ in
  let audio := mkBlob [1%N] (str "audio/webm") in
  let run := Batch.handleStopDictateEditForBatch (Some audio)
               (Throw (ErrorObj (str "quota"))) s [] in
  Batch.batches (stateOf run) = [b1]
  /\ Batch.continuationError (stateOf run) = Some (str "a", 0, str "quota").
Proof.
  intros b1 s audio run.
  destruct (batch_dictation_contained s (Some audio) audio (str "a") 0 b1
              [Some (str "Liver:")] (Throw (ErrorObj (str "quota"))) []
              eq_refl eq_refl eq_refl) as [_ H].
  destruct (H eq_refl) as (_ & _ & Hb & He & _). split; [exact Hb|exact He].
Defined.

(** ** Continuing a dictation: the success path *)

(** X23.  A continuation that succeeds only appends.  In single mode the
    new findings follow the existing ones, the stored audio becomes the old
    bytes followed by the new ones under the cleaned type of the old audio,
    the status is unchanged, and exactly two calls are made: the
    transcription of the new audio alone, then the creation of the chat
    over the merged audio and the complete finding list.  In batch mode the
    new artifact is appended to the artifacts of the batch, the new findings
    to its findings, its name and status are kept, the other batches are
    untouched, the same two calls are made with the model of the batch, and
    the continuation marker is cleared. *)
Theorem continue_dictation_appends (newAudioBlob : Blob) (fresh : list jsstring)
    (chatSession : Chat) (log : list Call) :
  (forall (w : Single.World) (audio : Blob),
     Single.audioBlob (Single.app w) = Some audio ->
     let fs := Single.findings (Single.app w) in
     let model := Single.selectedModel (Single.app w) in
     let merged := mkBlob (blob_bytes audio ++ blob_bytes newAudioBlob)
                          (getCleanMimeType audio) in
     let run := Single.handleContinueDictation newAudioBlob (Ok fresh) (Ok chatSession)
                  w log in
     resultOf run = Ok tt
     /\ callsOf run = log ++ [ProcessAudio newAudioBlob model;
                               CreateChat merged (dense (fs ++ fresh)) model]
     /\ Single.findings (Single.app (stateOf run)) = fs ++ fresh
     /\ Single.audioBlob (Single.app (stateOf run)) = Some merged
     /\ Single.chat (Single.app (stateOf run)) = Some chatSession
     /\ Single.status (Single.app (stateOf run)) = Single.status (Single.app w))
  /\ (forall (s : Batch.State) (batchId : jsstring) (batch : Batch.Batch) (fs : jsarray),
        batchId <> [] ->
        Batch.cont_batchId (Batch.continuationState s) = Some batchId ->
        Batch.findBatch batchId (Batch.batches s) = Some batch ->
        Batch.findings batch = Some fs ->
        (0 < blob_size newAudioBlob)%nat ->
        let model := Batch.selectedModel batch in
        let blobs := Batch.audioBlobs batch ++ [newAudioBlob] in
        let merged := newBlob blobs (blob_type (hd newAudioBlob blobs)) in
        let run := Batch.handleStopContinue (Some newAudioBlob) (Ok fresh) (Ok chatSession)
                     s log in
        resultOf run = Ok tt
        /\ callsOf run = log ++ [ProcessAudio newAudioBlob model;
                                  CreateChat merged (fs ++ dense fresh) model]
        /\ Forall2 (fun b b' =>
             if Batch.id_eqb (Batch.id b) batchId
             then Batch.id b' = Batch.id b /\ Batch.name b' = Batch.name b
                  /\ Batch.status b' = Batch.status b
                  /\ Batch.audioBlobs b' = blobs
                  /\ Batch.findings b' = Some (fs ++ dense fresh)
                  /\ Batch.chat b' = Some chatSession
             else b' = b)
             (Batch.batches s) (Batch.batches (stateOf run))
        /\ Batch.continuationState (stateOf run)
           = Batch.mkContinuation None Batch.CIdle None).
Proof.
  split.
  - intros w audio Ha fs model merged run0. subst fs model merged run0.
    unfold Single.handleContinueDictation. run. rewrite Ha. run.
    unfold resultOf, callsOf, stateOf. cbn [fst snd Single.app Single.findings
      Single.audioBlob Single.chat Single.status].
    rewrite <- app_assoc. unfold newBlob. cbn [List.map concat]. rewrite app_nil_r.
    now repeat split.
  - intros s batchId batch fs Hne Hc Hfind Hfs Hsize model blobs merged run0.
    subst model blobs merged run0.
    unfold Batch.handleStopContinue, Batch.continueWith. run. rewrite Hc.
    destruct batchId as [|c p]; [congruence|].
    unfold usable. apply Nat.ltb_lt in Hsize. rewrite Hsize. run.
    rewrite Hfind, Hfs. run.
    unfold resultOf, callsOf, stateOf. cbn [fst snd Batch.batches Batch.continuationState].
    rewrite <- app_assoc. split; [reflexivity|]. split; [reflexivity|].
    split; [|reflexivity].
    clear Hfind. generalize (Batch.batches s). intros bs.
    induction bs as [|b bs IH]; cbn [List.map]; constructor; [|exact IH].
    destruct (Batch.id_eqb (Batch.id b) (c :: p)); [|reflexivity].
    cbn [Batch.id Batch.name Batch.status Batch.audioBlobs Batch.findings Batch.chat].
    now repeat split.
Qed.

Lemma continue_dictation_appends_witness :
  let old := mkBlob [1; 2]%N (str "audio/webm;codecs=opus") in
  let new := mkBlob [3%N] (str "audio/mp4") in
  let w := Single.mkWorld
             (Single.mkApp Single.Success [str "A"] None (Some old) None []
                (str "gemini-2.5-pro"))
             (Single.mkView None None None None (Single.CIdle, None)) ∅ in
  let run := Single.handleContinueDictation new (Ok [str "B"]) (Ok (ChatSession 1)) w [] in
  Single.findings (Single.app (stateOf run)) = [str "A"; str "B"]
  /\ Single.audioBlob (Single.app (stateOf run))
     = Some (mkBlob [1; 2; 3]%N (str "audio/webm")).
Proof.
  intros old new w run.
  destruct (continue_dictation_appends new [str "B"] (ChatSession 1) []) as [H _].
  destruct (H w old eq_refl) as (_ & _ & Hf & Ha & _). split; [exact Hf|exact Ha].
Defined.

(** ** Processing all the batches, twice *)

(** The run of [handleProcessAll], with the state it ends in. *)
Lemma processAll_run (model : jsstring)
    (answers : Batch.Batch -> result (list jsstring) * result Chat)
    (schedule : list Batch.Batch -> list Batch.Batch)
    (s : Batch.State) (log : list Call) :
  List.NoDup (List.map Batch.id (Batch.batches s)) ->
  (forall l, schedule l ≡ₚ l) ->
  exists log',
    Batch.handleProcessAll model answers schedule s log
    = (Ok tt,
       Batch.withBatches
         (List.map (fun b =>
            if Batch.processable b
            then Batch.settle (fst (answers b)) (snd (answers b))
                   (Batch.withStatus Batch.processing b)
            else b)) s,
       log').
Proof.
  intros Hnd Hsched. unfold Batch.handleProcessAll. cbv [mbind M_bind gets].
  destruct (Batch.batchesToProcess (Batch.batches s)) as [|p0 l0] eqn:Htp.
  - exists log. cbv [mret M_ret]. f_equal. f_equal.
    rewrite <- (withBatches_id s) at 1. unfold Batch.withBatches. f_equal.
    rewrite <- (List.map_id (Batch.batches s)) at 1.
    apply List.map_ext_in. intros b Hb.
    destruct (Batch.processable b) eqn:E; [|reflexivity].
    assert (Hin : In b (Batch.batchesToProcess (Batch.batches s)))
      by (apply filter_In; now split).
    rewrite Htp in Hin. contradiction.
  - rewrite <- Htp. cbv [Batch.setBatches modify].
    destruct (forEach_run model answers
                (schedule (Batch.batchesToProcess (Batch.batches s)))
                (Batch.withBatches
                   (Batch.markProcessing (Batch.batchesToProcess (Batch.batches s))) s)
                log) as [log' E].
    { apply List.Forall_forall. intros p Hp.
      apply (Permutation_in _ (Hsched _)) in Hp. apply filter_In in Hp as [_ Hp].
      now apply processable_has_audio. }
    rewrite E. exists log'. f_equal. f_equal. unfold Batch.withBatches.
    cbn [Batch.batches Batch.activeBatchId Batch.isBusy Batch.isMainRecording
         Batch.continuationState Batch.dictatingState Batch.dictateEditingState
         Batch.processingState Batch.continuationError Batch.localStorage].
    f_equal.
    rewrite fold_steps, markProcessing_selected, List.map_map by exact Hnd.
    apply List.map_ext_in. intros b Hb.
    rewrite fold_element.
    2:{ eapply Permutation_NoDup; [apply Permutation_map; symmetry; apply Hsched|].
        now apply NoDup_ids_filter. }
    assert (Hid : Batch.id (if Batch.processable b
                            then Batch.withStatus Batch.processing b else b) = Batch.id b)
      by now destruct (Batch.processable b).
    rewrite Hid, (find_selected (Batch.batches s) _ b Hnd Hb (Hsched _)).
    now destruct (Batch.processable b).
Qed.

Lemma settle_not_processable t c b :
  Batch.processable (Batch.settle t c b) = false.
Proof.
  destruct t as [fs|e]; [destruct c as [ch|e]|]; unfold Batch.processable;
    cbn [Batch.settle Batch.withTranscript Batch.withError Batch.status Batch.findings
         Batch.audioBlobs Batch.status_eqb orb andb];
    [apply andb_false_r|reflexivity..].
Qed.

(** X24.  Processing all the batches leaves nothing to process: in a
    registry with distinct identifiers, whatever the clients answer and in
    whatever order the tasks complete, [handleProcessAll] returns normally
    and no batch passes its filter afterwards (a batch whose transcription
    failed is in status error, outside the filter); so running it again,
    with any model and any answers, makes no call and changes nothing. *)
Theorem process_all_leaves_nothing (model : jsstring)
    (answers : Batch.Batch -> result (list jsstring) * result Chat)
    (schedule : list Batch.Batch -> list Batch.Batch)
    (s : Batch.State) (log : list Call) :
  List.NoDup (List.map Batch.id (Batch.batches s)) ->
  (forall l, schedule l ≡ₚ l) ->
  let run := Batch.handleProcessAll model answers schedule s log in
  resultOf run = Ok tt
  /\ Batch.batchesToProcess (Batch.batches (stateOf run)) = []
  /\ forall model' answers' schedule' log',
       Batch.handleProcessAll model' answers' schedule' (stateOf run) log'
       = (Ok tt, stateOf run, log').
Proof.
  intros Hnd Hsched run0. subst run0.
  destruct (processAll_run model answers schedule s log Hnd Hsched) as [log1 E].
  rewrite E. unfold resultOf, stateOf. cbn [fst snd].
  assert (Hnone : Batch.batchesToProcess
                    (Batch.batches
                       (Batch.withBatches
                          (List.map (fun b =>
                             if Batch.processable b
                             then Batch.settle (fst (answers b)) (snd (answers b))
                                    (Batch.withStatus Batch.processing b)
                             else b)) s)) = []).
  { cbn [Batch.batches Batch.withBatches]. unfold Batch.batchesToProcess.
    induction (Batch.batches s) as [|b bs IH]; [reflexivity|].
    cbn [List.map List.filter].
    destruct (Batch.processable b) eqn:Eb.
    - rewrite settle_not_processable. apply IH. now inversion Hnd.
    - rewrite Eb. apply IH. now inversion Hnd. }
  split; [reflexivity|]. split; [exact Hnone|].
  intros model' answers' schedule' log'. unfold Batch.handleProcessAll.
  cbv [mbind M_bind gets]. now rewrite Hnone.
Qed.

Lemma process_all_leaves_nothing_witness :
  let blob := mkBlob [26; 69]%N (str "audio/webm") in
  let b1 := Batch.mkBatch (str "b1") (str "Dictation #1") [blob] None Batch.complete
              (str "gemini-2.5-pro") None None None (Some false) in
  let b2 := Batch.mkBatch (str "b2") (str "Dictation #2") [blob] None Batch.paused
              (str "gemini-2.5-pro") None None None (Some false) in
  let s := Batch.mkState [b1; b2] None false false
             (Batch.mkContinuation None Batch.CIdle None) None None None None ∅ in
  let answers := fun b : Batch.Batch =>
    if Batch.id_eqb (Batch.id b) (str "b1")
    then (Ok [str "Normal."], Ok (ChatSession 1))
    else (Throw (ErrorObj (str "Failed to process audio: 500")), Ok (ChatSession 2)) in
  let s1 := stateOf (Batch.handleProcessAll (str "gemini-2.5-pro") answers (@rev _) s []) in
  List.map Batch.status (Batch.batches s1) = [Batch.complete; Batch.error]
  /\ Batch.handleProcessAll (str "gemini-2.5-pro") answers (fun l => l) s1 []
     = (Ok tt, s1, []).
Proof.
  intros blob b1 b2 s answers s1. split; [reflexivity|].
  apply (process_all_leaves_nothing (str "gemini-2.5-pro") answers (@rev _) s []).
  - repeat constructor; simpl; intuition discriminate.
  - intros l. symmetry. apply Permutation_rev.
Defined.

(** ** The multi-select toggle *)

Lemma has_In index selected : MultiSelect.has index selected = true <-> In index selected.
Proof.
  unfold MultiSelect.has. rewrite existsb_exists. split.
  - intros (x & Hx & E). apply Nat.eqb_eq in E. now subst.
  - intros H. exists index. split; [exact H|apply Nat.eqb_refl].
Qed.

Lemma filter_absent index (l : list nat) :
  ~ In index l -> List.filter (fun i => negb (i =? index)%nat) l = l.
Proof.
  induction l as [|x l IH]; intros H; [reflexivity|]. cbn [List.filter].
  destruct (x =? index)%nat eqn:E.
  - apply Nat.eqb_eq in E. subst. exfalso. apply H. now left.
  - cbn [negb]. f_equal. apply IH. intros Hin. apply H. now right.
Qed.

(** X25.  Entering multi-select mode on a finding in which text is selected
    stores the selected text as the snippet of that finding, but the copy
    made by that same click still reads the snippets of the render in which
    the handler was created: the clipboard receives the whole finding, while
    a copy of the resulting selection would give the snippet. *)
Theorem entering_multi_select_copies_whole_finding (fs : list jsstring) (index : nat)
    (finding selectedText : jsstring) (v : MultiSelect.Selection) :
  MultiSelect.multiSelectMode v = false ->
  MultiSelect.selectedIndices v = [] ->
  MultiSelect.selectionSnippets v !! index = None ->
  fs !! index = Some finding ->
  selectedText <> [] ->
  let '(v', copied) :=
    MultiSelect.handleMultiSelectToggle fs index selectedText (Some index) v in
  MultiSelect.multiSelectMode v' = true
  /\ MultiSelect.selectedIndices v' = [index]
  /\ MultiSelect.selectionSnippets v' !! index = Some selectedText
  /\ copied = ToClipboard (renderPlain finding) (renderHtml finding)
  /\ Single.copySelection fs (MultiSelect.selectionSnippets v')
       (MultiSelect.selectedIndices v')
     = ToClipboard selectedText (str "<strong>" ++ selectedText ++ str "</strong>").
Proof.
  intros Hm Hs Hsn Hf Hne. unfold MultiSelect.handleMultiSelectToggle.
  rewrite Hm, Hs. cbn [MultiSelect.has existsb app].
  destruct selectedText as [|c t]; [congruence|]. rewrite Nat.eqb_refl.
  cbn [MultiSelect.multiSelectMode MultiSelect.selectedIndices MultiSelect.selectionSnippets].
  split; [reflexivity|]. split; [reflexivity|]. split; [apply lookup_insert_eq|].
  unfold Single.copySelection, copyIndices. rewrite sortNumeric_singleton.
  cbn [copyEntries]. unfold copyEntry. rewrite Hsn, Hf, lookup_insert_eq.
  cbn [join concat]. now rewrite !app_nil_r.
Qed.

(** X26.  In multi-select mode, selecting a finding and deselecting it again
    restores the selection as it was (the selected indices stay free of
    duplicates in between), forgets the snippet of that finding only, and
    the copy made by the second click is the copy of the original
    selection. *)
Theorem toggle_twice_restores (fs : list jsstring) (index : nat)
    (text1 text2 : jsstring) (at1 at2 : option nat) (v : MultiSelect.Selection) :
  MultiSelect.multiSelectMode v = true ->
  List.NoDup (MultiSelect.selectedIndices v) ->
  ~ In index (MultiSelect.selectedIndices v) ->
  let v1 := fst (MultiSelect.handleMultiSelectToggle fs index text1 at1 v) in
  let '(v2, copied) := MultiSelect.handleMultiSelectToggle fs index text2 at2 v1 in
  List.NoDup (MultiSelect.selectedIndices v1)
  /\ MultiSelect.selectedIndices v2 = MultiSelect.selectedIndices v
  /\ MultiSelect.selectionSnippets v2 = delete index (MultiSelect.selectionSnippets v)
  /\ copied = Single.copySelection fs (MultiSelect.selectionSnippets v)
                (MultiSelect.selectedIndices v).
Proof.
  intros Hm Hnd Hnot v1. subst v1. unfold MultiSelect.handleMultiSelectToggle.
  rewrite Hm. cbn [fst MultiSelect.multiSelectMode MultiSelect.selectedIndices
    MultiSelect.selectionSnippets].
  assert (H0 : MultiSelect.has index (MultiSelect.selectedIndices v) = false).
  { destruct (MultiSelect.has index (MultiSelect.selectedIndices v)) eqn:E; [|reflexivity].
    apply has_In in E. contradiction. }
  rewrite H0.
  cbn [fst MultiSelect.multiSelectMode MultiSelect.selectedIndices
    MultiSelect.selectionSnippets].
  assert (H1 : MultiSelect.has index (MultiSelect.selectedIndices v ++ [index]) = true).
  { apply has_In, in_or_app. right. now left. }
  rewrite H1.
  assert (Hf : List.filter (fun i => negb (i =? index)%nat)
                 (MultiSelect.selectedIndices v ++ [index])
               = MultiSelect.selectedIndices v).
  { rewrite List.filter_app, (filter_absent _ _ Hnot). cbn [List.filter].
    rewrite Nat.eqb_refl. cbn [negb]. apply app_nil_r. }
  rewrite Hf. cbn [MultiSelect.selectedIndices MultiSelect.selectionSnippets].
  split; [|now repeat split].
  apply List.NoDup_app; [exact Hnd|repeat constructor; simpl; tauto|].
  intros a Ha [<-|[]]. contradiction.
Qed.

Lemma entering_multi_select_copies_whole_finding_witness :
  let v := MultiSelect.mkSelection false [] ∅ in
  snd (MultiSelect.handleMultiSelectToggle [str "A###B"; str "No mass seen."] 1
         (str "mass") (Some 1) v)
  = ToClipboard (str "No mass seen.") (str "<p><strong>No mass seen.</strong></p>").
Proof.
  intros v.
  pose proof (entering_multi_select_copies_whole_finding
                [str "A###B"; str "No mass seen."] 1 (str "No mass seen.") (str "mass") v
                eq_refl eq_refl eq_refl eq_refl ltac:(discriminate)) as H.
  destruct (MultiSelect.handleMultiSelectToggle [str "A###B"; str "No mass seen."] 1
              (str "mass") (Some 1) v) as [v' copied].
  destruct H as (_ & _ & _ & Hc & _). exact Hc.
Defined.

Lemma toggle_twice_restores_witness :
  let v := MultiSelect.mkSelection true [2; 0] {[ 0 := str "snip" ]} in
  let v1 := fst (MultiSelect.handleMultiSelectToggle [str "A"; str "B"; str "C"] 1 [] None v) in
  MultiSelect.selectedIndices
    (fst (MultiSelect.handleMultiSelectToggle [str "A"; str "B"; str "C"] 1 [] None v1))
  = [2; 0].
Proof.
  intros v v1.
  pose proof (toggle_twice_restores [str "A"; str "B"; str "C"] 1 [] [] None None v
                eq_refl) as H.
  cbv zeta in H. fold v1 in H.
  destruct (MultiSelect.handleMultiSelectToggle [str "A"; str "B"; str "C"] 1 [] None v1)
    as [v2 copied].
  destruct H as (_ & Hs & _).
  - repeat constructor; simpl; intuition discriminate.
  - simpl. intuition discriminate.
  - exact Hs.
Defined.

(** ** What a reload does to a chat in flight *)

Lemma findBatch_Forall2 (R : Batch.Batch -> Batch.Batch -> Prop) (i : jsstring)
    (bs bs' : list Batch.Batch) (b : Batch.Batch) :
  Forall2 R bs bs' ->
  Batch.findBatch i bs = Some b ->
  (forall x y, R x y -> Batch.id y = Batch.id x) ->
  exists b', Batch.findBatch i bs' = Some b' /\ R b b'.
Proof.
  intros HR Hf Hid. revert Hf. unfold Batch.findBatch.
  induction HR as [|x y l l' Hxy _ IH]; intros Hf; [discriminate|].
  cbn [List.find] in *. rewrite (Hid _ _ Hxy).
  destruct (Batch.id_eqb (Batch.id x) i).
  - injection Hf as <-. now exists y.
  - now apply IH.
Qed.

(** X27.  A reload keeps a chat blocked: the chatting flag of a batch is part
    of the snapshot, so a batch saved while one of its messages was in
    flight is restored with the flag set, and on the reloaded registry
    [handleSendMessage] for that batch does nothing, whatever the message
    and the reply. *)
Theorem reload_keeps_chat_blocked (s : Batch.State)
    (session : Batch.SavedBatch -> result Chat) (batchId : jsstring) (b : Batch.Batch)
    (log : list Call) :
  Forall (fun b => Forall (fun blob => Forall (fun x => (x < 256)%N) (blob_bytes blob))
                          (Batch.audioBlobs b)) (Batch.batches s) ->
  Batch.findBatch batchId (Batch.batches s) = Some b ->
  Batch.isChatting b = Some true ->
  let stored := Batch.localStorage (stateOf (Batch.saveState s log)) in
  let reloaded := stateOf (Batch.loadState session (Batch.initial stored) []) in
  (exists b', Batch.findBatch batchId (Batch.batches reloaded) = Some b'
              /\ Batch.isChatting b' = Some true)
  /\ forall message reply log',
       BatchProcessor.handleSendMessage batchId message reply reloaded log'
       = (Ok tt, reloaded, log').
Proof.
  intros Hall Hfind Hbusy stored reloaded.
  assert (Hne : Batch.batches s <> []).
  { intros E. rewrite E in Hfind. discriminate. }
  assert (Es : stored = <[Batch.BATCH_MODE_STORAGE_KEY :=
                           Parsed (List.map Batch.persisted (Batch.batches s))]>
                          (Batch.localStorage s)).
  { subst stored. unfold Batch.saveState. run.
    destruct (Batch.batches s); [congruence|reflexivity]. }
  assert (Hb : exists b', Batch.findBatch batchId (Batch.batches reloaded) = Some b'
                          /\ Batch.isChatting b' = Some true).
  { subst reloaded. rewrite Es. unfold Batch.loadState, Batch.initial. run.
    rewrite lookup_insert_eq.
    match goal with
    | |- context [Batch.restoreAll session _ ?s0 ?l0] =>
        destruct (restore_all_persisted session (Batch.batches s) s0 l0 Hall)
          as (bs' & log1 & E & R)
    end.
    rewrite E.
    destruct (findBatch_Forall2 _ batchId _ _ b R Hfind) as (b' & Hf' & Hb');
      [intros x y ->; reflexivity|].
    exists b'. split.
    - destruct bs' as [|y bs']; [discriminate|]. exact Hf'.
    - rewrite Hb'. exact Hbusy. }
  split; [exact Hb|]. destruct Hb as (b' & Hf' & Hc').
  intros message reply log'. unfold BatchProcessor.handleSendMessage. run.
  rewrite Hf', Hc'. now destruct (Batch.chat b').
Qed.

Lemma reload_keeps_chat_blocked_witness :
  let b1 := Batch.mkBatch (str "a") (str "Dictation #1") [mkBlob [7%N] (str "audio/webm")]
              (Some [Some (str "F")]) Batch.complete (str "gemini-2.5-pro") None
              (Some (ChatSession 0)) (Some [mkMessage You (str "why?")]) (Some true) in
  let s := Batch.mkState [b1] None false false
             (Batch.mkContinuation None Batch.CIdle None) None None None None ∅ in
  let stored := Batch.localStorage (stateOf (Batch.saveState s [])) in
  let reloaded := stateOf (Batch.loadState (fun _ => Ok (ChatSession 1))
                             (Batch.initial stored) []) in
  BatchProcessor.handleSendMessage (str "a") (TextMessage (str "again?")) (Ok (str "yes"))
    reloaded []
  = (Ok tt, reloaded, []).
Proof.
  intros b1 s stored reloaded.
  apply (reload_keeps_chat_blocked s (fun _ => Ok (ChatSession 1)) (str "a") b1 []).
  - repeat constructor.
  - reflexivity.
  - reflexivity.
Defined.

(** ** Which calls a transcription makes, and with which model *)

Lemma processOne_calls model answers p s log :
  callsOf (Batch.processOne model p (fst (answers p)) (snd (answers p)) s log)
  = log ++ callsFor model answers p.
Proof.
  unfold Batch.processOne, callsFor.
  destruct (Batch.audioBlobs p) as [|first rest]; [cbn; now rewrite app_nil_r|].
  destruct (fst (answers p)) as [fs|e]; [destruct (snd (answers p)) as [ch|e]|];
    cbv [mbind M_bind call try_catch Batch.setBatches modify callsOf snd];
    now rewrite <- ?app_assoc.
Qed.

Lemma processOne_ok model p t c s log :
  resultOf (Batch.processOne model p t c s log) = Ok tt.
Proof.
  unfold Batch.processOne.
  destruct (Batch.audioBlobs p) as [|first rest]; [reflexivity|].
  destruct t as [fs|e]; [destruct c as [ch|e]|]; reflexivity.
Qed.

Lemma forEach_calls model answers (l : list Batch.Batch) : forall s log,
  callsOf (Batch.forEach
             (fun batch => Batch.processOne model batch (fst (answers batch))
                             (snd (answers batch))) l s log)
  = log ++ flat_map (callsFor model answers) l.
Proof.
  induction l as [|p l IH]; intros s log; cbn [Batch.forEach flat_map].
  - cbn. now rewrite app_nil_r.
  - unfold mbind, M_bind.
    pose proof (processOne_calls model answers p s log) as Hc.
    pose proof (processOne_ok model p (fst (answers p)) (snd (answers p)) s log) as Hr.
    destruct (Batch.processOne model p (fst (answers p)) (snd (answers p)) s log)
      as [[r s1] log1].
    unfold callsOf, resultOf in Hc, Hr. cbn [fst snd] in Hc, Hr. subst r log1.
    rewrite IH. now rewrite <- app_assoc.
Qed.

(** X28.  The calls of a transcription, and the model they use.  Whatever
    the order in which its tasks complete, [handleProcessAll] makes, for
    each batch that passes its filter and for no other, one transcription
    call on the artifacts of the batch merged in order under the type of the
    first, followed when it succeeded by one chat creation on the same
    audio, all with the model of the component, not the model recorded in
    the batch; [handleReprocessBatch] makes the same calls for its batch
    with the model recorded in that batch. *)
Theorem transcription_calls (model : jsstring)
    (answers : Batch.Batch -> result (list jsstring) * result Chat)
    (schedule : list Batch.Batch -> list Batch.Batch)
    (s : Batch.State) (log : list Call) :
  (forall l, schedule l ≡ₚ l) ->
  (exists calls,
     callsOf (Batch.handleProcessAll model answers schedule s log) = log ++ calls
     /\ calls ≡ₚ flat_map (callsFor model answers) (Batch.batchesToProcess (Batch.batches s)))
  /\ forall batchId batch,
       Batch.findBatch batchId (Batch.batches s) = Some batch ->
       callsOf (Batch.handleReprocessBatch batchId (fst (answers batch))
                  (snd (answers batch)) s log)
       = log ++ callsFor (Batch.selectedModel batch) answers batch.
Proof.
  intros Hsched. split.
  - unfold Batch.handleProcessAll. cbv [mbind M_bind gets].
    destruct (Batch.batchesToProcess (Batch.batches s)) as [|p0 l0] eqn:Htp.
    + exists []. split; [cbn; now rewrite app_nil_r|reflexivity].
    + cbv [Batch.setBatches modify].
      exists (flat_map (callsFor model answers) (schedule (p0 :: l0))).
      split; [apply forEach_calls|].
      apply Permutation_flat_map. apply Hsched.
  - intros batchId batch Hfind. unfold Batch.handleReprocessBatch, callsFor. run.
    rewrite Hfind.
    destruct (Batch.audioBlobs batch) as [|first rest]; [cbn; now rewrite app_nil_r|].
    destruct (fst (answers batch)) as [fs|e]; [destruct (snd (answers batch)) as [ch|e]|];
      run; unfold callsOf; cbn [snd]; now rewrite <- ?app_assoc.
Qed.

Lemma transcription_calls_witness :
  let blob := mkBlob [26; 69]%N (str "audio/webm") in
  let b1 := Batch.mkBatch (str "b1") (str "Dictation #1") [blob] None Batch.complete
              (str "gemini-2.5-flash") None None None (Some false) in
  let s := Batch.mkState [b1] None false false
             (Batch.mkContinuation None Batch.CIdle None) None None None None ∅ in
  let answers := fun _ : Batch.Batch => (Ok [str "Normal."], Ok (ChatSession 1)) in
  callsOf (Batch.handleProcessAll (str "gemini-2.5-pro") answers (@rev _) s [])
  = [ProcessAudio blob (str "gemini-2.5-pro");
     CreateChat blob [Some (str "Normal.")] (str "gemini-2.5-pro")]
  /\ callsOf (Batch.handleReprocessBatch (str "b1") (Ok [str "Normal."]) (Ok (ChatSession 1))
                s [])
     = [ProcessAudio blob (str "gemini-2.5-flash");
        CreateChat blob [Some (str "Normal.")] (str "gemini-2.5-flash")].
Proof.
  intros blob b1 s answers. split; [reflexivity|].
  destruct (transcription_calls (str "gemini-2.5-pro") answers (@rev _) s [])
    as [_ H]; [intros l; symmetry; apply Permutation_rev|].
  exact (H (str "b1") b1 eq_refl).
Defined.

(** ** Single mode as a transition system *)

Section SingleInvariant.

Import Single SingleMode.

Lemma keep_refl w : keep w w.
Proof. now repeat split. Qed.

Lemma keep_trans w1 w2 w3 : keep w1 w2 -> keep w2 w3 -> keep w1 w3.
Proof.
  intros (A1 & B1 & C1) (A2 & B2 & C2). repeat split; try congruence. auto.
Qed.

Lemma keeping_ret {A} (a : A) : keeping (mret a).
Proof. intros w log. apply keep_refl. Qed.

Lemma keeping_bind {A B} (m : M World A) (k : A -> M World B) :
  keeping m -> (forall a, keeping (k a)) -> keeping (m ≫= k).
Proof.
  intros Hm Hk w log. specialize (Hm w log). unfold mbind, M_bind.
  destruct (m w log) as [[[a|e] w'] log']; unfold stateOf in *; cbn [fst snd] in *.
  - eapply keep_trans; [exact Hm|]. apply Hk.
  - exact Hm.
Qed.

Lemma keeping_gets {A} (f : World -> A) : keeping (gets f).
Proof. intros w log. apply keep_refl. Qed.

Lemma keeping_throw {A} (e : exn) : keeping (throw e : M World A).
Proof. intros w log. apply keep_refl. Qed.

Lemma keeping_call {A} (c : Call) (answer : result A) : keeping (call c answer).
Proof. intros w log. unfold call. destruct answer; apply keep_refl. Qed.

Lemma keeping_try_catch {A} (body : M World A) (handler : exn -> M World A) :
  keeping body -> (forall e, keeping (handler e)) -> keeping (try_catch body handler).
Proof.
  intros Hb Hh w log. specialize (Hb w log). unfold try_catch.
  destruct (body w log) as [[[a|e] w'] log']; unfold stateOf in *; cbn [fst snd] in *.
  - exact Hb.
  - eapply keep_trans; [exact Hb|]. apply Hh.
Qed.

Lemma keeping_try_finally {A} (body : M World A) (final : M World unit) :
  keeping body -> keeping final -> keeping (try_finally body final).
Proof.
  intros Hb Hf w log. specialize (Hb w log). unfold try_finally.
  destruct (body w log) as [[r w'] log']. specialize (Hf w' log').
  destruct (final w' log') as [[[u|e] w''] log'']; unfold stateOf in *; cbn [fst snd] in *;
    eapply keep_trans; eauto.
Qed.

Lemma keeping_setFindings v : keeping (setFindings v).
Proof. intros w log. now repeat split. Qed.
Lemma keeping_setAudioBlob b : keeping (setAudioBlob (Some b)).
Proof. intros w log. repeat split. intros _. discriminate. Qed.
Lemma keeping_setChat v : keeping (setChat v).
Proof. intros w log. now repeat split. Qed.
Lemma keeping_setChatHistory v : keeping (setChatHistory v).
Proof. intros w log. now repeat split. Qed.
Lemma keeping_setSelectedModel v : keeping (setSelectedModel v).
Proof. intros w log. now repeat split. Qed.
Lemma keeping_setDictatingIndex v : keeping (setDictatingIndex v).
Proof. intros w log. now repeat split. Qed.
Lemma keeping_setDictateEditingIndex v : keeping (setDictateEditingIndex v).
Proof. intros w log. now repeat split. Qed.
Lemma keeping_setProcessingIndex v : keeping (setProcessingIndex v).
Proof. intros w log. now repeat split. Qed.
Lemma keeping_setContinuationError v : keeping (setContinuationError v).
Proof. intros w log. now repeat split. Qed.
Lemma keeping_setContinuationState v : keeping (setContinuationState v).
Proof. intros w log. now repeat split. Qed.
Lemma keeping_pushMessage entry : keeping (App.pushMessage entry).
Proof. intros w log. now repeat split. Qed.

Ltac keep_step :=
  first
    [ apply keeping_ret
    | apply keeping_gets
    | apply keeping_throw
    | apply keeping_call
    | apply keeping_setFindings
    | apply keeping_setAudioBlob
    | apply keeping_setChat
    | apply keeping_setChatHistory
    | apply keeping_setSelectedModel
    | apply keeping_setDictatingIndex
    | apply keeping_setDictateEditingIndex
    | apply keeping_setProcessingIndex
    | apply keeping_setContinuationError
    | apply keeping_setContinuationState
    | apply keeping_bind; [|intros ?]
    | apply keeping_try_catch; [|intros ?]
    | apply keeping_try_finally
    | match goal with
      | |- keeping (if ?c then _ else _) => destruct c
      | |- keeping (match ?x with _ => _ end) => destruct x
      end ].

Lemma keeping_handleUpdateFinding index newText : keeping (handleUpdateFinding index newText).
Proof. unfold handleUpdateFinding. repeat keep_step. Qed.

Lemma keeping_handleContinueDictation newAudioBlob t c :
  keeping (handleContinueDictation newAudioBlob t c).
Proof. unfold handleContinueDictation. repeat keep_step. Qed.

Lemma keep_invariant w w' : invariant w -> keep w w' -> invariant w'.
Proof.
  intros [Hp Hs] (Es & Ee & Ea). split; [congruence|].
  intros H. rewrite Es in H. destruct (Hs H) as [Hb He]. split; [auto|congruence].
Qed.

Lemma invariant_handleRecordingComplete audio t c w log :
  invariant (stateOf (handleRecordingComplete audio t c w log)).
Proof.
  unfold handleRecordingComplete.
  destruct (blob_size audio =? 0)%nat; run.
  - split; cbn; [discriminate|discriminate].
  - destruct t as [fs|e]; [destruct c as [ch|e]|]; run; split; cbn;
      try discriminate; (intros _; split; [discriminate|reflexivity]).
Qed.

Lemma invariant_step s a log :
  invariant (App.world s) -> invariant (App.world (stateOf (step a s log))).
Proof.
  intros Hinv.
  assert (Hlift : forall (m : M World unit),
            keeping m -> invariant (App.world (stateOf (App.lift m s log)))).
  { intros m Hm. specialize (Hm (App.world s) log). unfold App.lift.
    destruct (m (App.world s) log) as [[r w'] log']. unfold stateOf in *.
    cbn [fst snd App.world] in *. now apply (keep_invariant (App.world s)). }
  assert (Hdirect : forall (m : M World unit),
            (forall w l, invariant w -> invariant (stateOf (m w l))) ->
            invariant (App.world (stateOf (App.lift m s log)))).
  { intros m Hm. specialize (Hm (App.world s) log Hinv). unfold App.lift.
    destruct (m (App.world s) log) as [[r w'] log']. exact Hm. }
  destruct a; cbn [step].
  - apply Hdirect. intros w l _. split; cbn; discriminate.
  - apply Hdirect. intros w l _. apply invariant_handleRecordingComplete.
  - apply Hlift. repeat keep_step.
  - apply Hdirect. intros w l Hw. unfold handleReprocess. run.
    destruct (audioBlob (app w)) as [audio|].
    + apply invariant_handleRecordingComplete.
    + run. split; cbn; discriminate.
  - apply Hlift. apply keeping_handleUpdateFinding.
  - apply Hlift. unfold handleSaveEdit.
    repeat first [apply keeping_handleUpdateFinding|keep_step].
  - apply Hlift. unfold handleStartDictation. repeat keep_step.
  - apply Hlift. unfold handleStopDictation.
    repeat first [apply keeping_handleUpdateFinding|keep_step].
  - apply Hlift. unfold handleStartDictateEdit. repeat keep_step.
  - apply Hlift. unfold handleStopDictateEdit.
    repeat first [apply keeping_handleUpdateFinding|keep_step].
  - apply Hlift. unfold handleStartContinue. repeat keep_step.
  - apply Hlift. unfold handleStopContinue.
    repeat first [apply keeping_handleContinueDictation|keep_step].
  - unfold App.handleSendMessage. run_app.
    destruct (chat (app (App.world s))); [|exact Hinv].
    destruct (App.isChatting s); [exact Hinv|].
    destruct Hinv as [Hp Hs].
    run_app. destruct reply; run_app; unfold stateOf; cbn [fst snd App.world];
      (split; [exact Hp|exact Hs]).
  - unfold App.resetSingleMode. run_app. unfold stateOf. cbn [fst snd App.world].
    split; cbn; discriminate.
Qed.

Lemma invariant_mounted storage session : invariant (App.world (mounted storage session)).
Proof.
  unfold mounted. cbn [App.world]. unfold loadState, initial. run.
  destruct (storage !! SINGLE_MODE_STORAGE_KEY) as [[|saved]|]; run;
    try (split; cbn; discriminate).
  destruct (saved_findings saved) as [[|f fs]|]; try (split; cbn; discriminate).
  destruct (saved_audio saved) as [audio|]; [|split; cbn; discriminate].
  run. destruct session; run; split; cbn; try discriminate;
    (intros _; split; [discriminate|reflexivity]).
Qed.

Lemma session_invariant s : reachable s -> invariant (App.world s).
Proof.
  induction 1 as [storage session|s a log _ IH]; [apply invariant_mounted|].
  now apply invariant_step.
Qed.

End SingleInvariant.

(** X29.  In every state that single mode reaches from the mount of [App]
    (whatever the storage holds) by its handlers run one at a time, no
    handler has left the session in status processing, and a session in
    status success has no error message and has its audio stored; so from
    the results view a continuation is never refused for lack of the
    original audio: it always reaches the transcription call. *)
Theorem single_mode_invariant (s : App.Session) :
  SingleMode.reachable s ->
  let a := Single.app (App.world s) in
  Single.status a <> Single.Processing
  /\ (Single.status a = Single.Success ->
      Single.error a = None
      /\ exists audio,
           Single.audioBlob a = Some audio
           /\ forall newAudioBlob transcription session log,
                exists rest,
                  callsOf (Single.handleContinueDictation newAudioBlob transcription
                             session (App.world s) log)
                  = log ++ ProcessAudio newAudioBlob (Single.selectedModel a) :: rest).
Proof.
  intros Hr a. destruct (session_invariant s Hr) as [Hp Hs].
  split; [exact Hp|]. intros Hst. destruct (Hs Hst) as [Ha He].
  split; [exact He|]. subst a.
  destruct (Single.audioBlob (Single.app (App.world s))) as [audio|] eqn:E; [|congruence].
  exists audio. split; [reflexivity|].
  intros newAudioBlob t c log. unfold Single.handleContinueDictation. run. rewrite E.
  destruct t as [fs|e]; [destruct c as [ch|e]|]; run; unfold callsOf; cbn [snd];
    rewrite <- ?app_assoc; eexists; reflexivity.
Qed.

Lemma single_mode_invariant_witness :
  let audio := mkBlob [1%N] (str "audio/webm") in
  let s0 := SingleMode.mounted ∅ (Throw NonError) in
  let s1 := stateOf (SingleMode.step SingleMode.RecorderStart s0 []) in
  let s2 := stateOf (SingleMode.step
                       (SingleMode.RecordingComplete audio (Ok [str "A"]) (Ok (ChatSession 1)))
                       s1 []) in
  let s3 := stateOf (SingleMode.step
                       (SingleMode.StopContinue (Some audio) (Throw (ErrorObj (str "503")))
                          (Ok (ChatSession 2))) s2 []) in
  Single.status (Single.app (App.world s3)) = Single.Success
  /\ Single.audioBlob (Single.app (App.world s3)) = Some audio
  /\ Single.error (Single.app (App.world s3)) = None.
Proof.
  intros audio s0 s1 s2 s3.
  split; [reflexivity|]. split; [reflexivity|].
  apply (single_mode_invariant s3); [|reflexivity].
  do 3 apply SingleMode.reachable_step. apply SingleMode.reachable_mounted.
Defined.
